(** * Skeletal animation: the [Model] class of model.hpp and the [Vertex],
    [Texture] and [Mesh] types of mesh.hpp, as a shallow embedding.

    Layout of the development:
    - [IEEE]: the two floating-point formats of the program ([float] is
      binary32, [double] is binary64), built on the Standard Library's
      executable IEEE-754 specification;
    - the error type: a C++ run that dereferences a null pointer, indexes
      past the end of an array or fails an [assert] is a [Fault];
    - the scene graph the importer hands over (assimp's plain data types);
    - the external libraries, as type classes: glm's matrix functions,
      assimp's quaternion functions, and the platform (image decoder,
      OpenGL name generation, contents of unassigned memory);
    - the program: [SetAnimation], [InitFromScene], [processNode],
      [processMesh], [loadMaterialTextures], [TextureFromFile],
      [boneTransform], [readNodeHeirarchy] and the key-frame samplers;
    - the texture loop of [Mesh::Draw] (mesh.hpp), and
      [LoadModelFromFilename] and [ProcessInput] of main.cpp;
    - the properties, with the facts about rounding, order and [fmod] on
      the two formats that the animation time needs. *)

From Stdlib Require Import ZArith.
From Stdlib Require Import Ascii.
From Stdlib Require Import Floats.SpecFloat.
From stdpp Require Import gmap strings list pretty.

(** ** Floating point *)

Module IEEE.

(** [float] is IEEE binary32 and [double] is IEEE binary64; both wrap a
    [spec_float] that is kept in the canonical form of its format. *)
Record float := F32 { f32 : spec_float }.
Record double := F64 { f64 : spec_float }.

Definition prec32 : Z := 24.
Definition emax32 : Z := 128.
Definition prec64 : Z := 53.
Definition emax64 : Z := 1024.

(** Literals: the value [m * 2^e], rounded to the format. *)
Definition float_lit (m e : Z) : float :=
  F32 (binary_normalize prec32 emax32 m e false).
Definition double_lit (m e : Z) : double :=
  F64 (binary_normalize prec64 emax64 m e false).

Definition float_zero : float := float_lit 0 0.       (* 0.0f *)
Definition float_one : float := float_lit 1 0.        (* 1.0f *)
Definition float_25 : float := float_lit 25 0.        (* 25.0f *)
Definition double_zero : double := double_lit 0 0.    (* 0.0 *)

(** Conversions.  [(float)d] rounds to nearest even; the promotion of a
    [float] to [double] is exact. *)
Definition to_float (d : double) : float :=
  match f64 d with
  | S754_finite s m e => F32 (binary_round prec32 emax32 s m e)
  | x => F32 x
  end.

Definition to_double (x : float) : double :=
  match f32 x with
  | S754_finite s m e => F64 (binary_round prec64 emax64 s m e)
  | y => F64 y
  end.

(** Arithmetic and comparisons on [float]. *)
Definition fadd (x y : float) : float := F32 (SFadd prec32 emax32 (f32 x) (f32 y)).
Definition fsub (x y : float) : float := F32 (SFsub prec32 emax32 (f32 x) (f32 y)).
Definition fmul (x y : float) : float := F32 (SFmul prec32 emax32 (f32 x) (f32 y)).
Definition fdiv (x y : float) : float := F32 (SFdiv prec32 emax32 (f32 x) (f32 y)).
Definition flt (x y : float) : bool := SFltb (f32 x) (f32 y).
Definition fle (x y : float) : bool := SFleb (f32 x) (f32 y).

(** Arithmetic and comparisons on [double]. *)
Definition dsub (x y : double) : double := F64 (SFsub prec64 emax64 (f64 x) (f64 y)).
Definition ddiv (x y : double) : double := F64 (SFdiv prec64 emax64 (f64 x) (f64 y)).
Definition deq (x y : double) : bool := SFeqb (f64 x) (f64 y).

(** [fmod] of the C library, on [spec_float]: the result has the sign of
    [x] and a magnitude below that of [y], and it is exact (the remainder
    of two floats is a float, so the final normalisation never rounds).
    [fmod(x, 0)] and [fmod(inf, y)] are NaN. *)
Definition SFfmod (prec emax : Z) (x y : spec_float) : spec_float :=
  match x, y with
  | S754_nan, _ | _, S754_nan => S754_nan
  | S754_infinity _, _ => S754_nan
  | _, S754_zero _ => S754_nan
  | S754_zero _, _ => x
  | S754_finite _ _ _, S754_infinity _ => x
  | S754_finite sx mx ex, S754_finite _ my ey =>
      let ez := Z.min ex ey in
      let X := Zpos (fst (shl_align mx ex ez)) in
      let Y := Zpos (fst (shl_align my ey ez)) in
      binary_normalize prec emax (cond_Zopp sx (Z.rem X Y)) ez sx
  end.

Definition dfmod (x y : double) : double := F64 (SFfmod prec64 emax64 (f64 x) (f64 y)).

#[global] Instance spec_float_eq_dec : EqDecision spec_float.
Proof. solve_decision. Defined.
#[global] Instance float_eq_dec : EqDecision float.
Proof. solve_decision. Defined.
#[global] Instance double_eq_dec : EqDecision double.
Proof. solve_decision. Defined.

End IEEE.
Export IEEE.

(** ** Faults *)

(** What ends a C++ run of this program early. *)
Inductive fault : Type :=
| NullPointer        (* dereference of [scene] while it is [nullptr] *)
| OutOfBounds        (* array or vector indexed past its end *)
| AssertionFailed.   (* a failed [assert] *)

Inductive result (A : Type) : Type :=
| Ok (a : A)
| Fault (f : fault).
Arguments Ok {A} a.
Arguments Fault {A} f.

#[global] Instance result_ret : MRet result := fun _ a => Ok a.
#[global] Instance result_bind : MBind result := fun _ _ k r =>
  match r with
  | Ok a => k a
  | Fault f => Fault f
  end.

(** [v[i]] on a vector or array. *)
Definition at_index {A : Type} (l : list A) (i : nat) : result A :=
  match l !! i with
  | Some a => Ok a
  | None => Fault OutOfBounds
  end.

(** [assert(b)]. *)
Definition assert (b : bool) : result unit :=
  if b then Ok tt else Fault AssertionFailed.

(** [unsigned int] arithmetic wraps modulo [2^32]. *)
Definition uint_wrap (n : N) : N := (n mod 2 ^ 32)%N.

(** Conversion of an [unsigned int] to [int] (the components of
    [glm::ivec4]): values from [2^31] up become negative. *)
Definition int_of_uint (n : N) : Z :=
  if (n <? 2 ^ 31)%N then Z.of_N n else (Z.of_N n - 2 ^ 32)%Z.

(** ** Plain data of glm and assimp *)

(** [glm::vec<4, T>]: four components read and written by index. *)
Record tvec4 (A : Type) : Type := Vec4 { c0 : A; c1 : A; c2 : A; c3 : A }.
Arguments Vec4 {A} c0 c1 c2 c3.
Arguments c0 {A} t.
Arguments c1 {A} t.
Arguments c2 {A} t.
Arguments c3 {A} t.

Definition vec4_get {A : Type} (v : tvec4 A) (g : nat) : A :=
  match g with
  | 0 => c0 v
  | 1 => c1 v
  | 2 => c2 v
  | _ => c3 v
  end.

Definition vec4_set {A : Type} (v : tvec4 A) (g : nat) (a : A) : tvec4 A :=
  match g with
  | 0 => Vec4 a (c1 v) (c2 v) (c3 v)
  | 1 => Vec4 (c0 v) a (c2 v) (c3 v)
  | 2 => Vec4 (c0 v) (c1 v) a (c3 v)
  | _ => Vec4 (c0 v) (c1 v) (c2 v) a
  end.

Definition vec4 : Type := tvec4 float.       (* glm::vec4 *)
Definition ivec4 : Type := tvec4 Z.          (* glm::ivec4 *)

Record vec3 : Type := Vec3 { x3 : float; y3 : float; z3 : float }.   (* glm::vec3 *)
Record vec2 : Type := Vec2 { x2 : float; y2 : float }.               (* glm::vec2 *)
Record quat : Type := Quat { quat_w : float; quat_x : float; quat_y : float; quat_z : float }.

(** [aiVector3D], with the three operators the samplers use. *)
Record aiVector3D : Type := AiVector3D { vx : float; vy : float; vz : float }.

Definition aiVector3D_sub (a b : aiVector3D) : aiVector3D :=
  AiVector3D (fsub (vx a) (vx b)) (fsub (vy a) (vy b)) (fsub (vz a) (vz b)).
Definition aiVector3D_add (a b : aiVector3D) : aiVector3D :=
  AiVector3D (fadd (vx a) (vx b)) (fadd (vy a) (vy b)) (fadd (vz a) (vz b)).
Definition aiVector3D_scale (f : float) (v : aiVector3D) : aiVector3D :=
  AiVector3D (fmul f (vx v)) (fmul f (vy v)) (fmul f (vz v)).

Record aiQuaternion : Type :=
  AiQuaternion { qw : float; qx : float; qy : float; qz : float }.

(** [aiMatrix4x4]: the sixteen floats [a1 .. d4], row by row; the program
    only ever passes the address of [a1] to glm. *)
Definition aiMatrix4x4 : Type := list float.

(** ** The imported scene *)

Record aiVectorKey : Type := AiVectorKey { vk_mTime : double; vk_mValue : aiVector3D }.
Record aiQuatKey : Type := AiQuatKey { qk_mTime : double; qk_mValue : aiQuaternion }.

(** One channel; [mNumPositionKeys] and the like are the lengths of the lists. *)
Record aiNodeAnim : Type := AiNodeAnim {
  mNodeName : string;
  mPositionKeys : list aiVectorKey;
  mRotationKeys : list aiQuatKey;
  mScalingKeys : list aiVectorKey
}.

Record aiAnimation : Type := AiAnimation {
  mTicksPerSecond : double;
  mChannels : list aiNodeAnim
}.

#[warnings="-register-all"]
Inductive aiNode : Type :=
| AiNode (mName : string) (mTransformation : aiMatrix4x4)
         (mMeshes : list nat) (mChildren : list aiNode).

Definition mName (n : aiNode) : string := let 'AiNode s _ _ _ := n in s.
Definition mTransformation (n : aiNode) : aiMatrix4x4 := let 'AiNode _ t _ _ := n in t.
Definition mMeshes (n : aiNode) : list nat := let 'AiNode _ _ ms _ := n in ms.
Definition mChildren (n : aiNode) : list aiNode := let 'AiNode _ _ _ cs := n in cs.

Record aiVertexWeight : Type := AiVertexWeight { mVertexId : nat; mWeight : float }.

Record aiBone : Type := AiBone {
  bone_mName : string;
  mWeights : list aiVertexWeight;
  mOffsetMatrix : aiMatrix4x4
}.

Record aiFace : Type := AiFace { mIndices : list N }.

Inductive aiTextureType : Type :=
| aiTextureType_DIFFUSE
| aiTextureType_SPECULAR
| aiTextureType_HEIGHT
| aiTextureType_EMISSIVE.

(** A material, as far as the program looks at it: for each texture type
    the paths [GetTexture(type, 0 .. GetTextureCount(type) - 1)]. *)
Record aiMaterial : Type := AiMaterial { GetTextures : aiTextureType -> list string }.

(** [mNormals] and [mTextureCoords[0]] may be null. *)
Record aiMesh : Type := AiMesh {
  mVertices : list aiVector3D;
  mNormals : option (list aiVector3D);
  mTextureCoords0 : option (list aiVector3D);
  mBones : list aiBone;
  mFaces : list aiFace;
  mMaterialIndex : nat
}.

Definition HasNormals (mesh : aiMesh) : bool :=
  match mNormals mesh, mVertices mesh with
  | Some _, _ :: _ => true
  | _, _ => false
  end.

Record aiScene : Type := AiScene {
  mRootNode : aiNode;
  scene_mMeshes : list aiMesh;
  mMaterials : list aiMaterial;
  mAnimations : list aiAnimation
}.

Definition scene_HasAnimations (sc : aiScene) : bool :=
  match mAnimations sc with
  | [] => false
  | _ :: _ => true
  end.

(** ** External libraries *)

(** glm's 4x4 matrices and the functions the program calls on them.  The
    representation and the arithmetic are glm's; the program only composes
    these functions. *)
Class GLM : Type := {
  mat4 : Type;
  mat4_diag : float -> mat4;              (* glm::mat4(s) *)
  mat4_default : mat4;                    (* glm::mat4 left by its default constructor *)
  mat4_mul : mat4 -> mat4 -> mat4;        (* operator* *)
  inverse : mat4 -> mat4;                 (* glm::inverse *)
  transpose : mat4 -> mat4;               (* glm::transpose *)
  make_mat4 : list float -> mat4;         (* glm::make_mat4(const float* ) *)
  scale : mat4 -> vec3 -> mat4;           (* glm::scale *)
  translate : mat4 -> vec3 -> mat4;       (* glm::translate *)
  toMat4 : quat -> mat4                   (* glm::toMat4 *)
}.

(** assimp's quaternion functions. *)
Class AssimpMath : Type := {
  Interpolate : aiQuaternion -> aiQuaternion -> float -> aiQuaternion;
  Normalize : aiQuaternion -> aiQuaternion
}.

Declare Scope mat_scope.
Delimit Scope mat_scope with mat.
Infix "*" := mat4_mul : mat_scope.

(** ** Renderer-side records (mesh.hpp) *)

Definition NUM_BONES_PER_VERTEX : nat := 4.

Record Vertex : Type := MkVertex {
  Position : vec3;
  Normal : vec3;
  TexCoords : vec2;
  BoneIDs : ivec4;
  BoneWeights : vec4
}.

(** [Texture]; the field [Type] of the source is [TexType] here. *)
Record Texture : Type := MkTexture {
  ID : N;
  TexType : string;
  Path : string
}.

(** [Mesh]: the three vectors the constructor stores.  The buffer objects
    that [setupMesh] creates on the GPU are not part of the model. *)
Record Mesh : Type := MkMesh {
  vertices : list Vertex;
  indices : list N;
  textures : list Texture
}.

(** ** The platform: image decoder, OpenGL, unassigned memory *)

(** What [stbi_load] returns for a file it can decode (the pixel data itself
    plays no role). *)
Record Image : Type := MkImage { img_width : Z; img_height : Z; nrComponents : Z }.

Inductive GLformat : Type := GL_RED | GL_RGB | GL_RGBA.

Class Platform : Type := {
  (* the files on disk, as the decoder sees them: [None] is a null pointer *)
  stbi_load : string -> option Image;
  (* the name [glGenTextures(1, &id)] stores while the given names are in
     use (in OpenGL an unused name, never zero; nothing below relies on it) *)
  glGenTexture : list N -> N;
  (* the contents of the local [Vertex vertex;] of [processMesh] before
     anything is assigned to it, in iteration [i] of the vertex loop *)
  indeterminate_Vertex : nat -> Vertex
}.

(** What the program does to the outside world while it loads textures. *)
Record World : Type := MkWorld {
  gl_names : list N;                              (* texture names generated so far *)
  gl_images : list (N * (GLformat * Image));      (* glTexImage2D uploads *)
  console : list string                           (* lines written to std::cout *)
}.

(** ** The program *)

Section Program.
Context {glm : GLM} {assimp : AssimpMath} {platform : Platform}.

Local Open Scope mat_scope.

Record BoneMatrix : Type := MkBoneMatrix {
  BoneOffset : mat4;
  FinalTransformation : mat4
}.

(** The constructor [BoneMatrix()]. *)
Definition BoneMatrix_new : BoneMatrix :=
  MkBoneMatrix (mat4_diag float_zero) (mat4_diag float_zero).

Record Model : Type := MkModel {
  scene : option aiScene;                   (* [nullptr] is [None] *)
  directory : string;
  meshes : list Mesh;
  loadedTextures : list Texture;
  globalInverseTransform : mat4;
  ticksPerSecond : float;
  animDuration : double;
  currentAnimation : N;
  bonesCount : N;
  boneMapping : gmap string N;
  boneMatrices : list BoneMatrix
}.

(** The constructor [Model()]. *)
Definition Model_new : Model :=
  {| scene := None; directory := ""; meshes := []; loadedTextures := [];
     globalInverseTransform := mat4_default; ticksPerSecond := float_zero;
     animDuration := double_zero; currentAnimation := 0%N; bonesCount := 0%N;
     boneMapping := ∅; boneMatrices := [] |}.

(** Assignments to single members. *)
Definition set_scene (sc : aiScene) (m : Model) : Model :=
  MkModel (Some sc) (directory m) (meshes m) (loadedTextures m)
    (globalInverseTransform m) (ticksPerSecond m) (animDuration m)
    (currentAnimation m) (bonesCount m) (boneMapping m) (boneMatrices m).
Definition set_directory (d : string) (m : Model) : Model :=
  MkModel (scene m) d (meshes m) (loadedTextures m)
    (globalInverseTransform m) (ticksPerSecond m) (animDuration m)
    (currentAnimation m) (bonesCount m) (boneMapping m) (boneMatrices m).
Definition set_meshes (ms : list Mesh) (m : Model) : Model :=
  MkModel (scene m) (directory m) ms (loadedTextures m)
    (globalInverseTransform m) (ticksPerSecond m) (animDuration m)
    (currentAnimation m) (bonesCount m) (boneMapping m) (boneMatrices m).
Definition set_loadedTextures (ts : list Texture) (m : Model) : Model :=
  MkModel (scene m) (directory m) (meshes m) ts
    (globalInverseTransform m) (ticksPerSecond m) (animDuration m)
    (currentAnimation m) (bonesCount m) (boneMapping m) (boneMatrices m).
Definition set_globalInverseTransform (g : mat4) (m : Model) : Model :=
  MkModel (scene m) (directory m) (meshes m) (loadedTextures m)
    g (ticksPerSecond m) (animDuration m)
    (currentAnimation m) (bonesCount m) (boneMapping m) (boneMatrices m).
Definition set_ticksPerSecond (t : float) (m : Model) : Model :=
  MkModel (scene m) (directory m) (meshes m) (loadedTextures m)
    (globalInverseTransform m) t (animDuration m)
    (currentAnimation m) (bonesCount m) (boneMapping m) (boneMatrices m).
Definition set_animDuration (d : double) (m : Model) : Model :=
  MkModel (scene m) (directory m) (meshes m) (loadedTextures m)
    (globalInverseTransform m) (ticksPerSecond m) d
    (currentAnimation m) (bonesCount m) (boneMapping m) (boneMatrices m).
Definition set_currentAnimation (a : N) (m : Model) : Model :=
  MkModel (scene m) (directory m) (meshes m) (loadedTextures m)
    (globalInverseTransform m) (ticksPerSecond m) (animDuration m)
    a (bonesCount m) (boneMapping m) (boneMatrices m).
Definition set_bonesCount (c : N) (m : Model) : Model :=
  MkModel (scene m) (directory m) (meshes m) (loadedTextures m)
    (globalInverseTransform m) (ticksPerSecond m) (animDuration m)
    (currentAnimation m) c (boneMapping m) (boneMatrices m).
Definition set_boneMapping (bm : gmap string N) (m : Model) : Model :=
  MkModel (scene m) (directory m) (meshes m) (loadedTextures m)
    (globalInverseTransform m) (ticksPerSecond m) (animDuration m)
    (currentAnimation m) (bonesCount m) bm (boneMatrices m).
Definition set_boneMatrices (bs : list BoneMatrix) (m : Model) : Model :=
  MkModel (scene m) (directory m) (meshes m) (loadedTextures m)
    (globalInverseTransform m) (ticksPerSecond m) (animDuration m)
    (currentAnimation m) (bonesCount m) (boneMapping m) bs.

(** [this->scene->...]: a fault while [scene] is null. *)
Definition get_scene (m : Model) : result aiScene :=
  match scene m with
  | Some sc => Ok sc
  | None => Fault NullPointer
  end.

(** The converters at the top of model.hpp. *)
Definition vec3Convert (v : aiVector3D) : vec3 := Vec3 (vx v) (vy v) (vz v).
Definition vec2Convert (v : aiVector3D) : vec2 := Vec2 (vx v) (vy v).
Definition quatConvert (q : aiQuaternion) : quat := Quat (qw q) (qx q) (qy q) (qz q).
Definition mat4Convert (matrix : aiMatrix4x4) : mat4 := transpose (make_mat4 matrix).

(** A loop over a vector whose body can fault. *)
Fixpoint foldlM {A B : Type} (f : B -> A -> result B) (l : list A) (b : B) : result B :=
  match l with
  | [] => Ok b
  | a :: l' => b' ← f b a; foldlM f l' b'
  end.

(** *** Selection *)

Definition HasAnimations (m : Model) : result bool :=
  sc ← get_scene m; Ok (scene_HasAnimations sc).

Definition GetNumAnimations (m : Model) : result N :=
  sc ← get_scene m; Ok (N.of_nat (length (mAnimations sc))).

Definition SetAnimation (animation : N) (m : Model) : result Model :=
  n ← GetNumAnimations m;
  if (0 <=? animation)%N && (animation <? n)%N
  then Ok (set_currentAnimation animation m)
  else Ok m.

Definition SetDirectory (d : string) (m : Model) : Model := set_directory d m.

(** *** Textures *)

(** [TextureFromFile]: the texture name is generated before the file is
    read, and returned whether or not the file could be decoded. *)
Definition TextureFromFile (filename directory : string) (w : World) : N * World :=
  let path := directory +:+ "/" +:+ filename in
  let textureID := glGenTexture (gl_names w) in
  let names := textureID :: gl_names w in
  match stbi_load path with
  | Some data =>
      let format :=
        if (nrComponents data =? 1)%Z then GL_RED
        else if (nrComponents data =? 3)%Z then GL_RGB
        else if (nrComponents data =? 4)%Z then GL_RGBA
        else GL_RED in
      (textureID,
       MkWorld names ((textureID, (format, data)) :: gl_images w) (console w))
  | None =>
      (textureID,
       MkWorld names (gl_images w)
         (console w ++ ["Texture failed to load at path: " +:+ path]))
  end.

(** The inner loop of [loadMaterialTextures]: the first cached texture
    whose path compares equal. *)
Definition find_loaded (loaded : list Texture) (str : string) : option Texture :=
  find (fun t => bool_decide (Path t = str)) loaded.

(** One iteration of the outer loop of [loadMaterialTextures]. *)
Definition loadMaterialTexture (typeName : string)
    (st : list Texture * Model * World) (str : string) : list Texture * Model * World :=
  let '(textures, m, w) := st in
  match find_loaded (loadedTextures m) str with
  | Some t => (textures ++ [t], m, w)
  | None =>
      let '(id, w') := TextureFromFile str (directory m) w in
      let texture := MkTexture id typeName str in
      (textures ++ [texture],
       set_loadedTextures (loadedTextures m ++ [texture]) m, w')
  end.

Definition loadMaterialTextures (mat : aiMaterial) (type : aiTextureType)
    (typeName : string) (m : Model) (w : World) : list Texture * Model * World :=
  fold_left (loadMaterialTexture typeName) (GetTextures mat type) ([], m, w).

(** *** Mesh construction *)

(** Body of the vertex loop of [processMesh], iteration [i].  [BoneIDs]
    is the one member nothing is assigned to. *)
Definition processVertex (mesh : aiMesh) (i : nat) (p : aiVector3D) : result Vertex :=
  let vertex := indeterminate_Vertex i in
  let position := Vec3 (vx p) (vy p) (vz p) in
  normal ←
    (if HasNormals mesh
     then n ← at_index (default [] (mNormals mesh)) i;
          Ok (Vec3 (vx n) (vy n) (vz n))
     else Ok (Normal vertex));
  texCoords ←
    match mTextureCoords0 mesh with
    | Some coords => c ← at_index coords i; Ok (Vec2 (vx c) (vy c))
    | None => Ok (Vec2 float_zero float_zero)
    end;
  Ok (MkVertex position normal texCoords (BoneIDs vertex)
        (Vec4 float_zero float_zero float_zero float_zero)).

Fixpoint processVertices (mesh : aiMesh) (i : nat) (ps : list aiVector3D)
    : result (list Vertex) :=
  match ps with
  | [] => Ok []
  | p :: ps' =>
      v ← processVertex mesh i p;
      vs ← processVertices mesh (S i) ps';
      Ok (v :: vs)
  end.

(** The test [BoneWeights[g] == 0.0]: the weight is promoted to [double]
    and compared with the literal. *)
Definition weight_is_zero (w : float) : bool := deq (to_double w) double_zero.

(** The loop over [g]: slots [g], [g + 1], ... while [fuel] lasts; the
    first slot whose weight compares equal to zero takes the record. *)
Fixpoint storeWeight_from (fuel g : nat) (boneIndex : N) (weight : float)
    (v : Vertex) : Vertex :=
  match fuel with
  | 0 => v
  | S fuel' =>
      if weight_is_zero (vec4_get (BoneWeights v) g)
      then MkVertex (Position v) (Normal v) (TexCoords v)
             (vec4_set (BoneIDs v) g (int_of_uint boneIndex))
             (vec4_set (BoneWeights v) g weight)
      else storeWeight_from fuel' (S g) boneIndex weight v
  end.

Definition storeWeight (boneIndex : N) (weight : float) (v : Vertex) : Vertex :=
  storeWeight_from NUM_BONES_PER_VERTEX 0 boneIndex weight v.

(** Body of the loop over [j]: one skinning record. *)
Definition processWeight (boneIndex : N) (vs : list Vertex) (vw : aiVertexWeight)
    : result (list Vertex) :=
  let vertexID := mVertexId vw in
  let weight := mWeight vw in
  v ← at_index vs vertexID;
  Ok (<[vertexID := storeWeight boneIndex weight v]> vs).

(** The first half of the body of the bone loop: look the name up, or
    allocate the next index for it. *)
Definition registerBone (bone : aiBone) (m : Model) : result (N * Model) :=
  let boneName := bone_mName bone in
  match boneMapping m !! boneName with
  | None =>
      let boneIndex := bonesCount m in
      let pushed := boneMatrices m ++ [BoneMatrix_new] in
      b ← at_index pushed (N.to_nat boneIndex);
      let b' := MkBoneMatrix (mat4Convert (mOffsetMatrix bone)) (FinalTransformation b) in
      Ok (boneIndex,
          set_boneMapping (<[boneName := boneIndex]> (boneMapping m))
            (set_boneMatrices (<[N.to_nat boneIndex := b']> pushed)
               (set_bonesCount (uint_wrap (bonesCount m + 1)) m)))
  | Some boneIndex => Ok (boneIndex, m)
  end.

(** Body of the bone loop. *)
Definition processBone (st : Model * list Vertex) (bone : aiBone)
    : result (Model * list Vertex) :=
  let '(m, vs) := st in
  '(boneIndex, m') ← registerBone bone m;
  vs' ← foldlM (processWeight boneIndex) (mWeights bone) vs;
  Ok (m', vs').

Definition processBones (bones : list aiBone) (m : Model) (vs : list Vertex)
    : result (Model * list Vertex) :=
  foldlM processBone bones (m, vs).

Definition processMesh (mesh : aiMesh) (m : Model) (w : World)
    : result (Mesh * Model * World) :=
  vertices0 ← processVertices mesh 0 (mVertices mesh);
  '(m, vertices) ← processBones (mBones mesh) m vertices0;
  let indices := concat (map mIndices (mFaces mesh)) in
  sc ← get_scene m;
  material ← at_index (mMaterials sc) (mMaterialIndex mesh);
  let '(diffuseMaps, m, w) :=
    loadMaterialTextures material aiTextureType_DIFFUSE "texture_diffuse" m w in
  let '(specularMaps, m, w) :=
    loadMaterialTextures material aiTextureType_SPECULAR "texture_specular" m w in
  let '(normalMaps, m, w) :=
    loadMaterialTextures material aiTextureType_HEIGHT "texture_normal" m w in
  let '(emissionMaps, m, w) :=
    loadMaterialTextures material aiTextureType_EMISSIVE "texture_emission" m w in
  let textures := diffuseMaps ++ specularMaps ++ normalMaps ++ emissionMaps in
  Ok (MkMesh vertices indices textures, m, w).

(** Body of the mesh loop of [processNode]. *)
Definition processNodeMesh (st : Model * World) (idx : nat) : result (Model * World) :=
  let '(m, w) := st in
  sc ← get_scene m;
  mesh ← at_index (scene_mMeshes sc) idx;
  '(built, m, w) ← processMesh mesh m w;
  Ok (set_meshes (meshes m ++ [built]) m, w).

Fixpoint processNode (node : aiNode) (st : Model * World) : result (Model * World) :=
  let 'AiNode _ _ ms cs := node in
  st ← foldlM processNodeMesh ms st;
  (fix children (cs : list aiNode) (st : Model * World) : result (Model * World) :=
     match cs with
     | [] => Ok st
     | c :: cs' => st' ← processNode c st; children cs' st'
     end) cs st.

Definition InitFromScene (sc : aiScene) (m : Model) (w : World) : result (Model * World) :=
  let m := set_scene sc m in
  let m := set_globalInverseTransform (mat4Convert (mTransformation (mRootNode sc))) m in
  let m := set_globalInverseTransform (inverse (globalInverseTransform m)) m in
  m ←
    (if scene_HasAnimations sc
     then anim ← at_index (mAnimations sc) (N.to_nat (currentAnimation m));
          if negb (deq (mTicksPerSecond anim) (to_double float_zero))
          then Ok (set_ticksPerSecond (to_float (mTicksPerSecond anim)) m)
          else Ok (set_ticksPerSecond float_25 m)
     else Ok (set_ticksPerSecond float_25 m));
  processNode (mRootNode sc) (m, w).

(** *** Key-frame sampling *)

(** The loop shared by [findPosition], [findRotation] and [findScaling]:
    [times] holds the time stamps of keys [i + 1], [i + 2], ...; running
    off the end reaches [assert(0)]. *)
Fixpoint scanKeys (animationTime : float) (times : list double) (i : nat) : result nat :=
  match times with
  | [] => Fault AssertionFailed
  | t :: times' =>
      if flt animationTime (to_float t) then Ok i
      else scanKeys animationTime times' (S i)
  end.

(** With no key at all the bound [mNumPositionKeys - 1] wraps to
    [2^32 - 1] and the first iteration reads key 1 of an empty array. *)
Definition findPosition (animationTime : float) (nodeAnim : aiNodeAnim) : result nat :=
  match mPositionKeys nodeAnim with
  | [] => Fault OutOfBounds
  | _ :: later => scanKeys animationTime (map vk_mTime later) 0
  end.

Definition findRotation (animationTime : float) (nodeAnim : aiNodeAnim) : result nat :=
  _ ← assert (0 <? length (mRotationKeys nodeAnim));
  scanKeys animationTime (map qk_mTime (tail (mRotationKeys nodeAnim))) 0.

Definition findScaling (animationTime : float) (nodeAnim : aiNodeAnim) : result nat :=
  _ ← assert (0 <? length (mScalingKeys nodeAnim));
  scanKeys animationTime (map vk_mTime (tail (mScalingKeys nodeAnim))) 0.

(** The interpolation factor, with its [assert]. *)
Definition interpolationFactor (animationTime : float) (t0 t1 : double) : result float :=
  let deltaTime := to_float (dsub t1 t0) in
  let factor := fdiv (fsub animationTime (to_float t0)) deltaTime in
  _ ← assert (fle float_zero factor && fle factor float_one);
  Ok factor.

Definition calcInterpolatedPosition (animationTime : float) (nodeAnim : aiNodeAnim)
    : result aiVector3D :=
  let keys := mPositionKeys nodeAnim in
  if length keys =? 1 then k ← at_index keys 0; Ok (vk_mValue k)
  else
    positionIndex ← findPosition animationTime nodeAnim;
    let nextPositionIndex := positionIndex + 1 in
    _ ← assert (nextPositionIndex <? length keys);
    k0 ← at_index keys positionIndex;
    k1 ← at_index keys nextPositionIndex;
    factor ← interpolationFactor animationTime (vk_mTime k0) (vk_mTime k1);
    let start := vk_mValue k0 in
    let end_ := vk_mValue k1 in
    let delta := aiVector3D_sub end_ start in
    Ok (aiVector3D_add start (aiVector3D_scale factor delta)).

Definition calcInterpolatedRotation (animationTime : float) (nodeAnim : aiNodeAnim)
    : result aiQuaternion :=
  let keys := mRotationKeys nodeAnim in
  if length keys =? 1 then k ← at_index keys 0; Ok (qk_mValue k)
  else
    rotationIndex ← findRotation animationTime nodeAnim;
    let nextRotationIndex := rotationIndex + 1 in
    _ ← assert (nextRotationIndex <? length keys);
    k0 ← at_index keys rotationIndex;
    k1 ← at_index keys nextRotationIndex;
    factor ← interpolationFactor animationTime (qk_mTime k0) (qk_mTime k1);
    let startRotationQ := qk_mValue k0 in
    let endRotationQ := qk_mValue k1 in
    Ok (Normalize (Interpolate startRotationQ endRotationQ factor)).

Definition calcInterpolatedScaling (animationTime : float) (nodeAnim : aiNodeAnim)
    : result aiVector3D :=
  let keys := mScalingKeys nodeAnim in
  if length keys =? 1 then k ← at_index keys 0; Ok (vk_mValue k)
  else
    scalingIndex ← findScaling animationTime nodeAnim;
    let nextScalingIndex := scalingIndex + 1 in
    _ ← assert (nextScalingIndex <? length keys);
    k0 ← at_index keys scalingIndex;
    k1 ← at_index keys nextScalingIndex;
    factor ← interpolationFactor animationTime (vk_mTime k0) (vk_mTime k1);
    let start := vk_mValue k0 in
    let end_ := vk_mValue k1 in
    let delta := aiVector3D_sub end_ start in
    Ok (aiVector3D_add start (aiVector3D_scale factor delta)).

(** *** Evaluation *)

Definition findNodeAnim (animation : aiAnimation) (nodeName : string) : option aiNodeAnim :=
  find (fun nodeAnim => bool_decide (mNodeName nodeAnim = nodeName)) (mChannels animation).

(** The local transform of a node ([nodeTransformation] in
    [readNodeHeirarchy]): sampled from the node's channel when the clip
    has one, the node's own matrix otherwise. *)
Definition nodeTransformation (animation : aiAnimation) (animationTime : float)
    (node : aiNode) : result mat4 :=
  match findNodeAnim animation (mName node) with
  | Some nodeAnim =>
      scaling ← calcInterpolatedScaling animationTime nodeAnim;
      let scalingM := scale (mat4_diag float_one) (Vec3 (vx scaling) (vy scaling) (vz scaling)) in
      rotationQ ← calcInterpolatedRotation animationTime nodeAnim;
      let rotationM := toMat4 (quatConvert rotationQ) in
      translation ← calcInterpolatedPosition animationTime nodeAnim;
      let translationM :=
        translate (mat4_diag float_one)
          (Vec3 (vx translation) (vy translation) (vz translation)) in
      Ok (translationM * rotationM * scalingM)
  | None => Ok (mat4Convert (mTransformation node))
  end.

(** The write into the bone registry, for a node named [nodeName] whose
    global transform is [globalTransformation]. *)
Definition writeFinalTransformation (nodeName : string) (globalTransformation : mat4)
    (m : Model) : result Model :=
  match boneMapping m !! nodeName with
  | Some boneIndex =>
      b ← at_index (boneMatrices m) (N.to_nat boneIndex);
      let final := globalInverseTransform m * globalTransformation * BoneOffset b in
      Ok (set_boneMatrices
            (<[N.to_nat boneIndex := MkBoneMatrix (BoneOffset b) final]> (boneMatrices m)) m)
  | None => Ok m
  end.

Fixpoint readNodeHeirarchy (animationTime : float) (node : aiNode)
    (parentTransform : mat4) (m : Model) : result Model :=
  sc ← get_scene m;
  animation ← at_index (mAnimations sc) (N.to_nat (currentAnimation m));
  local ← nodeTransformation animation animationTime node;
  let globalTransformation := parentTransform * local in
  m ← writeFinalTransformation (mName node) globalTransformation m;
  let 'AiNode _ _ _ cs := node in
  (fix children (cs : list aiNode) (m : Model) : result Model :=
     match cs with
     | [] => Ok m
     | c :: cs' =>
         m' ← readNodeHeirarchy animationTime c globalTransformation m;
         children cs' m'
     end) cs m.

(** The local [ticksPerSecond] of [boneTransform]. *)
Definition clipTicksPerSecond (animation : aiAnimation) : float :=
  to_float (if negb (deq (mTicksPerSecond animation) double_zero)
            then mTicksPerSecond animation
            else to_double float_25).

(** [fmod(timeInTicks, animDuration)], stored in a [float]. *)
Definition wrapTime (timeInTicks : float) (duration : double) : float :=
  to_float (dfmod (to_double timeInTicks) duration).

Definition boneTransform (timeInSeconds : float) (m : Model)
    : result (list mat4 * Model) :=
  let identity := mat4_diag float_one in
  sc ← get_scene m;
  animation ← at_index (mAnimations sc) (N.to_nat (currentAnimation m));
  channel0 ← at_index (mChannels animation) 0;
  let numPosKeys := length (mPositionKeys channel0) in
  lastKey ← at_index (mPositionKeys channel0) (numPosKeys - 1);
  let m := set_animDuration (vk_mTime lastKey) m in
  let ticksPerSecond := clipTicksPerSecond animation in
  let timeInTicks := fmul timeInSeconds ticksPerSecond in
  let animationTime := wrapTime timeInTicks (animDuration m) in
  m ← readNodeHeirarchy animationTime (mRootNode sc) identity m;
  transforms ←
    mapM (fun i => b ← at_index (boneMatrices m) i; Ok (FinalTransformation b))
         (seq 0 (N.to_nat (bonesCount m)));
  Ok (transforms, m).

(** [SetBoneTransformations]: the array handed to the shader, if any. *)
Definition SetBoneTransformations (currentTime : float) (m : Model)
    : result (option (list mat4) * Model) :=
  animated ← HasAnimations m;
  if (animated : bool)
  then '(transforms, m) ← boneTransform currentTime m; Ok (Some transforms, m)
  else Ok (None, m).

End Program.

(** ** The renderer's side of a mesh (mesh.hpp) *)

Section Renderer.
Context {glm : GLM} {assimp : AssimpMath} {platform : Platform}.

(** [std::to_string] of an [unsigned int]. *)
Definition to_string (n : N) : string := pretty n.

(** The four counters of [Mesh::Draw]. *)
Record SamplerCounters : Type := MkCounters {
  diffuseNr : N;
  specularNr : N;
  normalNr : N;
  emissionNr : N
}.

(** What the loop of [Mesh::Draw] computes for one texture: the name of
    the sampler uniform, [name + number], and the counters afterwards.
    For a type that is none of the four, [number] stays empty. *)
Definition samplerName (name : string) (c : SamplerCounters) : string * SamplerCounters :=
  if bool_decide (name = "texture_diffuse")
  then (name +:+ to_string (diffuseNr c),
        MkCounters (uint_wrap (diffuseNr c + 1)) (specularNr c) (normalNr c) (emissionNr c))
  else if bool_decide (name = "texture_specular")
  then (name +:+ to_string (specularNr c),
        MkCounters (diffuseNr c) (uint_wrap (specularNr c + 1)) (normalNr c) (emissionNr c))
  else if bool_decide (name = "texture_normal")
  then (name +:+ to_string (normalNr c),
        MkCounters (diffuseNr c) (specularNr c) (uint_wrap (normalNr c + 1)) (emissionNr c))
  else if bool_decide (name = "texture_emission")
  then (name +:+ to_string (emissionNr c),
        MkCounters (diffuseNr c) (specularNr c) (normalNr c) (uint_wrap (emissionNr c + 1)))
  else (name +:+ "", c).

(** One iteration of the loop as OpenGL sees it: texture unit [i] is made
    active, the sampler uniform of that name is set to [i], and the
    texture is bound to the unit. *)
Record TextureBinding : Type := MkTextureBinding {
  textureUnit : nat;
  samplerUniform : string;
  boundTexture : N
}.

Fixpoint bindTextures (i : nat) (c : SamplerCounters) (textures : list Texture)
    : list TextureBinding :=
  match textures with
  | [] => []
  | t :: textures' =>
      let '(uniform, c') := samplerName (TexType t) c in
      MkTextureBinding i uniform (ID t) :: bindTextures (S i) c' textures'
  end.

(** The texture loop of [Mesh::Draw]. *)
Definition Mesh_Draw (mesh : Mesh) : list TextureBinding :=
  bindTextures 0 (MkCounters 1 1 1 1) (textures mesh).

(** [Model::Draw]: the meshes are drawn in the order they were built. *)
Definition Model_Draw (m : Model) : list (list TextureBinding) :=
  map Mesh_Draw (meshes m).

End Renderer.

(** ** The application (main.cpp) *)

Section Application.
Context {glm : GLM} {assimp : AssimpMath} {platform : Platform}.

(** [std::string::find_last_of(c)]: the index of the last occurrence of
    [c]; [None] stands for [npos]. *)
Fixpoint find_last_of (c : Ascii.ascii) (s : string) : option nat :=
  match s with
  | EmptyString => None
  | String a s' =>
      match find_last_of c s' with
      | Some i => Some (S i)
      | None => if bool_decide (a = c) then Some 0 else None
      end
  end.

(** [s.substr(0, n)]; with [npos] for [n] it is the whole string. *)
Definition substr0 (s : string) (n : option nat) : string :=
  match n with
  | Some n => String.substring 0 n s
  | None => s
  end.

(** What [Importer::ReadFile] hands back, as far as the test in
    [LoadModelFromFilename] tells the cases apart. *)
Inductive imported : Type :=
| NoScene
| IncompleteScene
| NoRootNode
| Scene (sc : aiScene).

(** [LoadModelFromFilename]; [error] is the importer's error string. *)
Definition LoadModelFromFilename (path : string) (read : imported) (error : string)
    (w : World) : result (Model * World) :=
  let model := Model_new in
  match read with
  | Scene sc =>
      let model := SetDirectory (substr0 path (find_last_of "/"%char path)) model in
      InitFromScene sc model w
  | _ =>
      Ok (model,
          MkWorld (gl_names w) (gl_images w) (console w ++ ["ERROR::ASSIMP: " +:+ error]))
  end.

(** The globals of main.cpp that [ProcessInput] works on, and the close
    flag of the window. *)
Record App : Type := MkApp {
  app_model : Model;
  app_currentAnimation : N;
  animationChanged : bool;
  windowShouldClose : bool
}.

(** [ProcessInput]; [escape] and [key1] tell whether [glfwGetKey] reports
    the key as pressed (it reports it as released otherwise). *)
Definition ProcessInput (escape key1 : bool) (a : App) : result App :=
  let a :=
    if escape
    then MkApp (app_model a) (app_currentAnimation a) (animationChanged a) true
    else a in
  a ←
    (if key1 && negb (animationChanged a)
     then
       n ← GetNumAnimations (app_model a);
       let current :=
         if (app_currentAnimation a <? uint_wrap (n + 2 ^ 32 - 1))%N
         then uint_wrap (app_currentAnimation a + 1)
         else 0%N in
       model ← SetAnimation current (app_model a);
       Ok (MkApp model current true (windowShouldClose a))
     else Ok a);
  Ok (if negb key1
      then MkApp (app_model a) (app_currentAnimation a) false (windowShouldClose a)
      else a).

End Application.

(** ** A concrete platform, to run the program on examples *)

Module Fixture.

(** Matrices kept symbolic: a term records which glm functions were
    applied to what, in which order. *)
Inductive term : Type :=
| T_diag (s : float)
| T_default
| T_mul (a b : term)
| T_inverse (a : term)
| T_transpose (a : term)
| T_make (l : list float)
| T_scale (a : term) (v : vec3)
| T_translate (a : term) (v : vec3)
| T_toMat4 (q : quat).

Definition symbolic_glm : GLM :=
  {| mat4 := term; mat4_diag := T_diag; mat4_default := T_default;
     mat4_mul := T_mul; inverse := T_inverse; transpose := T_transpose;
     make_mat4 := T_make; scale := T_scale; translate := T_translate;
     toMat4 := T_toMat4 |}.

(** Quaternions: the linear blend [(1 - f) * start + f * end], and
    division by the norm. *)
Definition blend (f a b : float) : float :=
  fadd (fmul (fsub float_one f) a) (fmul f b).

Definition lerp (s e : aiQuaternion) (f : float) : aiQuaternion :=
  AiQuaternion (blend f (qw s) (qw e)) (blend f (qx s) (qx e))
               (blend f (qy s) (qy e)) (blend f (qz s) (qz e)).

Definition fsqrt (x : float) : float := F32 (SFsqrt prec32 emax32 (f32 x)).

Definition normalize (q : aiQuaternion) : aiQuaternion :=
  let sq := fun c => fmul c c in
  let mag := fsqrt (fadd (fadd (fadd (sq (qx q)) (sq (qy q))) (sq (qz q))) (sq (qw q))) in
  if flt float_zero mag
  then let inv := fdiv float_one mag in
       AiQuaternion (fmul (qw q) inv) (fmul (qx q) inv) (fmul (qy q) inv) (fmul (qz q) inv)
  else q.

Definition linear_assimp : AssimpMath :=
  {| Interpolate := lerp; Normalize := normalize |}.

(** One readable image on disk; names are handed out 1, 2, 3, ...;
    unassigned vertex memory reads as zero. *)
Definition zero_Vertex : Vertex :=
  MkVertex (Vec3 float_zero float_zero float_zero)
           (Vec3 float_zero float_zero float_zero)
           (Vec2 float_zero float_zero)
           (Vec4 0%Z 0%Z 0%Z 0%Z)
           (Vec4 float_zero float_zero float_zero float_zero).

Definition next_name (used : list N) : N := (1 + foldr N.max 0 used)%N.

Definition disk (path : string) : option Image :=
  if bool_decide (path = "assets/skin.png") then Some (MkImage 64 64 4) else None.

Definition test_platform : Platform :=
  {| stbi_load := disk; glGenTexture := next_name;
     indeterminate_Vertex := fun _ => zero_Vertex |}.

Definition blank : World := MkWorld [] [] [].

(** *** A two-bone arm *)

Definition lit (z : Z) : float := float_lit z 0.
Definition half : float := float_lit 1 (-1).
Definition ticks (z : Z) : double := double_lit z 0.
Definition v3 (a b c : Z) : aiVector3D := AiVector3D (lit a) (lit b) (lit c).
Definition unit_q : aiQuaternion := AiQuaternion (lit 1) (lit 0) (lit 0) (lit 0).
Definition turn_q : aiQuaternion := AiQuaternion (lit 0) (lit 0) (lit 0) (lit 1).

Definition identity16 : aiMatrix4x4 :=
  [lit 1; lit 0; lit 0; lit 0;
   lit 0; lit 1; lit 0; lit 0;
   lit 0; lit 0; lit 1; lit 0;
   lit 0; lit 0; lit 0; lit 1].

Definition raise16 : aiMatrix4x4 :=
  [lit 1; lit 0; lit 0; lit 0;
   lit 0; lit 1; lit 0; lit 1;
   lit 0; lit 0; lit 1; lit 0;
   lit 0; lit 0; lit 0; lit 1].

Definition upper_bone : aiBone :=
  AiBone "upper" [AiVertexWeight 0 (lit 1); AiVertexWeight 1 half] identity16.
Definition lower_bone : aiBone :=
  AiBone "lower" [AiVertexWeight 1 half; AiVertexWeight 2 (lit 1)] raise16.

Definition arm_mesh : aiMesh :=
  {| mVertices := [v3 0 0 0; v3 0 1 0; v3 0 2 0];
     mNormals := None;
     mTextureCoords0 := None;
     mBones := [upper_bone; lower_bone];
     mFaces := [AiFace [0; 1; 2]%N];
     mMaterialIndex := 0 |}.

(** A second mesh that names the bone "lower" again, before a new one. *)
Definition hand_mesh : aiMesh :=
  {| mVertices := [v3 0 2 0; v3 0 3 0];
     mNormals := Some [v3 0 0 1; v3 0 0 1];
     mTextureCoords0 := Some [v3 0 0 0; v3 1 1 0];
     mBones := [AiBone "lower" [AiVertexWeight 0 half] identity16;
                AiBone "hand" [AiVertexWeight 0 half; AiVertexWeight 1 (lit 1)] identity16];
     mFaces := [];
     mMaterialIndex := 0 |}.

(** The diffuse texture is on disk, the specular one is not. *)
Definition skin : aiMaterial :=
  AiMaterial (fun type =>
    match type with
    | aiTextureType_DIFFUSE => ["skin.png"]
    | aiTextureType_SPECULAR => ["gloss.png"]
    | _ => []
    end).

(** Clip 0 has no rate of its own; its first channel ends at tick 30, its
    second one at tick 40. *)
Definition wave : aiAnimation :=
  AiAnimation (ticks 0)
    [AiNodeAnim "upper"
       [AiVectorKey (ticks 0) (v3 0 0 0); AiVectorKey (ticks 30) (v3 0 0 2)]
       [AiQuatKey (ticks 0) unit_q]
       [AiVectorKey (ticks 0) (v3 1 1 1)];
     AiNodeAnim "lower"
       [AiVectorKey (ticks 0) (v3 0 1 0); AiVectorKey (ticks 40) (v3 0 1 4)]
       [AiQuatKey (ticks 0) unit_q; AiQuatKey (ticks 40) turn_q]
       [AiVectorKey (ticks 0) (v3 1 1 1); AiVectorKey (ticks 40) (v3 2 2 2)]].

Definition nod : aiAnimation :=
  AiAnimation (ticks 24)
    [AiNodeAnim "lower"
       [AiVectorKey (ticks 0) (v3 0 1 0); AiVectorKey (ticks 10) (v3 0 1 0)]
       [AiQuatKey (ticks 0) unit_q]
       [AiVectorKey (ticks 0) (v3 1 1 1)]].


Definition lower_node : aiNode := AiNode "lower" raise16 [1] [].
Definition upper_node : aiNode := AiNode "upper" identity16 [] [lower_node].
Definition arm_root : aiNode := AiNode "root" raise16 [0] [upper_node].

Definition arm : aiScene :=
  {| mRootNode := arm_root;
     scene_mMeshes := [arm_mesh; hand_mesh];
     mMaterials := [skin];
     mAnimations := [wave; nod] |}.

(** One vertex pulled by five bones, with weights 1/2, 1/4, ..., 1/32. *)
Definition crowded_mesh : aiMesh :=
  {| mVertices := [v3 0 0 0];
     mNormals := None;
     mTextureCoords0 := None;
     mBones := [AiBone "b0" [AiVertexWeight 0 (float_lit 1 (-1))] identity16;
                AiBone "b1" [AiVertexWeight 0 (float_lit 1 (-2))] identity16;
                AiBone "b2" [AiVertexWeight 0 (float_lit 1 (-3))] identity16;
                AiBone "b3" [AiVertexWeight 0 (float_lit 1 (-4))] identity16;
                AiBone "b4" [AiVertexWeight 0 (float_lit 1 (-5))] identity16];
     mFaces := [];
     mMaterialIndex := 0 |}.

(** One vertex whose only record, for the second bone, has weight zero. *)
Definition ghost_mesh : aiMesh :=
  {| mVertices := [v3 0 0 0];
     mNormals := None;
     mTextureCoords0 := None;
     mBones := [AiBone "hip" [] identity16;
                AiBone "ghost" [AiVertexWeight 0 float_zero] identity16];
     mFaces := [];
     mMaterialIndex := 0 |}.

(** The same, followed by a record of weight one for a third bone. *)
Definition haunted_mesh : aiMesh :=
  {| mVertices := [v3 0 0 0];
     mNormals := None;
     mTextureCoords0 := None;
     mBones := [AiBone "hip" [] identity16;
                AiBone "ghost" [AiVertexWeight 0 float_zero] identity16;
                AiBone "solid" [AiVertexWeight 0 (lit 1)] identity16];
     mFaces := [];
     mMaterialIndex := 0 |}.

(** The arm, with the scene attached but no mesh processed yet. *)
Definition arm_model : Model (glm := symbolic_glm) := set_scene arm Model_new.

(** The arm once [InitFromScene] has run, as main.cpp calls it. *)
Definition arm_loaded : result (Model (glm := symbolic_glm) * World) :=
  InitFromScene (glm := symbolic_glm) (platform := test_platform)
    arm (SetDirectory "assets" Model_new) blank.

Definition arm_ready : Model (glm := symbolic_glm) :=
  match arm_loaded with
  | Ok (m, _) => m
  | Fault _ => Model_new
  end.

(** One vertex and a bone whose only record names vertex 1. *)
Definition stray_mesh : aiMesh :=
  {| mVertices := [v3 0 0 0];
     mNormals := None;
     mTextureCoords0 := None;
     mBones := [AiBone "hip" [AiVertexWeight 1 (lit 1)] identity16];
     mFaces := [];
     mMaterialIndex := 0 |}.

(** Memory that was used before: a new [Vertex] reads as sevens. *)
Definition stale_Vertex : Vertex :=
  MkVertex (Vec3 (lit 7) (lit 7) (lit 7))
           (Vec3 (lit 7) (lit 7) (lit 7))
           (Vec2 (lit 7) (lit 7))
           (Vec4 7%Z 7%Z 7%Z 7%Z)
           (Vec4 (lit 7) (lit 7) (lit 7) (lit 7)).

Definition stale_platform : Platform :=
  {| stbi_load := disk; glGenTexture := next_name;
     indeterminate_Vertex := fun _ => stale_Vertex |}.



End Fixture.

(** ** Vocabulary of the properties *)

Section Vocabulary.
Context {glm : GLM} {assimp : AssimpMath} {platform : Platform}.

(** Influence slot [g] of a vertex: the pair (bone index, weight). *)
Definition slot (v : Vertex) (g : nat) : Z * float :=
  (vec4_get (BoneIDs v) g, vec4_get (BoneWeights v) g).

Definition slots (v : Vertex) : list (Z * float) := map (slot v) [0; 1; 2; 3].

(** A slot is empty when its weight compares equal to zero. *)
Definition empty_slot (v : Vertex) (g : nat) : bool :=
  weight_is_zero (vec4_get (BoneWeights v) g).

(** The vertex with the record written into slot [g]. *)
Definition fill_slot (g : nat) (boneIndex : N) (weight : float) (v : Vertex) : Vertex :=
  MkVertex (Position v) (Normal v) (TexCoords v)
    (vec4_set (BoneIDs v) g (int_of_uint boneIndex))
    (vec4_set (BoneWeights v) g weight).

(** Number of slots of a vertex that hold a nonzero weight. *)
Definition influences (v : Vertex) : nat :=
  length (filter (fun s => weight_is_zero s.2 = false) (slots v)).

(** The nonzero weights form a prefix of the slots. *)
Definition contiguous (v : Vertex) : Prop :=
  forall g g', g < g' < NUM_BONES_PER_VERTEX ->
    empty_slot v g = true -> empty_slot v g' = true.

(** The same store on a list of slots: the first slot with a zero weight
    takes the record; without one the list stays as it is. *)
Fixpoint store_first_empty (r : Z * float) (l : list (Z * float)) : list (Z * float) :=
  match l with
  | [] => []
  | s :: l' => if weight_is_zero s.2 then r :: l' else s :: store_first_empty r l'
  end.

(** The skinning records of a list of bones in their order of arrival,
    each as (vertex, bone index, weight); the bone indices are the ones
    [registerBone] hands out along the way. *)
Fixpoint skinningRecords (bones : list aiBone) (m : Model) : result (list (nat * N * float)) :=
  match bones with
  | [] => Ok []
  | bone :: rest =>
      '(boneIndex, m') ← registerBone bone m;
      recs ← skinningRecords rest m';
      Ok (map (fun vw => (mVertexId vw, boneIndex, mWeight vw)) (mWeights bone) ++ recs)
  end.

(** One record stored into the vertex array. *)
Definition storeRecord (vs : list Vertex) (r : nat * N * float) : result (list Vertex) :=
  processWeight r.1.2 vs (AiVertexWeight r.1.1 r.2).

(** The slots of vertex [vid] as the vertex loop leaves them: the bone
    indices are whatever the unassigned member held, the weights are zero. *)
Definition unassigned_slots (vid : nat) : list (Z * float) :=
  map (fun g => (vec4_get (BoneIDs (indeterminate_Vertex vid)) g, float_zero)) [0; 1; 2; 3].

(** The records that name vertex [vid], as slot contents. *)
Definition recordsFor (vid : nat) (recs : list (nat * N * float)) : list (Z * float) :=
  map (fun r => (int_of_uint r.1.2, r.2)) (filter (fun r => r.1.1 = vid) recs).

(** [m'] is [m] except for the [FinalTransformation] members of its bone
    matrices: same number of bones, same offsets, every other member
    equal. *)
Definition finals_only (m m' : Model) : Prop :=
  m' = set_boneMatrices (boneMatrices m') m /\
  map BoneOffset (boneMatrices m') = map BoneOffset (boneMatrices m).

(** The traversal as the specification words it: the nodes in the order
    they are visited, each with its global transform, which is the
    parent's global transform times the node's local transform; the
    children are visited with the node's global transform as their
    parent's. *)
Fixpoint globalTransforms_spec (animation : aiAnimation) (animationTime : float)
    (node : aiNode) (parentGlobalTransform : mat4) : result (list (string * mat4)) :=
  localTransform ← nodeTransformation animation animationTime node;
  let globalTransform := mat4_mul parentGlobalTransform localTransform in
  let 'AiNode _ _ _ cs := node in
  below ←
    (fix children (cs : list aiNode) : result (list (string * mat4)) :=
       match cs with
       | [] => Ok []
       | c :: cs' =>
           first ← globalTransforms_spec animation animationTime c globalTransform;
           others ← children cs';
           Ok (first ++ others)
       end) cs;
  Ok ((mName node, globalTransform) :: below).

(** The write the evaluator makes for one visited node. *)
Definition writeVisit (m : Model) (v : string * mat4) : result Model :=
  writeFinalTransformation v.1 v.2 m.

(** The last visited node that is bone [idx]. *)
Definition lastVisitOf (mapping : gmap string N) (idx : nat)
    (visits : list (string * mat4)) : option (string * mat4) :=
  last (filter (fun v => N.to_nat <$> mapping !! v.1 = Some idx) visits).

(** The state of the bone registry that binding looks at: the counter and
    the name table. *)
Definition registry (m : Model) : N * gmap string N := (bonesCount m, boneMapping m).

Definition bindName (st : N * gmap string N) (name : string) : N * gmap string N :=
  match st.2 !! name with
  | Some _ => st
  | None => (uint_wrap (st.1 + 1), <[name := st.1]> st.2)
  end.

(** The distinct names of a sequence, in the order in which each is first
    seen. *)
Definition see (acc : list string) (name : string) : list string :=
  if bool_decide (name ∈ acc) then acc else acc ++ [name].

Definition first_seen (names : list string) : list string :=
  fold_left see names [].

(** The registry state [st] has bound exactly the names [seen], the
    [i]-th of them to index [i]. *)
Definition binds (st : N * gmap string N) (seen : list string) : Prop :=
  st.1 = N.of_nat (length seen) /\
  forall name i, st.2 !! name = Some i <-> seen !! N.to_nat i = Some name.

(** The meshes [processNode] builds, in its order: those of the node, then
    those of each child's subtree. *)
Fixpoint nodeMeshIndices (node : aiNode) : list nat :=
  let 'AiNode _ _ ms cs := node in
  ms ++ (fix children (cs : list aiNode) : list nat :=
           match cs with
           | [] => []
           | c :: cs' => nodeMeshIndices c ++ children cs'
           end) cs.

(** The bone names of the meshes with the given indices, in order. *)
Definition meshBoneNames (sc : aiScene) (idxs : list nat) : list string :=
  concat (map (fun idx => from_option (fun mesh => map bone_mName (mBones mesh)) []
                            (scene_mMeshes sc !! idx)) idxs).

(** The bone names bound while a scene is loaded, in binding order. *)
Definition boundNames (sc : aiScene) : list string :=
  meshBoneNames sc (nodeMeshIndices (mRootNode sc)).

Definition valid_double (d : double) : Prop := valid_binary prec64 emax64 (f64 d) = true.



End Vocabulary.

(** ** Vocabulary of the further properties *)

Section MoreVocabulary.
Context {glm : GLM} {assimp : AssimpMath} {platform : Platform}.

(** The nodes of a tree in the order the recursion visits them. *)
Fixpoint subtree (node : aiNode) : list aiNode :=
  node ::
  (let 'AiNode _ _ _ cs := node in
   (fix children (cs : list aiNode) : list aiNode :=
      match cs with
      | [] => []
      | c :: cs' => subtree c ++ children cs'
      end) cs).

(** [animationTime < (float)t], the comparison of the three searches. *)
Definition before (animationTime : float) (t : double) : bool :=
  flt animationTime (to_float t).

(** The registry points inside the bone matrices: the counter does not
    exceed their number, and every index of the name table is below it. *)
Definition registry_in_bounds (m : Model) : Prop :=
  N.to_nat (bonesCount m) <= length (boneMatrices m) /\
  forall name i, boneMapping m !! name = Some i -> N.to_nat i < length (boneMatrices m).

(** The part of the model the bone loop works on. *)
Definition bonesState (m : Model) : N * gmap string N * list BoneMatrix :=
  (bonesCount m, boneMapping m, boneMatrices m).

(** The bones of the meshes with the given indices, in order, and the
    bones met while a scene is loaded. *)
Definition meshBones (sc : aiScene) (idxs : list nat) : list aiBone :=
  concat (map (fun idx => from_option mBones [] (scene_mMeshes sc !! idx)) idxs).

Definition boundBones (sc : aiScene) : list aiBone :=
  meshBones sc (nodeMeshIndices (mRootNode sc)).

(** The first bone of a list that carries a name. *)
Definition firstBoneNamed (name : string) (bones : list aiBone) : option aiBone :=
  find (fun bone => bool_decide (bone_mName bone = name)) bones.

(** The registry after the bones [bs], none of them lost to a wrap of
    the counter: one bone matrix per name, bound to the names in the
    order of their first bone, each holding the offset of that first bone
    and a zero final transformation. *)
Definition first_offsets (bs : list aiBone) (m : Model) : Prop :=
  (N.of_nat (length bs) < 2 ^ 32)%N ->
  length (boneMatrices m) <= length bs /\
  bonesCount m = N.of_nat (length (boneMatrices m)) /\
  (forall name, is_Some (boneMapping m !! name) <-> name ∈ map bone_mName bs) /\
  forall name i, boneMapping m !! name = Some i ->
    exists bone,
      firstBoneNamed name bs = Some bone /\
      boneMatrices m !! N.to_nat i
      = Some (MkBoneMatrix (mat4Convert (mOffsetMatrix bone)) (mat4_diag float_zero)).




(** The arrays of a mesh cover what [processMesh] reads from them: the
    normal and texture coordinate arrays, where present, are as long as
    the vertex array, every skinning record names a vertex of the mesh,
    and the material index is inside the scene's materials. *)
Definition mesh_in_bounds (mesh : aiMesh) (sc : aiScene) : Prop :=
  (forall normals, mNormals mesh = Some normals ->
     length (mVertices mesh) <= length normals) /\
  (forall coords, mTextureCoords0 mesh = Some coords ->
     length (mVertices mesh) <= length coords) /\
  Forall (fun bone =>
            Forall (fun vw => mVertexId vw < length (mVertices mesh)) (mWeights bone))
         (mBones mesh) /\
  mMaterialIndex mesh < length (mMaterials sc).

End MoreVocabulary.

(** ** Properties *)

(** *** The error monad *)

Lemma bind_Ok {A B : Type} (r : result A) (k : A -> result B) (b : B) :
  r ≫= k = Ok b -> exists a, r = Ok a /\ k a = Ok b.
Proof. destruct r as [a|f]; simpl; [eauto | discriminate]. Qed.

Lemma at_index_Ok {A : Type} (l : list A) (i : nat) (a : A) :
  at_index l i = Ok a <-> l !! i = Some a.
Proof. unfold at_index. destruct (l !! i); split; congruence. Qed.

(** Splits a hypothesis [x ← r; k = Ok b] into its two steps. *)
Tactic Notation "inv_bind" hyp(H) "as" simple_intropattern(p) :=
  let H1 := fresh H "_l" in
  let H2 := fresh H "_r" in
  apply bind_Ok in H; destruct H as (p & H1 & H2).

Tactic Notation "inv_bind" hyp(H) :=
  let a := fresh "a" in inv_bind H as a.

(** *** Selection of the clip *)

Section Selection.
Context {glm : GLM}.

(** C8.  On a loaded model, [SetAnimation] with an index at or above the
    number of clips returns normally and leaves the whole model as it
    was; with an index below the number of clips it returns the model
    with [currentAnimation] set to that index and nothing else changed. *)
Theorem SetAnimation_guard (m : Model) (sc : aiScene) (animation : N) :
  scene m = Some sc ->
  ((N.of_nat (length (mAnimations sc)) <= animation)%N ->
     SetAnimation animation m = Ok m) /\
  ((animation < N.of_nat (length (mAnimations sc)))%N ->
     SetAnimation animation m = Ok (set_currentAnimation animation m) /\
     currentAnimation (set_currentAnimation animation m) = animation).
Proof.
  intros Hsc. unfold SetAnimation, GetNumAnimations, get_scene.
  rewrite Hsc. simpl. split.
  - intros Hge. apply N.ltb_ge in Hge. rewrite Hge. by rewrite andb_false_r.
  - intros Hlt. apply N.ltb_lt in Hlt. rewrite Hlt.
    replace (0 <=? animation)%N with true by (symmetry; apply N.leb_le; lia).
    done.
Qed.

End Selection.

(** *** Influence slots *)

Section Slots.
Context {glm : GLM} {assimp : AssimpMath} {platform : Platform}.

#[local] Opaque weight_is_zero.

(** [storeWeight] on the list of slots. *)
Lemma slots_storeWeight (boneIndex : N) (weight : float) (v : Vertex) :
  slots (storeWeight boneIndex weight v)
  = store_first_empty (int_of_uint boneIndex, weight) (slots v).
Proof.
  destruct v as [p n t [i0 i1 i2 i3] [w0 w1 w2 w3]].
  unfold storeWeight, NUM_BONES_PER_VERTEX, slots, slot. simpl.
  destruct (weight_is_zero w0); [done|].
  destruct (weight_is_zero w1); [done|].
  destruct (weight_is_zero w2); [done|].
  destruct (weight_is_zero w3); done.
Qed.

Lemma slots_lookup (v : Vertex) (g : nat) :
  g < 4 -> slots v !! g = Some (slot v g).
Proof.
  intros Hg. unfold slots.
  destruct g as [|[|[|[|g]]]]; try done. lia.
Qed.

Lemma slots_length (v : Vertex) : length (slots v) = 4.
Proof. done. Qed.


(** The record goes to the first empty slot. *)
Lemma storeWeight_first_empty (boneIndex : N) (weight : float) (v : Vertex) (g : nat) :
  g < NUM_BONES_PER_VERTEX ->
  empty_slot v g = true ->
  (forall g', g' < g -> empty_slot v g' = false) ->
  storeWeight boneIndex weight v = fill_slot g boneIndex weight v.
Proof.
  unfold NUM_BONES_PER_VERTEX, empty_slot, storeWeight, fill_slot.
  destruct v as [p n t [i0 i1 i2 i3] [w0 w1 w2 w3]]. simpl.
  intros Hg He Hbefore.
  assert (Hb : forall g', g' < g ->
            weight_is_zero (vec4_get (Vec4 w0 w1 w2 w3) g') = false) by done.
  destruct g as [|[|[|[|g]]]]; [| | | |lia]; simpl in He.
  - by rewrite He.
  - pose proof (Hb 0 ltac:(lia)) as H0. simpl in H0. by rewrite H0, He.
  - pose proof (Hb 0 ltac:(lia)) as H0. pose proof (Hb 1 ltac:(lia)) as H1.
    simpl in H0, H1. by rewrite H0, H1, He.
  - pose proof (Hb 0 ltac:(lia)) as H0. pose proof (Hb 1 ltac:(lia)) as H1.
    pose proof (Hb 2 ltac:(lia)) as H2. simpl in H0, H1, H2.
    by rewrite H0, H1, H2, He.
Qed.

(** With no empty slot the record is dropped. *)
Lemma storeWeight_full (boneIndex : N) (weight : float) (v : Vertex) :
  (forall g, g < NUM_BONES_PER_VERTEX -> empty_slot v g = false) ->
  storeWeight boneIndex weight v = v.
Proof.
  unfold NUM_BONES_PER_VERTEX, empty_slot, storeWeight.
  destruct v as [p n t [i0 i1 i2 i3] [w0 w1 w2 w3]]. simpl.
  intros Hfull.
  pose proof (Hfull 0 ltac:(lia)) as H0. pose proof (Hfull 1 ltac:(lia)) as H1.
  pose proof (Hfull 2 ltac:(lia)) as H2. pose proof (Hfull 3 ltac:(lia)) as H3.
  simpl in H0, H1, H2, H3. by rewrite H0, H1, H2, H3.
Qed.

Lemma influences_le (v : Vertex) : influences v <= NUM_BONES_PER_VERTEX.
Proof.
  unfold influences. etrans; [apply length_filter|]. by rewrite slots_length.
Qed.

Lemma contiguous_storeWeight (boneIndex : N) (weight : float) (v : Vertex) :
  contiguous v -> contiguous (storeWeight boneIndex weight v).
Proof.
  destruct v as [p n t [i0 i1 i2 i3] [w0 w1 w2 w3]].
  unfold contiguous, NUM_BONES_PER_VERTEX, empty_slot, storeWeight. simpl.
  intros H.
  pose proof (H 0 1 ltac:(lia)) as H01. pose proof (H 0 2 ltac:(lia)) as H02.
  pose proof (H 0 3 ltac:(lia)) as H03. pose proof (H 1 2 ltac:(lia)) as H12.
  pose proof (H 1 3 ltac:(lia)) as H13. pose proof (H 2 3 ltac:(lia)) as H23.
  clear H. simpl in *.
  destruct (weight_is_zero w0) eqn:E0; [|destruct (weight_is_zero w1) eqn:E1;
    [|destruct (weight_is_zero w2) eqn:E2; [|destruct (weight_is_zero w3) eqn:E3]]];
    simpl; intros g g' Hg;
    destruct g as [|[|[|g]]]; destruct g' as [|[|[|[|g']]]]; simpl; try lia;
    intros; auto; congruence.
Qed.

(** A record of weight zero leaves its slot empty: the next record for the
    vertex lands where it would have landed without it. *)
Lemma storeWeight_after_zero (b b' : N) (w0 w' : float) (v : Vertex) :
  weight_is_zero w0 = true ->
  storeWeight b' w' (storeWeight b w0 v) = storeWeight b' w' v.
Proof.
  intros Hz.
  destruct v as [p n t [i0 i1 i2 i3] [u0 u1 u2 u3]].
  unfold storeWeight, NUM_BONES_PER_VERTEX. simpl.
  destruct (weight_is_zero u0) eqn:E0; simpl.
  { by rewrite Hz. }
  destruct (weight_is_zero u1) eqn:E1; simpl.
  { by rewrite E0, Hz. }
  destruct (weight_is_zero u2) eqn:E2; simpl.
  { by rewrite E0, E1, Hz. }
  destruct (weight_is_zero u3) eqn:E3; simpl.
  { by rewrite E0, E1, E2, Hz. }
  by rewrite E0, E1, E2, E3.
Qed.

(** Records of nonzero weight fill the empty tail of a slot list from
    its start, in order, until it is used up. *)
Lemma fold_store_first_empty (recs filled rest : list (Z * float)) :
  Forall (fun s => weight_is_zero s.2 = false) filled ->
  Forall (fun s => weight_is_zero s.2 = true) rest ->
  Forall (fun s => weight_is_zero s.2 = false) recs ->
  fold_left (fun l r => store_first_empty r l) recs (filled ++ rest)
  = filled ++ take (length rest) recs ++ drop (length recs) rest.
Proof.
  assert (Hstep : forall r filled rest,
    Forall (fun s => weight_is_zero s.2 = false) filled ->
    Forall (fun s => weight_is_zero s.2 = true) rest ->
    store_first_empty r (filled ++ rest)
    = filled ++ match rest with [] => [] | _ :: rest' => r :: rest' end).
  { intros r f. induction f as [|s f IH]; intros rs Hf Hr; simpl.
    - destruct rs as [|z rs]; [done|]. simpl.
      apply Forall_cons in Hr as [Hz _]. by rewrite Hz.
    - apply Forall_cons in Hf as [Hs Hf]. rewrite Hs. f_equal. by apply IH. }
  revert filled rest.
  induction recs as [|r recs IH]; intros filled rest Hf Hr Hrecs; simpl.
  - by rewrite take_nil, drop_0.
  - apply Forall_cons in Hrecs as [Hnz Hrecs].
    rewrite Hstep by done.
    destruct rest as [|z rest]; simpl.
    + rewrite app_nil_r.
      specialize (IH filled [] Hf Hr Hrecs). rewrite app_nil_r in IH.
      rewrite IH. simpl. by rewrite !drop_nil, app_nil_r.
    + apply Forall_cons in Hr as [_ Hr].
      replace (filled ++ r :: rest) with ((filled ++ [r]) ++ rest)
        by (by rewrite <- app_assoc).
      rewrite IH; [|apply Forall_app; split; [done|by apply Forall_singleton]|done|done].
      by rewrite <- app_assoc.
Qed.

End Slots.

(** *** The vertex array under the bone loop *)

Section VertexArray.
Context {glm : GLM} {assimp : AssimpMath} {platform : Platform}.

#[local] Opaque weight_is_zero.

Lemma foldlM_app {A B : Type} (f : B -> A -> result B) (l1 l2 : list A) (b : B) :
  foldlM f (l1 ++ l2) b = foldlM f l1 b ≫= foldlM f l2.
Proof.
  revert b. induction l1 as [|a l1 IH]; intros b; simpl; [done|].
  destruct (f b a) as [b'|e]; simpl; [apply IH | done].
Qed.

Lemma foldlM_map {A A' B : Type} (f : B -> A' -> result B) (h : A -> A') (l : list A) (b : B) :
  foldlM f (map h l) b = foldlM (fun b a => f b (h a)) l b.
Proof.
  revert b. induction l as [|a l IH]; intros b; simpl; [done|].
  destruct (f b (h a)); simpl; [apply IH | done].
Qed.

Lemma foldlM_ext {A B : Type} (f g : B -> A -> result B) (l : list A) (b : B) :
  (forall b a, f b a = g b a) -> foldlM f l b = foldlM g l b.
Proof.
  intros Hfg. revert b. induction l as [|a l IH]; intros b; simpl; [done|].
  rewrite Hfg. destruct (g b a); simpl; [apply IH | done].
Qed.

(** The bone loop stores the skinning records one after the other. *)
Lemma processBones_records (bones : list aiBone) (m m' : Model) (vs vs' : list Vertex) :
  processBones bones m vs = Ok (m', vs') ->
  exists recs, skinningRecords bones m = Ok recs /\ foldlM storeRecord recs vs = Ok vs'.
Proof.
  unfold processBones. revert m vs.
  induction bones as [|bone rest IH]; intros m vs H; simpl in H.
  - simplify_eq. by exists [].
  - inv_bind H. destruct a as [m1 vs1].
    unfold processBone in H_l.
    inv_bind H_l. destruct a as [boneIndex m1'].
    inv_bind H_l_r. simplify_eq.
    destruct (IH _ _ H_r) as (recs & Hrecs & Hfold).
    exists (map (fun vw => (mVertexId vw, boneIndex, mWeight vw)) (mWeights bone) ++ recs).
    split.
    + simpl. rewrite H_l_l. simpl. by rewrite Hrecs.
    + rewrite foldlM_app, foldlM_map.
      rewrite (foldlM_ext _ (processWeight boneIndex)); [by rewrite H_l_r_l|].
      intros b [vid w]. done.
Qed.

Lemma storeRecord_Ok (vs vs' : list Vertex) (r : nat * N * float) :
  storeRecord vs r = Ok vs' ->
  exists v, vs !! r.1.1 = Some v /\ vs' = <[r.1.1 := storeWeight r.1.2 r.2 v]> vs.
Proof.
  unfold storeRecord, processWeight. simpl. intros H.
  inv_bind H. apply at_index_Ok in H_l. simplify_eq. eauto.
Qed.

(** Each vertex sees exactly the records that name it, in arrival order. *)
Lemma foldlM_storeRecord (recs : list (nat * N * float)) (vs vs' : list Vertex) :
  foldlM storeRecord recs vs = Ok vs' ->
  length vs' = length vs /\
  forall vid v, vs !! vid = Some v ->
    vs' !! vid = Some (fold_left (fun v r => storeWeight r.1.2 r.2 v)
                                 (filter (fun r => r.1.1 = vid) recs) v).
Proof.
  revert vs. induction recs as [|r recs IH]; intros vs H; simpl in H.
  - simplify_eq. split; [done|]. intros vid v Hv. by rewrite filter_nil.
  - inv_bind H. apply storeRecord_Ok in H_l as (u & Hu & ->).
    destruct (IH _ H_r) as [Hlen Hvid]. split.
    + by rewrite Hlen, length_insert.
    + intros vid v Hv. destruct (decide (r.1.1 = vid)) as [Heq|Hne].
      * rewrite filter_cons_True by done. simpl. subst vid.
        assert (u = v) by congruence. subst u.
        apply Hvid. apply list_lookup_insert_eq. by eapply lookup_lt_Some.
      * rewrite filter_cons_False by done.
        apply Hvid. by rewrite list_lookup_insert_ne.
Qed.

Lemma slots_fold_storeWeight (rs : list (nat * N * float)) (v : Vertex) :
  slots (fold_left (fun v r => storeWeight r.1.2 r.2 v) rs v)
  = fold_left (fun l r => store_first_empty r l)
              (map (fun r => (int_of_uint r.1.2, r.2)) rs) (slots v).
Proof.
  revert v. induction rs as [|r rs IH]; intros v; simpl; [done|].
  by rewrite IH, slots_storeWeight.
Qed.

(** What the vertex loop leaves in the influence slots. *)
Lemma processVertices_slots (mesh : aiMesh) (i : nat) (ps : list aiVector3D) (vs : list Vertex) :
  processVertices mesh i ps = Ok vs ->
  length vs = length ps /\
  forall k v, vs !! k = Some v -> slots v = unassigned_slots (i + k).
Proof.
  revert i vs. induction ps as [|p ps IH]; intros i vs H; simpl in H.
  - simplify_eq. split; [done|]. intros k v Hk. by rewrite lookup_nil in Hk.
  - inv_bind H. inv_bind H_r. simplify_eq.
    destruct (IH _ _ H_r_l) as [Hlen Hslots]. split.
    + simpl. by rewrite Hlen.
    + intros k v Hk. destruct k as [|k]; simpl in Hk.
      * simplify_eq. unfold processVertex in H_l.
        inv_bind H_l. inv_bind H_l_r. simplify_eq.
        by rewrite Nat.add_0_r.
      * rewrite Nat.add_succ_r, <- Nat.add_succ_l. by apply Hslots.
Qed.

(** The vertices of the mesh that [processMesh] returns are the ones the
    bone loop leaves. *)
Lemma processMesh_vertices (mesh : aiMesh) (m m' : Model) (w w' : World) (built : Mesh) :
  processMesh mesh m w = Ok (built, m', w') ->
  exists vs0 m1,
    processVertices mesh 0 (mVertices mesh) = Ok vs0 /\
    processBones (mBones mesh) m vs0 = Ok (m1, vertices built).
Proof.
  unfold processMesh. intros H.
  inv_bind H. inv_bind H_r. destruct a0 as [m1 vs].
  inv_bind H_r_r. inv_bind H_r_r_r.
  repeat match type of H_r_r_r_r with
         | context [loadMaterialTextures ?a ?b ?c ?d ?e] =>
             destruct (loadMaterialTextures a b c d e) as [[? ?] ?]
         end.
  simplify_eq. eauto.
Qed.

End VertexArray.

Section MeshTheorems.
Context {glm : GLM} {assimp : AssimpMath} {platform : Platform}.

Lemma weight_is_zero_zero : weight_is_zero float_zero = true.
Proof. reflexivity. Qed.

#[local] Opaque weight_is_zero.

Lemma unassigned_slots_empty (vid : nat) :
  Forall (fun s : Z * float => weight_is_zero s.2 = true) (unassigned_slots vid).
Proof.
  unfold unassigned_slots. apply Forall_map, Forall_forall.
  intros g _. apply weight_is_zero_zero.
Qed.

(** The vertices of a built mesh, from the records that arrived. *)
Lemma processMesh_slots (mesh : aiMesh) (m m' : Model) (w w' : World) (built : Mesh) :
  processMesh mesh m w = Ok (built, m', w') ->
  exists recs,
    skinningRecords (mBones mesh) m = Ok recs /\
    forall vid v, vertices built !! vid = Some v ->
      slots v = fold_left (fun l r => store_first_empty r l)
                          (recordsFor vid recs) (unassigned_slots vid).
Proof.
  intros H.
  destruct (processMesh_vertices _ _ _ _ _ _ H) as (vs0 & m1 & Hvs0 & Hbones).
  destruct (processBones_records _ _ _ _ _ Hbones) as (recs & Hrecs & Hfold).
  exists recs. split; [done|]. intros vid v Hv.
  destruct (foldlM_storeRecord _ _ _ Hfold) as [Hlen Hvid].
  destruct (processVertices_slots _ _ _ _ Hvs0) as [_ Hinit].
  assert (is_Some (vs0 !! vid)) as [v0 Hv0].
  { apply lookup_lt_is_Some. rewrite <- Hlen. by eapply lookup_lt_Some. }
  rewrite (Hvid _ _ Hv0) in Hv. simplify_eq.
  rewrite slots_fold_storeWeight. by rewrite (Hinit _ _ Hv0).
Qed.

(** C4.  A skinning record goes into the first slot of the vertex whose
    weight compares equal to zero, and is dropped when there is none; so
    a vertex of a built mesh has at most four nonzero weights, and when the
    records that arrived for it all have nonzero weights its slots hold the
    first four of them in arrival order, the remaining slots being as the
    vertex loop left them. *)
Theorem influence_slots_first_empty :
  (forall boneIndex weight v g,
     g < NUM_BONES_PER_VERTEX ->
     empty_slot v g = true ->
     (forall g', g' < g -> empty_slot v g' = false) ->
     storeWeight boneIndex weight v = fill_slot g boneIndex weight v) /\
  (forall boneIndex weight v,
     (forall g, g < NUM_BONES_PER_VERTEX -> empty_slot v g = false) ->
     storeWeight boneIndex weight v = v) /\
  (forall mesh m w built m' w',
     processMesh mesh m w = Ok (built, m', w') ->
     exists recs,
       skinningRecords (mBones mesh) m = Ok recs /\
       forall vid v, vertices built !! vid = Some v ->
         influences v <= NUM_BONES_PER_VERTEX /\
         (Forall (fun s => weight_is_zero s.2 = false) (recordsFor vid recs) ->
          slots v = take NUM_BONES_PER_VERTEX (recordsFor vid recs)
                    ++ drop (length (recordsFor vid recs)) (unassigned_slots vid))).
Proof.
  split; [|split].
  - intros. by apply storeWeight_first_empty.
  - intros. by apply storeWeight_full.
  - intros mesh m w built m' w' H.
    destruct (processMesh_slots _ _ _ _ _ _ H) as (recs & Hrecs & Hslots).
    exists recs. split; [done|]. intros vid v Hv. split; [apply influences_le|].
    intros Hnz. rewrite (Hslots _ _ Hv).
    pose proof (fold_store_first_empty (recordsFor vid recs) [] (unassigned_slots vid)
                  (Forall_nil_2 _) (unassigned_slots_empty vid) Hnz) as Hfold.
    done.
Qed.

End MeshTheorems.

Section SlotInvariant.
Context {glm : GLM} {assimp : AssimpMath} {platform : Platform}.

#[local] Opaque weight_is_zero.

Lemma unassigned_contiguous (vid : nat) (v : Vertex) :
  slots v = unassigned_slots vid -> contiguous v.
Proof.
  destruct v as [p n t [i0 i1 i2 i3] [w0 w1 w2 w3]].
  unfold slots, slot, unassigned_slots. simpl. intros H. simplify_eq.
  intros g g' _ _. unfold empty_slot. simpl.
  destruct g' as [|[|[|g']]]; apply weight_is_zero_zero.
Qed.

Lemma storeRecord_contiguous (vs vs' : list Vertex) (r : nat * N * float) :
  Forall contiguous vs -> storeRecord vs r = Ok vs' -> Forall contiguous vs'.
Proof.
  intros Hvs H. apply storeRecord_Ok in H as (v & Hv & ->).
  apply Forall_insert; [done|].
  apply contiguous_storeWeight. by eapply Forall_lookup_1.
Qed.

Lemma foldlM_storeRecord_contiguous (recs : list (nat * N * float)) (vs vs' : list Vertex) :
  Forall contiguous vs -> foldlM storeRecord recs vs = Ok vs' -> Forall contiguous vs'.
Proof.
  revert vs. induction recs as [|r recs IH]; intros vs Hvs H; simpl in H.
  - by simplify_eq.
  - inv_bind H. eapply IH; [|done]. by eapply storeRecord_contiguous.
Qed.

(** C10.  The vertex loop leaves every vertex with its nonzero weights
    forming a prefix of its four slots (there are none); storing one
    skinning record keeps it so; hence it holds after every prefix of the
    records of a mesh and for the vertices of the built mesh.  A record of
    weight zero does not use up its slot: the next record for the vertex
    is stored exactly where it would have been without it. *)
Theorem nonzero_weights_form_prefix :
  (forall mesh i ps vs,
     processVertices mesh i ps = Ok vs -> Forall contiguous vs) /\
  (forall boneIndex vs vw vs',
     Forall contiguous vs ->
     processWeight boneIndex vs vw = Ok vs' -> Forall contiguous vs') /\
  (forall mesh m w built m' w',
     processMesh mesh m w = Ok (built, m', w') ->
     Forall contiguous (vertices built) /\
     exists vs0 recs,
       processVertices mesh 0 (mVertices mesh) = Ok vs0 /\
       skinningRecords (mBones mesh) m = Ok recs /\
       foldlM storeRecord recs vs0 = Ok (vertices built) /\
       forall k vsk,
         foldlM storeRecord (take k recs) vs0 = Ok vsk -> Forall contiguous vsk) /\
  (forall b w0 b' w' v,
     weight_is_zero w0 = true ->
     (forall g, empty_slot (storeWeight b w0 v) g = empty_slot v g) /\
     storeWeight b' w' (storeWeight b w0 v) = storeWeight b' w' v).
Proof.
  assert (Hinit : forall mesh i ps vs,
            processVertices mesh i ps = Ok vs -> Forall contiguous vs).
  { intros mesh i ps vs H. apply Forall_lookup_2. intros k v Hk.
    destruct (processVertices_slots _ _ _ _ H) as [_ Hs].
    eapply unassigned_contiguous. by apply Hs. }
  split; [done|]. split; [|split].
  - intros boneIndex vs [vid wt] vs' Hvs H.
    by apply (storeRecord_contiguous vs vs' (vid, boneIndex, wt)).
  - intros mesh m w built m' w' H.
    destruct (processMesh_vertices _ _ _ _ _ _ H) as (vs0 & m1 & Hvs0 & Hbones).
    destruct (processBones_records _ _ _ _ _ Hbones) as (recs & Hrecs & Hfold).
    split.
    + eapply foldlM_storeRecord_contiguous; [|done]. by eapply Hinit.
    + exists vs0, recs. repeat split; try done.
      intros k vsk Hk. eapply foldlM_storeRecord_contiguous; [|done]. by eapply Hinit.
  - intros b w0 b' w' v Hz. split; [|by apply storeWeight_after_zero].
    intros g.
    destruct v as [p n t [i0 i1 i2 i3] [u0 u1 u2 u3]].
    unfold empty_slot, storeWeight, NUM_BONES_PER_VERTEX. simpl.
    destruct (weight_is_zero u0) eqn:E0; simpl.
    { destruct g as [|[|[|g]]]; simpl; congruence. }
    destruct (weight_is_zero u1) eqn:E1; simpl.
    { destruct g as [|[|[|g]]]; simpl; congruence. }
    destruct (weight_is_zero u2) eqn:E2; simpl.
    { destruct g as [|[|[|g]]]; simpl; congruence. }
    destruct (weight_is_zero u3) eqn:E3; simpl; [|done].
    destruct g as [|[|[|g]]]; simpl; congruence.
Qed.

(** A store goes to the first slot with a zero weight, so it leaves alone
    every slot behind a slot with a zero weight. *)
Lemma store_first_empty_beyond (r : Z * float) (l : list (Z * float)) :
  forall k g,
    (forall s, l !! k = Some s -> weight_is_zero s.2 = true) ->
    k < g ->
    store_first_empty r l !! g = l !! g.
Proof.
  induction l as [|s0 l IH]; intros k g Hk Hg; simpl; [done|].
  destruct (weight_is_zero s0.2) eqn:E.
  - destruct g as [|g]; [lia | done].
  - destruct k as [|k].
    + specialize (Hk s0 eq_refl). congruence.
    + destruct g as [|g]; [lia|]. simpl. apply (IH k); [exact Hk | lia].
Qed.

(** After [n] stores into slots that were all empty, the slots from [n]
    onwards are as they were. *)
Lemma fold_store_first_empty_beyond (recs : list (Z * float)) :
  forall l n,
    (forall g s, n <= g -> l !! g = Some s -> weight_is_zero s.2 = true) ->
    forall g, n + length recs <= g ->
      fold_left (fun l r => store_first_empty r l) recs l !! g = l !! g.
Proof.
  induction recs as [|r recs IH]; intros l n Hzero g Hg; simpl in *; [done|].
  assert (Hstep : forall g', n < g' -> store_first_empty r l !! g' = l !! g').
  { intros g' Hg'. apply (store_first_empty_beyond r l n); [|done].
    intros s. by apply Hzero. }
  rewrite (IH (store_first_empty r l) (S n)); [apply Hstep; lia | | lia].
  intros g' s Hg' Hs. rewrite Hstep in Hs by lia. apply (Hzero g'); [lia | done].
Qed.

(** C6.  The slots no record reached.  In a built mesh, the slots of a
    vertex from the number of records that arrived for it onwards were
    never stored into: they hold the weight [0.0f] of the vertex loop and
    the bone index the [BoneIDs] member of the new [Vertex] held, a member
    the vertex loop never assigns.  The index is 0 only where that memory
    happens to read 0. *)
Theorem unused_slots_hold_unassigned_index
    (mesh : aiMesh) (m m' : Model) (w w' : World) (built : Mesh) :
  processMesh mesh m w = Ok (built, m', w') ->
  exists recs,
    skinningRecords (mBones mesh) m = Ok recs /\
    forall vid v g,
      vertices built !! vid = Some v ->
      length (recordsFor vid recs) <= g < NUM_BONES_PER_VERTEX ->
      slot v g = (vec4_get (BoneIDs (indeterminate_Vertex vid)) g, float_zero).
Proof.
  intros H.
  destruct (processMesh_slots _ _ _ _ _ _ H) as (recs & Hrecs & Hslots).
  exists recs. split; [done|]. intros vid v g Hv [Hfrom Hg].
  pose proof (slots_lookup v g Hg) as Hlook.
  rewrite (Hslots _ _ Hv) in Hlook.
  rewrite (fold_store_first_empty_beyond _ _ 0) in Hlook.
  - unfold unassigned_slots in Hlook. rewrite list_lookup_fmap in Hlook.
    unfold NUM_BONES_PER_VERTEX in Hg.
    destruct g as [|[|[|[|g]]]]; simpl in Hlook; try lia; simpl; congruence.
  - intros g' s _ Hs.
    pose proof (unassigned_slots_empty vid) as Hall.
    rewrite Forall_forall in Hall. apply Hall. by eapply list_elem_of_lookup_2.
  - simpl. exact Hfrom.
Qed.

End SlotInvariant.

(** *** The bone registry *)

Section Registry.
Context {glm : GLM} {assimp : AssimpMath} {platform : Platform}.

(** Induction on the node tree. *)
Lemma aiNode_induction (P : aiNode -> Prop) :
  (forall name t ms cs, Forall P cs -> P (AiNode name t ms cs)) ->
  forall node, P node.
Proof.
  intros Hnode. fix IH 1. intros [name t ms cs]. apply Hnode.
  induction cs as [|c cs IHcs]; constructor; [apply IH | exact IHcs].
Qed.

Lemma registerBone_Ok (bone : aiBone) (m m' : Model) (boneIndex : N) :
  registerBone bone m = Ok (boneIndex, m') ->
  scene m' = scene m /\
  registry m' = bindName (registry m) (bone_mName bone) /\
  boneMapping m' !! bone_mName bone = Some boneIndex /\
  (boneMapping m !! bone_mName bone = None -> boneIndex = bonesCount m) /\
  (forall name i, boneMapping m !! name = Some i -> boneMapping m' !! name = Some i).
Proof.
  unfold registerBone, registry, bindName. simpl.
  destruct (boneMapping m !! bone_mName bone) as [i|] eqn:E; intros H.
  - simplify_eq. repeat split; try done.
  - inv_bind H. simplify_eq. simpl. repeat split; try done.
    + apply lookup_insert_eq.
    + intros name i Hi. rewrite lookup_insert_ne; [done|]. congruence.
Qed.

(** Binding a name a second time returns the same index and changes
    nothing. *)
Lemma registerBone_again (bone : aiBone) (m m' : Model) (boneIndex : N) :
  registerBone bone m = Ok (boneIndex, m') ->
  registerBone bone m' = Ok (boneIndex, m').
Proof.
  intros H. destruct (registerBone_Ok _ _ _ _ H) as (_ & _ & Hidx & _).
  unfold registerBone. by rewrite Hidx.
Qed.

Lemma processBones_registry (bones : list aiBone) (m m' : Model) (vs vs' : list Vertex) :
  processBones bones m vs = Ok (m', vs') ->
  scene m' = scene m /\
  registry m' = fold_left bindName (map bone_mName bones) (registry m).
Proof.
  unfold processBones. revert m vs.
  induction bones as [|bone rest IH]; intros m vs H; simpl in H.
  - by simplify_eq.
  - inv_bind H. destruct a as [m1 vs1]. unfold processBone in H_l.
    inv_bind H_l. destruct a as [boneIndex m1']. inv_bind H_l_r. simplify_eq.
    destruct (registerBone_Ok _ _ _ _ H_l_l) as (Hsc & Hreg & _).
    destruct (IH _ _ H_r) as [Hsc' Hreg']. simpl.
    rewrite Hsc', Hreg', Hsc, Hreg. done.
Qed.

Lemma loadMaterialTexture_registry (typeName str : string)
    (st st' : list Texture * Model * World) :
  loadMaterialTexture typeName st str = st' ->
  scene st'.1.2 = scene st.1.2 /\ registry st'.1.2 = registry st.1.2.
Proof.
  destruct st as [[ts m] w]. unfold loadMaterialTexture.
  destruct (find_loaded (loadedTextures m) str).
  - by intros <-.
  - destruct (TextureFromFile str (directory m) w) as [id w1]. by intros <-.
Qed.

Lemma loadMaterialTextures_registry (mat : aiMaterial) (type : aiTextureType)
    (typeName : string) (m m' : Model) (w w' : World) (ts : list Texture) :
  loadMaterialTextures mat type typeName m w = (ts, m', w') ->
  scene m' = scene m /\ registry m' = registry m.
Proof.
  unfold loadMaterialTextures.
  assert (Hfold : forall strs st st',
            fold_left (loadMaterialTexture typeName) strs st = st' ->
            scene st'.1.2 = scene st.1.2 /\ registry st'.1.2 = registry st.1.2).
  { induction strs as [|str strs IH]; intros st st' H; simpl in H.
    - by subst.
    - apply IH in H as [-> ->]. by eapply loadMaterialTexture_registry. }
  intros H. by apply Hfold in H.
Qed.

Lemma processMesh_registry (mesh : aiMesh) (m m' : Model) (w w' : World) (built : Mesh) :
  processMesh mesh m w = Ok (built, m', w') ->
  scene m' = scene m /\
  registry m' = fold_left bindName (map bone_mName (mBones mesh)) (registry m).
Proof.
  unfold processMesh. intros H.
  inv_bind H. inv_bind H_r. destruct a0 as [m1 vs].
  apply processBones_registry in H_r_l as [Hsc Hreg].
  inv_bind H_r_r. inv_bind H_r_r_r.
  destruct (loadMaterialTextures a1 aiTextureType_DIFFUSE _ m1 w) as [[t1 m2] w2] eqn:E1.
  destruct (loadMaterialTextures a1 aiTextureType_SPECULAR _ m2 w2) as [[t2 m3] w3] eqn:E2.
  destruct (loadMaterialTextures a1 aiTextureType_HEIGHT _ m3 w3) as [[t3 m4] w4] eqn:E3.
  destruct (loadMaterialTextures a1 aiTextureType_EMISSIVE _ m4 w4) as [[t4 m5] w5] eqn:E4.
  apply loadMaterialTextures_registry in E1 as [S1 R1], E2 as [S2 R2],
    E3 as [S3 R3], E4 as [S4 R4].
  injection H_r_r_r_r as <- <- <-.
  split; [congruence | by rewrite R4, R3, R2, R1].
Qed.

Lemma meshBoneNames_cons (sc : aiScene) (idx : nat) (idxs : list nat) :
  meshBoneNames sc (idx :: idxs)
  = from_option (fun mesh => map bone_mName (mBones mesh)) [] (scene_mMeshes sc !! idx)
    ++ meshBoneNames sc idxs.
Proof. done. Qed.

Lemma meshBoneNames_app (sc : aiScene) (l1 l2 : list nat) :
  meshBoneNames sc (l1 ++ l2) = meshBoneNames sc l1 ++ meshBoneNames sc l2.
Proof. unfold meshBoneNames. by rewrite map_app, concat_app. Qed.

Lemma processNodeMeshes_registry (sc : aiScene) (ms : list nat) (m m' : Model) (w w' : World) :
  scene m = Some sc ->
  foldlM processNodeMesh ms (m, w) = Ok (m', w') ->
  scene m' = Some sc /\
  registry m' = fold_left bindName (meshBoneNames sc ms) (registry m).
Proof.
  revert m w. induction ms as [|idx ms IH]; intros m w Hsc H; simpl in H.
  - by simplify_eq.
  - inv_bind H as [m1 w1]. unfold processNodeMesh in H_l.
    inv_bind H_l as sc'. unfold get_scene in H_l_l. rewrite Hsc in H_l_l.
    injection H_l_l as <-.
    inv_bind H_l_r as mesh. apply at_index_Ok in H_l_r_l.
    inv_bind H_l_r_r as [[built m2] w2]. injection H_l_r_r_r as <- <-.
    apply processMesh_registry in H_l_r_r_l as [Hsc2 Hreg2].
    destruct (IH (set_meshes (meshes m2 ++ [built]) m2) w2) as [Hsc' Hreg']; [|done|].
    { simpl. congruence. }
    split; [done|]. rewrite Hreg'. rewrite meshBoneNames_cons, H_l_r_l. simpl.
    rewrite fold_left_app. f_equal. exact Hreg2.
Qed.

Lemma processNode_registry (sc : aiScene) (node : aiNode) :
  forall m m' w w',
    scene m = Some sc ->
    processNode node (m, w) = Ok (m', w') ->
    scene m' = Some sc /\
    registry m' = fold_left bindName (meshBoneNames sc (nodeMeshIndices node)) (registry m).
Proof.
  induction node as [name t ms cs IHcs] using aiNode_induction.
  intros m m' w w' Hsc H. simpl in H.
  inv_bind H as [m1 w1].
  destruct (processNodeMeshes_registry sc ms m m1 w w1 Hsc H_l) as [Hsc1 Hreg1].
  simpl. rewrite meshBoneNames_app, fold_left_app, <- Hreg1.
  clear H_l Hreg1 Hsc. revert m1 w1 Hsc1 H_r.
  induction cs as [|c cs IH]; intros m1 w1 Hsc1 H.
  - by simplify_eq.
  - inv_bind H as [m2 w2].
    apply Forall_cons in IHcs as [Hc Hcs].
    destruct (Hc _ _ _ _ Hsc1 H_l) as [Hsc2 Hreg2].
    destruct (IH Hcs _ _ Hsc2 H_r) as [Hsc' Hreg'].
    split; [done|]. rewrite meshBoneNames_app, fold_left_app, <- Hreg2. exact Hreg'.
Qed.

Lemma InitFromScene_registry (sc : aiScene) (m m' : Model) (w w' : World) :
  InitFromScene sc m w = Ok (m', w') ->
  scene m' = Some sc /\
  registry m' = fold_left bindName (boundNames sc) (registry m).
Proof.
  unfold InitFromScene. intros H. inv_bind H as m1.
  assert (scene m1 = Some sc /\ registry m1 = registry m) as [Hsc Hreg].
  { destruct (scene_HasAnimations sc); [|by simplify_eq].
    inv_bind H_l as anim. destruct (negb _); by simplify_eq. }
  destruct (processNode_registry sc _ _ _ _ _ Hsc H_r) as [Hsc' Hreg'].
  split; [done|]. unfold boundNames. by rewrite <- Hreg.
Qed.

End Registry.

Section Binding.
Context {glm : GLM} {assimp : AssimpMath} {platform : Platform}.

Lemma see_length (acc : list string) (name : string) :
  length acc <= length (see acc name).
Proof. unfold see. case_bool_decide; [done|]. rewrite length_app. lia. Qed.

Lemma fold_see_length (names acc : list string) :
  length acc <= length (fold_left see names acc).
Proof.
  revert acc. induction names as [|name names IH]; intros acc; simpl; [done|].
  etrans; [apply see_length | apply IH].
Qed.

Lemma fold_see_elem (names acc : list string) (x : string) :
  x ∈ fold_left see names acc <-> x ∈ acc \/ x ∈ names.
Proof.
  revert acc. induction names as [|name names IH]; intros acc; simpl.
  - rewrite elem_of_nil. tauto.
  - rewrite IH, elem_of_cons. unfold see. case_bool_decide.
    + split; [tauto|]. intros [?|[->|?]]; tauto.
    + rewrite elem_of_app, list_elem_of_singleton. tauto.
Qed.

Lemma fold_see_NoDup (names acc : list string) :
  NoDup acc -> NoDup (fold_left see names acc).
Proof.
  revert acc. induction names as [|name names IH]; intros acc Hacc; simpl; [done|].
  apply IH. unfold see. case_bool_decide; [done|].
  apply NoDup_app. split; [done|]. split; [|apply NoDup_singleton].
  intros x Hx Hx'. apply list_elem_of_singleton in Hx'. by subst.
Qed.

(** The distinct names, counted. *)
Lemma first_seen_size (names : list string) :
  length (first_seen names) = size (list_to_set (C := gset string) names).
Proof.
  assert (Heq : list_to_set (C := gset string) names = list_to_set (first_seen names)).
  { apply set_eq. intros x. rewrite !elem_of_list_to_set.
    unfold first_seen. rewrite fold_see_elem, elem_of_nil. tauto. }
  rewrite Heq. symmetry. apply size_list_to_set.
  apply (fold_see_NoDup names []). constructor.
Qed.

Lemma binds_elem (st : N * gmap string N) (seen : list string) (name : string) :
  binds st seen -> (name ∈ seen <-> is_Some (st.2 !! name)).
Proof.
  intros [_ Hmap]. split.
  - intros Hin. apply list_elem_of_lookup in Hin as [k Hk].
    exists (N.of_nat k). apply Hmap. by rewrite Nat2N.id.
  - intros [i Hi]. apply Hmap in Hi. by eapply list_elem_of_lookup_2.
Qed.

Lemma bindName_binds (st : N * gmap string N) (seen : list string) (name : string) :
  binds st seen ->
  (N.of_nat (length (see seen name)) < 2 ^ 32)%N ->
  binds (bindName st name) (see seen name).
Proof.
  intros Hb Hroom. pose proof (binds_elem st seen name Hb) as Helem.
  destruct Hb as [Hcount Hmap]. unfold bindName, see in *.
  case_bool_decide as Hin.
  - apply Helem in Hin as [i Hi]. rewrite Hi. by split.
  - destruct (st.2 !! name) as [i|] eqn:E.
    { exfalso. apply Hin, Helem. eauto. }
    rewrite length_app in Hroom. simpl in Hroom.
    split; simpl.
    + rewrite Hcount, length_app. simpl. unfold uint_wrap.
      rewrite N.mod_small by lia. lia.
    + intros n' i. destruct (decide (n' = name)) as [->|Hne].
      * rewrite lookup_insert_eq. split.
        -- intros [= <-]. rewrite Hcount, Nat2N.id.
           rewrite lookup_app_r by lia. by rewrite Nat.sub_diag.
        -- intros Hl. f_equal.
           destruct (decide (N.to_nat i < length seen)) as [Hlt|Hge].
           ++ rewrite lookup_app_l in Hl by done.
              exfalso. apply Hin. by eapply list_elem_of_lookup_2.
           ++ apply lookup_lt_Some in Hl. rewrite length_app in Hl. simpl in Hl.
              rewrite Hcount. lia.
      * rewrite lookup_insert_ne by done. rewrite Hmap. split.
        -- intros Hl. rewrite lookup_app_l; [done|]. by eapply lookup_lt_Some.
        -- intros Hl. destruct (decide (N.to_nat i < length seen)) as [Hlt|Hge].
           ++ by rewrite lookup_app_l in Hl.
           ++ rewrite lookup_app_r in Hl by lia.
              destruct (N.to_nat i - length seen) as [|k]; simpl in Hl; [congruence|].
              by rewrite lookup_nil in Hl.
Qed.

Lemma fold_bindName_binds (names : list string) (st : N * gmap string N) (seen : list string) :
  binds st seen ->
  (N.of_nat (length (fold_left see names seen)) < 2 ^ 32)%N ->
  binds (fold_left bindName names st) (fold_left see names seen).
Proof.
  revert st seen. induction names as [|name names IH]; intros st seen Hb Hroom; simpl in *.
  - done.
  - apply IH; [|done]. apply bindName_binds; [done|].
    pose proof (fold_see_length names (see seen name)). lia.
Qed.

(** Binding cannot fault while the bone count does not exceed the number
    of bone matrices, and it keeps it so (also across the wrap of the
    counter). *)
Lemma registerBone_total (bone : aiBone) (m : Model) :
  N.to_nat (bonesCount m) <= length (boneMatrices m) ->
  exists boneIndex m',
    registerBone bone m = Ok (boneIndex, m') /\
    N.to_nat (bonesCount m') <= length (boneMatrices m').
Proof.
  intros Hle. unfold registerBone.
  destruct (boneMapping m !! bone_mName bone) as [i|]; [by eauto|].
  destruct (lookup_lt_is_Some_2 (boneMatrices m ++ [BoneMatrix_new])
              (N.to_nat (bonesCount m))) as [b Hb].
  { rewrite length_app. simpl. lia. }
  unfold at_index. rewrite Hb. simpl. eexists _, _. split; [reflexivity|].
  simpl. rewrite length_insert, length_app. simpl.
  unfold uint_wrap.
  pose proof (N.Div0.mod_le (bonesCount m + 1) (2 ^ 32)). lia.
Qed.

(** C3.  Binding a bone name returns the index the name table holds for
    it afterwards; binding the same name again returns that index and
    leaves the model as it is, and no other name's index changes; a name
    not yet in the table gets the current bone count as its index.
    Binding returns normally whenever the bone count does not exceed the
    number of bone matrices, as in a new model, and keeps it so.  After
    a scene has been loaded into a model whose registry was empty, and as
    long as the distinct names are fewer than [2^32], the bone count is the
    number of distinct names bound, and the name table maps the [i]-th
    distinct name, in order of first binding and counting from 0, to
    index [i]. *)
Theorem bone_binding_idempotent :
  (forall bone m boneIndex m',
     registerBone bone m = Ok (boneIndex, m') ->
     boneMapping m' !! bone_mName bone = Some boneIndex /\
     registerBone bone m' = Ok (boneIndex, m') /\
     (forall name i, boneMapping m !! name = Some i -> boneMapping m' !! name = Some i) /\
     (boneMapping m !! bone_mName bone = None -> boneIndex = bonesCount m)) /\
  (forall bone m,
     N.to_nat (bonesCount m) <= length (boneMatrices m) ->
     exists boneIndex m',
       registerBone bone m = Ok (boneIndex, m') /\
       N.to_nat (bonesCount m') <= length (boneMatrices m')) /\
  (forall sc m w m' w',
     bonesCount m = 0%N ->
     boneMapping m = ∅ ->
     InitFromScene sc m w = Ok (m', w') ->
     (N.of_nat (size (list_to_set (C := gset string) (boundNames sc))) < 2 ^ 32)%N ->
     bonesCount m' = N.of_nat (size (list_to_set (C := gset string) (boundNames sc))) /\
     length (first_seen (boundNames sc))
       = size (list_to_set (C := gset string) (boundNames sc)) /\
     forall name i,
       boneMapping m' !! name = Some i <->
       first_seen (boundNames sc) !! N.to_nat i = Some name).
Proof.
  split.
  - intros bone m boneIndex m' H.
    destruct (registerBone_Ok _ _ _ _ H) as (_ & _ & Hidx & Hnew & Hold).
    repeat split; try done. by eapply registerBone_again.
  - split; [exact registerBone_total|].
    intros sc m w m' w' Hcount Hmap H Hroom.
    destruct (InitFromScene_registry _ _ _ _ _ H) as [_ Hreg].
    rewrite <- first_seen_size in Hroom |- *.
    assert (Hb : binds (registry m') (first_seen (boundNames sc))).
    { rewrite Hreg. apply (fold_bindName_binds (boundNames sc) (registry m) []); [|done].
      unfold registry. rewrite Hcount, Hmap. split; [done|].
      intros name i. simpl. rewrite lookup_empty, lookup_nil. done. }
    destruct Hb as [Hc Hm]. repeat split; try done; by apply Hm.
Qed.

End Binding.

(** *** Textures *)

Section Textures.
Context {glm : GLM} {assimp : AssimpMath} {platform : Platform}.

Lemma find_loaded_Path (loaded : list Texture) (str : string) (t : Texture) :
  find_loaded loaded str = Some t -> Path t = str.
Proof.
  unfold find_loaded. intros H. apply find_some in H as [_ H].
  by apply bool_decide_eq_true in H.
Qed.




End Textures.

(** *** Evaluation: what it writes *)

Section Frame.
Context {glm : GLM} {assimp : AssimpMath} {platform : Platform}.

Lemma finals_only_refl (m : Model) : finals_only m m.
Proof. split; [by destruct m | done]. Qed.

Lemma finals_only_trans (m1 m2 m3 : Model) :
  finals_only m1 m2 -> finals_only m2 m3 -> finals_only m1 m3.
Proof.
  intros [H12 O12] [H23 O23]. split; [|congruence].
  rewrite H23 at 1. rewrite H12. done.
Qed.

Lemma writeFinalTransformation_finals_only (nodeName : string) (G : mat4) (m m' : Model) :
  writeFinalTransformation nodeName G m = Ok m' -> finals_only m m'.
Proof.
  unfold writeFinalTransformation.
  destruct (boneMapping m !! nodeName) as [boneIndex|]; intros H.
  - inv_bind H as b. apply at_index_Ok in H_l. injection H_r as <-.
    split; [done|]. simpl.
    rewrite list_fmap_insert. simpl. by rewrite list_insert_id by (by rewrite list_lookup_fmap, H_l).
  - injection H as <-. apply finals_only_refl.
Qed.

Lemma readNodeHeirarchy_finals_only (animationTime : float) (node : aiNode) :
  forall parentTransform m m',
    readNodeHeirarchy animationTime node parentTransform m = Ok m' -> finals_only m m'.
Proof.
  induction node as [name t ms cs IHcs] using aiNode_induction.
  intros P m m' H. simpl in H.
  inv_bind H as sc. inv_bind H_r as animation. inv_bind H_r_r as local.
  inv_bind H_r_r_r as m1.
  apply writeFinalTransformation_finals_only in H_r_r_r_l.
  eapply finals_only_trans; [exact H_r_r_r_l|].
  clear H_r_r_r_l H_l H_r_l H_r_r_l.
  revert m1 H_r_r_r_r. generalize (mat4_mul P local). intros G.
  induction cs as [|c cs IH]; intros m1 H.
  - injection H as <-. apply finals_only_refl.
  - inv_bind H as m2. apply Forall_cons in IHcs as [Hc Hcs].
    eapply finals_only_trans; [by eapply Hc | by apply IH].
Qed.

Lemma last_at_index {A : Type} (l : list A) (a : A) :
  at_index l (length l - 1) = Ok a <-> last l = Some a.
Proof.
  rewrite at_index_Ok, last_lookup.
  by replace (length l - 1) with (pred (length l)) by lia.
Qed.

(** [boneTransform], step by step. *)
Lemma boneTransform_Ok (timeInSeconds : float) (m m' : Model) (transforms : list mat4) :
  boneTransform timeInSeconds m = Ok (transforms, m') ->
  exists sc animation channel0 lastKey,
    scene m = Some sc /\
    mAnimations sc !! N.to_nat (currentAnimation m) = Some animation /\
    mChannels animation !! 0 = Some channel0 /\
    last (mPositionKeys channel0) = Some lastKey /\
    readNodeHeirarchy
      (wrapTime (fmul timeInSeconds (clipTicksPerSecond animation)) (vk_mTime lastKey))
      (mRootNode sc) (mat4_diag float_one)
      (set_animDuration (vk_mTime lastKey) m) = Ok m' /\
    mapM (fun i => b ← at_index (boneMatrices m') i; Ok (FinalTransformation b))
         (seq 0 (N.to_nat (bonesCount m'))) = Ok transforms.
Proof.
  unfold boneTransform, get_scene. intros H.
  destruct (scene m) as [sc|] eqn:Hsc; [|discriminate]. simpl in H.
  inv_bind H as animation. apply at_index_Ok in H_l.
  inv_bind H_r as channel0. apply at_index_Ok in H_r_l.
  inv_bind H_r_r as lastKey. apply last_at_index in H_r_r_l.
  inv_bind H_r_r_r as m1. inv_bind H_r_r_r_r as ts. injection H_r_r_r_r_r as <- <-.
  exists sc, animation, channel0, lastKey. repeat split; done.
Qed.

(** C5, as the code has it.  A call of [boneTransform] that returns has
    changed two things in the model: [animDuration], which it sets to the
    time stamp of the last position key of channel 0 of the current clip,
    and the [FinalTransformation] members of the bone matrices.  The
    scene, directory, meshes, texture cache, inverse root transform,
    ticks-per-second member, current clip index, bone count, name table,
    number of bone matrices and all bone offsets are as before. *)
Theorem boneTransform_frame (timeInSeconds : float) (m m' : Model) (transforms : list mat4) :
  boneTransform timeInSeconds m = Ok (transforms, m') ->
  (exists sc animation channel0 lastKey,
     scene m = Some sc /\
     mAnimations sc !! N.to_nat (currentAnimation m) = Some animation /\
     mChannels animation !! 0 = Some channel0 /\
     last (mPositionKeys channel0) = Some lastKey /\
     animDuration m' = vk_mTime lastKey /\
     finals_only (set_animDuration (vk_mTime lastKey) m) m') /\
  scene m' = scene m /\
  directory m' = directory m /\
  meshes m' = meshes m /\
  loadedTextures m' = loadedTextures m /\
  globalInverseTransform m' = globalInverseTransform m /\
  ticksPerSecond m' = ticksPerSecond m /\
  currentAnimation m' = currentAnimation m /\
  bonesCount m' = bonesCount m /\
  boneMapping m' = boneMapping m /\
  map BoneOffset (boneMatrices m') = map BoneOffset (boneMatrices m).
Proof.
  intros H.
  destruct (boneTransform_Ok _ _ _ _ H)
    as (sc & animation & channel0 & lastKey & Hsc & Hanim & Hch & Hlast & Hread & _).
  apply readNodeHeirarchy_finals_only in Hread.
  assert (Hd : animDuration m' = vk_mTime lastKey).
  { destruct Hread as [-> _]. done. }
  split.
  - exists sc, animation, channel0, lastKey. repeat (split; [done|]). exact Hread.
  - destruct Hread as [-> Hoff]. simpl. repeat split; done.
Qed.

End Frame.

(** *** Floating point: digits, rounding, order and remainder *)

(** The Standard Library gives the operations of IEEE-754 as functions
    on mantissas and exponents; what follows are the facts about them
    the animation time needs. *)

Section Digits.
Local Open Scope Z_scope.

(** A positive number with [d] binary digits lies in [[2^(d-1), 2^d)],
    and [d] is the only such number. *)
Lemma digits2_pos_bounds (p : positive) :
  2 ^ (Zpos (digits2_pos p) - 1) <= Zpos p < 2 ^ Zpos (digits2_pos p).
Proof.
  induction p as [p IH|p IH|]; simpl digits2_pos.
  - rewrite Pos2Z.inj_succ, Z.pow_succ_r by lia.
    replace (Z.succ (Zpos (digits2_pos p)) - 1) with (Z.succ (Zpos (digits2_pos p) - 1)) by lia.
    rewrite Z.pow_succ_r by lia. rewrite (Pos2Z.inj_xI p). lia.
  - rewrite Pos2Z.inj_succ, Z.pow_succ_r by lia.
    replace (Z.succ (Zpos (digits2_pos p)) - 1) with (Z.succ (Zpos (digits2_pos p) - 1)) by lia.
    rewrite Z.pow_succ_r by lia. rewrite (Pos2Z.inj_xO p). lia.
  - simpl. lia.
Qed.

Lemma digits2_pos_unique (p : positive) (k : Z) :
  2 ^ (k - 1) <= Zpos p < 2 ^ k -> Zpos (digits2_pos p) = k.
Proof.
  intros [Hlo Hhi]. pose proof (digits2_pos_bounds p) as [Dlo Dhi].
  destruct (Z.lt_trichotomy (Zpos (digits2_pos p)) k) as [Hlt|[Heq|Hgt]]; [|done|].
  - assert (2 ^ Zpos (digits2_pos p) <= 2 ^ (k - 1)) by (apply Z.pow_le_mono_r; lia). lia.
  - assert (0 <= k \/ k < 0) as [Hk|Hk] by lia.
    + assert (2 ^ k <= 2 ^ (Zpos (digits2_pos p) - 1)) by (apply Z.pow_le_mono_r; lia). lia.
    + rewrite (Z.pow_neg_r 2 k) in Hhi by lia. lia.
Qed.


Lemma iter_xO_digits (m k : positive) :
  Zpos (digits2_pos (Pos.iter xO m k)) = Zpos (digits2_pos m) + Zpos k.
Proof.
  induction k as [|k IH] using Pos.peano_ind.
  - simpl. lia.
  - rewrite Pos.iter_succ. simpl digits2_pos. rewrite Pos2Z.inj_succ, IH. lia.
Qed.

Lemma Zdigits2_bounds (m : Z) :
  0 < m -> 2 ^ (Zdigits2 m - 1) <= m < 2 ^ Zdigits2 m.
Proof. destruct m as [|p|p]; try lia. intros _. apply digits2_pos_bounds. Qed.

Lemma Zdigits2_unique (m k : Z) :
  0 < m -> 2 ^ (k - 1) <= m < 2 ^ k -> Zdigits2 m = k.
Proof. destruct m as [|p|p]; try lia. intros _. apply digits2_pos_unique. Qed.

Lemma Zdigits2_pos (m : Z) : 0 < m -> 0 < Zdigits2 m.
Proof. destruct m as [|p|p]; simpl; lia. Qed.

(** The digits of a quotient by a power of two. *)
Lemma Zdigits2_div_pow2 (m n : Z) :
  0 < m -> 0 <= n < Zdigits2 m ->
  0 < m / 2 ^ n /\ Zdigits2 (m / 2 ^ n) = Zdigits2 m - n.
Proof.
  intros Hm Hn. pose proof (Zdigits2_bounds m Hm) as [Hlo Hhi].
  assert (Hpow : 0 < 2 ^ n) by (apply Z.pow_pos_nonneg; lia).
  assert (H1 : 2 ^ (Zdigits2 m - n - 1) <= m / 2 ^ n).
  { apply Z.div_le_lower_bound; [done|].
    rewrite <- Z.pow_add_r by lia.
    replace (n + (Zdigits2 m - n - 1)) with (Zdigits2 m - 1) by lia. done. }
  assert (H2 : m / 2 ^ n < 2 ^ (Zdigits2 m - n)).
  { apply Z.div_lt_upper_bound; [done|].
    rewrite <- Z.pow_add_r by lia.
    replace (n + (Zdigits2 m - n)) with (Zdigits2 m) by lia. done. }
  assert (H0 : 0 < 2 ^ (Zdigits2 m - n - 1)) by (apply Z.pow_pos_nonneg; lia).
  split; [lia|]. apply Zdigits2_unique; [lia|]. split; [done|done].
Qed.

Lemma Zdigits2_div_small (m n : Z) :
  0 < m -> Zdigits2 m <= n -> m / 2 ^ n = 0.
Proof.
  intros Hm Hn. pose proof (Zdigits2_bounds m Hm) as [_ Hhi].
  pose proof (Zdigits2_pos m Hm).
  apply Z.div_small. split; [lia|].
  assert (2 ^ Zdigits2 m <= 2 ^ n) by (apply Z.pow_le_mono_r; lia). lia.
Qed.

(** One more than a number has as many digits, or is the next power of
    two. *)
Lemma Zdigits2_succ (m : Z) :
  0 < m ->
  Zdigits2 (m + 1) = Zdigits2 m \/
  (m + 1 = 2 ^ Zdigits2 m /\ Zdigits2 (m + 1) = Zdigits2 m + 1).
Proof.
  intros Hm. pose proof (Zdigits2_bounds m Hm) as [Hlo Hhi].
  pose proof (Zdigits2_pos m Hm).
  destruct (Z.eq_dec (m + 1) (2 ^ Zdigits2 m)) as [Heq|Hne].
  - right. split; [done|]. apply Zdigits2_unique; [lia|].
    replace (Zdigits2 m + 1 - 1) with (Zdigits2 m) by lia.
    rewrite Z.pow_add_r by lia. change (2 ^ 1) with 2. lia.
  - left. apply Zdigits2_unique; [lia|]. lia.
Qed.

Lemma Zdigits2_pow2 (k : Z) : 0 <= k -> Zdigits2 (2 ^ k) = k + 1.
Proof.
  intros Hk. assert (0 < 2 ^ k) by (apply Z.pow_pos_nonneg; lia).
  apply Zdigits2_unique; [done|].
  replace (k + 1 - 1) with k by lia.
  rewrite Z.pow_add_r by lia. change (2 ^ 1) with 2. lia.
Qed.


End Digits.

Section Format.
Local Open Scope Z_scope.
Variables prec emax : Z.
Hypothesis Hprec : 0 < prec.
Hypothesis Hemax : prec < emax.

(** A mantissa and exponent are of the format when the exponent is the
    one the format gives to a number of that magnitude and is not too
    large. *)
Lemma bounded_spec (m : positive) (e : Z) :
  bounded prec emax m e = true <->
  fexp prec emax (Zpos (digits2_pos m) + e) = e /\ e <= emax - prec.
Proof.
  unfold bounded, canonical_mantissa.
  rewrite andb_true_iff, Z.eqb_eq, Z.leb_le. done.
Qed.








(** *** Results of rounding are numbers of the format *)

(** The mantissa after a shift to the right is the quotient by the power
    of two. *)
Lemma shr_1_m (mrs : shr_record) :
  0 <= shr_m mrs -> shr_m (shr_1 mrs) = shr_m mrs / 2.
Proof.
  destruct mrs as [m r s]. cbn [shr_m]. intros Hm.
  destruct m as [|p|p]; [done| |lia].
  destruct p as [p|p|]; cbn [shr_1 shr_m].
  - rewrite (Pos2Z.inj_xI p). apply (Z.div_unique _ 2 (Zpos p) 1); lia.
  - rewrite (Pos2Z.inj_xO p). apply (Z.div_unique _ 2 (Zpos p) 0); lia.
  - reflexivity.
Qed.

Lemma iter_shr_1_m (n : positive) :
  forall mrs, 0 <= shr_m mrs ->
    shr_m (SpecFloat.iter_pos shr_1 n mrs) = shr_m mrs / 2 ^ Zpos n.
Proof.
  induction n as [n IH|n IH|]; intros mrs Hm; cbn [SpecFloat.iter_pos].
  - assert (Hp : 0 < 2 ^ Zpos n) by (apply Z.pow_pos_nonneg; lia).
    assert (H1 : 0 <= shr_m (shr_1 mrs)) by (rewrite shr_1_m by done; apply Z.div_pos; lia).
    assert (H2 : 0 <= shr_m (SpecFloat.iter_pos shr_1 n (shr_1 mrs)))
      by (rewrite IH by done; apply Z.div_pos; lia).
    rewrite IH, IH, shr_1_m by done.
    rewrite !Z.div_div by lia. f_equal.
    rewrite (Pos2Z.inj_xI n).
    replace (2 * Zpos n + 1) with (1 + Zpos n + Zpos n) by lia.
    rewrite !Z.pow_add_r by lia. change (2 ^ 1) with 2. ring.
  - assert (Hp : 0 < 2 ^ Zpos n) by (apply Z.pow_pos_nonneg; lia).
    assert (H2 : 0 <= shr_m (SpecFloat.iter_pos shr_1 n mrs))
      by (rewrite IH by done; apply Z.div_pos; lia).
    rewrite IH, IH by done.
    rewrite !Z.div_div by lia. f_equal.
    rewrite (Pos2Z.inj_xO n).
    replace (2 * Zpos n) with (Zpos n + Zpos n) by lia.
    rewrite !Z.pow_add_r by lia. ring.
  - rewrite shr_1_m by done. reflexivity.
Qed.

Lemma shr_fexp_spec (m e : Z) (l : location) :
  0 <= m ->
  shr_m (fst (shr_fexp prec emax m e l))
  = m / 2 ^ Z.max 0 (fexp prec emax (Zdigits2 m + e) - e) /\
  snd (shr_fexp prec emax m e l) = e + Z.max 0 (fexp prec emax (Zdigits2 m + e) - e).
Proof.
  intros Hm. unfold shr_fexp, shr.
  assert (Hrec : shr_m (shr_record_of_loc m l) = m) by (destruct l as [|[]]; reflexivity).
  destruct (fexp prec emax (Zdigits2 m + e) - e) as [|p|p] eqn:E; cbn [fst snd].
  - rewrite Hrec. change (Z.max 0 0) with 0. change (2 ^ 0) with 1. rewrite Z.div_1_r. lia.
  - rewrite iter_shr_1_m by (rewrite Hrec; done). rewrite Hrec.
    rewrite Z.max_r by lia. split; [done | lia].
  - rewrite Z.max_l by lia. change (2 ^ 0) with 1. rewrite Hrec, Z.div_1_r. lia.
Qed.

Lemma round_nearest_even_cases (m : Z) (l : location) :
  round_nearest_even m l = m \/ round_nearest_even m l = m + 1.
Proof. destruct l as [|[]]; simpl; auto. destruct (Z.even m); auto. Qed.

(** Rounding a mantissa with at least as many digits as the format keeps
    gives zero, an infinity or a number of the format. *)
Lemma binary_round_aux_valid (s : bool) (mx : positive) (ex : Z) (lx : location) :
  ex <= fexp prec emax (Zpos (digits2_pos mx) + ex) ->
  valid_binary prec emax (binary_round_aux prec emax s (Zpos mx) ex lx) = true.
Proof.
  intros Hpre. unfold binary_round_aux.
  pose proof (shr_fexp_spec (Zpos mx) ex lx ltac:(lia)) as [Hm1 He1].
  destruct (shr_fexp prec emax (Zpos mx) ex lx) as [mrs1 e1]. cbn [fst snd] in Hm1, He1.
  cbn [Zdigits2] in Hm1, He1.
  set (D := Zpos (digits2_pos mx)) in *.
  assert (HD : Zdigits2 (Zpos mx) = D) by reflexivity.
  set (n := Z.max 0 (fexp prec emax (D + ex) - ex)) in *.
  assert (Hn : n = fexp prec emax (D + ex) - ex) by lia.
  set (m2 := round_nearest_even (shr_m mrs1) (loc_of_shr_record mrs1)).
  assert (Hm2 : m2 = shr_m mrs1 \/ m2 = shr_m mrs1 + 1) by apply round_nearest_even_cases.
  set (m1 := shr_m mrs1) in *.
  assert (HA : (m1 = 0 /\ e1 = emin prec emax) \/
               (0 < m1 /\ fexp prec emax (Zdigits2 m1 + e1) = e1)).
  { destruct (Z.lt_ge_cases n D) as [Hlt|Hge].
    - right. destruct (Zdigits2_div_pow2 (Zpos mx) n ltac:(lia) ltac:(rewrite HD; lia))
        as [Hpos Hdig].
      rewrite <- Hm1 in Hpos, Hdig. split; [done|]. rewrite Hdig, HD, He1.
      replace (D - n + (ex + n)) with (D + ex) by lia. lia.
    - left. split.
      + rewrite Hm1. apply Zdigits2_div_small; [lia | by rewrite HD].
      + rewrite He1. unfold fexp in *. lia. }
  assert (H0m2 : 0 <= m2) by lia.
  pose proof (shr_fexp_spec m2 e1 loc_Exact H0m2) as [Hm3 He3].
  destruct (shr_fexp prec emax m2 e1 loc_Exact) as [mrs2 e2]. cbn [fst snd] in Hm3, He3.
  assert (HB : shr_m mrs2 = 0 \/
               (0 < shr_m mrs2 /\ fexp prec emax (Zdigits2 (shr_m mrs2) + e2) = e2)).
  { assert (Hsame : 0 < m2 -> fexp prec emax (Zdigits2 m2 + e1) = e1 ->
                    0 < shr_m mrs2 /\ fexp prec emax (Zdigits2 (shr_m mrs2) + e2) = e2).
    { intros Hpos Hc. rewrite Hc, Z.sub_diag in Hm3, He3.
      change (Z.max 0 0) with 0 in Hm3, He3. change (2 ^ 0) with 1 in Hm3.
      rewrite Z.div_1_r in Hm3. rewrite Hm3. replace e2 with e1 by lia. done. }
    destruct (Z.eq_dec m2 0) as [Hz|Hnz].
    { left. rewrite Hm3, Hz. apply Z.div_0_l.
      apply Z.pow_nonzero; lia. }
    right. destruct Hm2 as [Hm2|Hm2].
    - destruct HA as [[Hz _]|[Hpos Hc]]; [lia|].
      apply Hsame; [lia | by rewrite Hm2].
    - destruct HA as [[Hz He]|[Hpos Hc]].
      + apply Hsame; [lia|]. rewrite Hm2, Hz. change (Zdigits2 (0 + 1)) with 1.
        rewrite He. unfold fexp, emin. lia.
      + destruct (Zdigits2_succ m1 Hpos) as [Hd|[Hpow Hd]].
        * apply Hsame; [lia|]. by rewrite Hm2, Hd.
        * pose proof (Zdigits2_pos m1 Hpos) as Hd1.
          assert (Hstep : fexp prec emax (Zdigits2 m2 + e1) = e1 \/
                          fexp prec emax (Zdigits2 m2 + e1) = e1 + 1).
          { rewrite Hm2, Hd. unfold fexp in *. lia. }
          destruct Hstep as [Hc2|Hc2]; [apply Hsame; [lia | done]|].
          rewrite Hc2 in Hm3, He3.
          replace (e1 + 1 - e1) with 1 in Hm3, He3 by lia.
          change (Z.max 0 1) with 1 in Hm3, He3. change (2 ^ 1) with 2 in Hm3.
          assert (Hhalf : shr_m mrs2 = 2 ^ (Zdigits2 m1 - 1)).
          { rewrite Hm3, Hm2, Hpow. symmetry.
            apply (Z.div_unique _ 2 _ 0); [lia|].
            replace (Zdigits2 m1) with (Z.succ (Zdigits2 m1 - 1)) at 1 by lia.
            rewrite Z.pow_succ_r by lia. lia. }
          rewrite Hhalf. split; [apply Z.pow_pos_nonneg; lia|].
          rewrite Zdigits2_pow2 by lia. rewrite He3.
          replace (Zdigits2 m1 - 1 + 1 + (e1 + 1)) with (Zdigits2 m2 + e1)
            by (rewrite Hm2, Hd; lia).
          done. }
  destruct (shr_m mrs2) as [|m3|m3]; [done| |done].
  destruct (e2 <=? emax - prec) eqn:Ele; [|done].
  cbn [valid_binary]. apply bounded_spec. split; [|by apply Z.leb_le].
  destruct HB as [HB|[_ HB]]; [done | exact HB].
Qed.

Lemma binary_round_valid (s : bool) (m : positive) (e : Z) :
  valid_binary prec emax (binary_round prec emax s m e) = true.
Proof.
  unfold binary_round, shl_align.
  destruct (fexp prec emax (Zpos (digits2_pos m) + e) - e) as [|d|d] eqn:E.
  - apply binary_round_aux_valid. lia.
  - apply binary_round_aux_valid. lia.
  - apply binary_round_aux_valid. rewrite iter_xO_digits.
    replace (Zpos (digits2_pos m) + Zpos d + fexp prec emax (Zpos (digits2_pos m) + e))
      with (Zpos (digits2_pos m) + e) by lia.
    lia.
Qed.


(** *** Signs *)





(** *** Order *)



End Format.

Section Remainder.
Local Open Scope Z_scope.
Variables prec emax : Z.
Hypothesis Hprec : 0 < prec.
Hypothesis Hemax : prec < emax.



End Remainder.

(** *** The two formats of the program *)

Section Formats.
Local Open Scope Z_scope.


Lemma to_double_valid (x : float) : valid_double (to_double x).
Proof.
  unfold valid_double, to_double. destruct (f32 x) as [s|s| |s m e]; try done.
  cbn [f64]. apply binary_round_valid; done.
Qed.





End Formats.

(** *** Evaluation: the time it samples at *)

Section AnimationTime.
Context {glm : GLM} {assimp : AssimpMath} {platform : Platform}.

(** A call of [boneTransform] that returns: where its duration comes from
    and at which time it samples. *)
Lemma boneTransform_sampled (timeInSeconds : float) (m m' : Model) (transforms : list mat4) :
  boneTransform timeInSeconds m = Ok (transforms, m') ->
  exists sc animation channel0 lastKey,
    scene m = Some sc /\
    mAnimations sc !! N.to_nat (currentAnimation m) = Some animation /\
    mChannels animation !! 0 = Some channel0 /\
    last (mPositionKeys channel0) = Some lastKey /\
    animDuration m' = vk_mTime lastKey /\
    readNodeHeirarchy
      (wrapTime (fmul timeInSeconds (clipTicksPerSecond animation)) (vk_mTime lastKey))
      (mRootNode sc) (mat4_diag float_one)
      (set_animDuration (vk_mTime lastKey) m) = Ok m'.
Proof.
  intros H.
  destruct (boneTransform_Ok _ _ _ _ H)
    as (sc & animation & channel0 & lastKey & Hsc & Hanim & Hch & Hlast & Hread & _).
  exists sc, animation, channel0, lastKey. repeat split; try done.
  apply readNodeHeirarchy_finals_only in Hread as [-> _]. done.
Qed.

(** C2.  A call of [boneTransform] that returns has taken its duration
    from channel 0 of the current clip alone: [animDuration] is the time
    stamp of the last position key of that channel, and the tree was
    evaluated at [fmod(timeInSeconds * ticksPerSecond, animDuration)] for
    this value, whatever the other channels and the other tracks hold. *)
Theorem effective_duration_is_channel0
    (timeInSeconds : float) (m m' : Model) (transforms : list mat4) :
  boneTransform timeInSeconds m = Ok (transforms, m') ->
  exists sc animation channel0 lastKey,
    scene m = Some sc /\
    mAnimations sc !! N.to_nat (currentAnimation m) = Some animation /\
    mChannels animation !! 0 = Some channel0 /\
    last (mPositionKeys channel0) = Some lastKey /\
    animDuration m' = vk_mTime lastKey /\
    let timeInTicks := fmul timeInSeconds (clipTicksPerSecond animation) in
    let animationTime := to_float (dfmod (to_double timeInTicks) (vk_mTime lastKey)) in
    readNodeHeirarchy animationTime (mRootNode sc) (mat4_diag float_one)
      (set_animDuration (vk_mTime lastKey) m) = Ok m'.
Proof.
  intros H.
  destruct (boneTransform_sampled _ _ _ _ H)
    as (sc & animation & channel0 & lastKey & Hsc & Hanim & Hch & Hlast & Hd & Hread).
  by exists sc, animation, channel0, lastKey.
Qed.






End AnimationTime.

(** *** The inverse root transform *)

Section InverseRoot.
Context {glm : GLM} {assimp : AssimpMath} {platform : Platform}.

Lemma registerBone_inverse (bone : aiBone) (m m' : Model) (boneIndex : N) :
  registerBone bone m = Ok (boneIndex, m') ->
  globalInverseTransform m' = globalInverseTransform m.
Proof.
  unfold registerBone.
  destruct (boneMapping m !! bone_mName bone); intros H.
  - by injection H as _ <-.
  - inv_bind H as b. by injection H_r as _ <-.
Qed.

Lemma processBones_inverse (bones : list aiBone) (m m' : Model) (vs vs' : list Vertex) :
  processBones bones m vs = Ok (m', vs') ->
  globalInverseTransform m' = globalInverseTransform m.
Proof.
  unfold processBones. revert m vs.
  induction bones as [|bone rest IH]; intros m vs H; simpl in H.
  - by injection H as <- _.
  - inv_bind H as [m1 vs1]. unfold processBone in H_l.
    inv_bind H_l as [boneIndex m1']. inv_bind H_l_r as vs1'.
    injection H_l_r_r as <- <-.
    rewrite (IH _ _ H_r). by eapply registerBone_inverse.
Qed.

Lemma loadMaterialTextures_inverse (mat : aiMaterial) (type : aiTextureType)
    (typeName : string) (m m' : Model) (w w' : World) (ts : list Texture) :
  loadMaterialTextures mat type typeName m w = (ts, m', w') ->
  globalInverseTransform m' = globalInverseTransform m.
Proof.
  unfold loadMaterialTextures.
  assert (Hfold : forall strs st st',
            fold_left (loadMaterialTexture typeName) strs st = st' ->
            globalInverseTransform st'.1.2 = globalInverseTransform st.1.2).
  { induction strs as [|str strs IH]; intros st st' H; simpl in H.
    - by subst.
    - apply IH in H as ->. destruct st as [[acc m0] w0]. unfold loadMaterialTexture.
      destruct (find_loaded (loadedTextures m0) str); [done|].
      by destruct (TextureFromFile str (directory m0) w0). }
  intros H. by apply Hfold in H.
Qed.

Lemma processMesh_inverse (mesh : aiMesh) (m m' : Model) (w w' : World) (built : Mesh) :
  processMesh mesh m w = Ok (built, m', w') ->
  globalInverseTransform m' = globalInverseTransform m.
Proof.
  unfold processMesh. intros H.
  inv_bind H as vs0. inv_bind H_r as [m1 vs].
  apply processBones_inverse in H_r_l.
  inv_bind H_r_r as sc. inv_bind H_r_r_r as mat.
  destruct (loadMaterialTextures mat aiTextureType_DIFFUSE _ m1 w) as [[t1 m2] w2] eqn:E1.
  destruct (loadMaterialTextures mat aiTextureType_SPECULAR _ m2 w2) as [[t2 m3] w3] eqn:E2.
  destruct (loadMaterialTextures mat aiTextureType_HEIGHT _ m3 w3) as [[t3 m4] w4] eqn:E3.
  destruct (loadMaterialTextures mat aiTextureType_EMISSIVE _ m4 w4) as [[t4 m5] w5] eqn:E4.
  apply loadMaterialTextures_inverse in E1, E2, E3, E4.
  injection H_r_r_r_r as <- <- <-. congruence.
Qed.

Lemma processNode_inverse (node : aiNode) :
  forall m m' w w',
    processNode node (m, w) = Ok (m', w') ->
    globalInverseTransform m' = globalInverseTransform m.
Proof.
  induction node as [name t ms cs IHcs] using aiNode_induction.
  intros m m' w w' H. simpl in H. inv_bind H as [m1 w1].
  assert (Hmeshes : globalInverseTransform m1 = globalInverseTransform m).
  { clear H_r. revert m w H_l.
    induction ms as [|idx ms IH]; intros m w H; simpl in H.
    - by injection H as <- _.
    - inv_bind H as [m2 w2]. rewrite (IH _ _ H_r).
      unfold processNodeMesh in H_l. inv_bind H_l as sc. inv_bind H_l_r as mesh.
      inv_bind H_l_r_r as [[built m3] w3]. injection H_l_r_r_r as <- <-.
      simpl. by eapply processMesh_inverse. }
  rewrite <- Hmeshes. clear H_l Hmeshes. revert m1 w1 H_r.
  induction cs as [|c cs IH]; intros m1 w1 H.
  - by injection H as <- _.
  - inv_bind H as [m2 w2]. apply Forall_cons in IHcs as [Hc Hcs].
    rewrite (IH Hcs _ _ H_r). by eapply Hc.
Qed.

(** The inverse of the root node's transform is computed by
    [InitFromScene] and survives the construction of the meshes. *)
Lemma InitFromScene_inverse (sc : aiScene) (m m' : Model) (w w' : World) :
  InitFromScene sc m w = Ok (m', w') ->
  globalInverseTransform m' = inverse (mat4Convert (mTransformation (mRootNode sc))).
Proof.
  unfold InitFromScene. intros H. inv_bind H as m1.
  rewrite (processNode_inverse _ _ _ _ _ H_r).
  destruct (scene_HasAnimations sc); [|by injection H_l as <-].
  inv_bind H_l as anim. destruct (negb _); by injection H_l_r as <-.
Qed.

End InverseRoot.

(** *** Evaluation: the traversal *)

Section Traversal.
Context {glm : GLM} {assimp : AssimpMath} {platform : Platform}.

Local Open Scope mat_scope.

Lemma finals_only_fields (m m' : Model) :
  finals_only m m' ->
  scene m' = scene m /\ currentAnimation m' = currentAnimation m /\
  boneMapping m' = boneMapping m /\
  globalInverseTransform m' = globalInverseTransform m.
Proof. intros [-> _]. done. Qed.

(** The local transform of a node that has a channel. *)
Lemma nodeTransformation_animated (animation : aiAnimation) (animationTime : float)
    (node : aiNode) (nodeAnim : aiNodeAnim) (local : mat4) :
  findNodeAnim animation (mName node) = Some nodeAnim ->
  nodeTransformation animation animationTime node = Ok local ->
  exists scaling rotationQ translation,
    calcInterpolatedScaling animationTime nodeAnim = Ok scaling /\
    calcInterpolatedRotation animationTime nodeAnim = Ok rotationQ /\
    calcInterpolatedPosition animationTime nodeAnim = Ok translation /\
    local = translate (mat4_diag float_one)
              (Vec3 (vx translation) (vy translation) (vz translation))
            * toMat4 (quatConvert rotationQ)
            * scale (mat4_diag float_one) (Vec3 (vx scaling) (vy scaling) (vz scaling)).
Proof.
  unfold nodeTransformation. intros -> H.
  inv_bind H as scaling. inv_bind H_r as rotationQ. inv_bind H_r_r as translation.
  injection H_r_r_r as <-. exists scaling, rotationQ, translation. done.
Qed.

(** The local transform of a node without a channel. *)
Lemma nodeTransformation_static (animation : aiAnimation) (animationTime : float)
    (node : aiNode) :
  findNodeAnim animation (mName node) = None ->
  nodeTransformation animation animationTime node = Ok (mat4Convert (mTransformation node)).
Proof. unfold nodeTransformation. by intros ->. Qed.

(** The recursion writes, in order, what the traversal of the
    specification lists. *)
Lemma readNodeHeirarchy_visits (animationTime : float) (sc : aiScene)
    (animation : aiAnimation) (node : aiNode) :
  forall parentTransform m m',
    scene m = Some sc ->
    mAnimations sc !! N.to_nat (currentAnimation m) = Some animation ->
    readNodeHeirarchy animationTime node parentTransform m = Ok m' ->
    exists visits,
      globalTransforms_spec animation animationTime node parentTransform = Ok visits /\
      foldlM writeVisit visits m = Ok m'.
Proof.
  induction node as [name t ms cs IHcs] using aiNode_induction.
  intros P m m' Hsc Hanim H. simpl in H.
  inv_bind H as sc'. unfold get_scene in H_l. rewrite Hsc in H_l. injection H_l as <-.
  inv_bind H_r as animation'. apply at_index_Ok in H_r_l.
  rewrite Hanim in H_r_l. injection H_r_l as <-.
  inv_bind H_r_r as local. inv_bind H_r_r_r as m1.
  simpl. rewrite H_r_r_l. simpl.
  pose proof (writeFinalTransformation_finals_only _ _ _ _ H_r_r_r_l) as Hfo.
  apply finals_only_fields in Hfo as (Hsc1 & Hcur1 & _ & _).
  rewrite <- Hsc1 in Hsc. rewrite <- Hcur1 in Hanim.
  assert (Hchildren : exists below,
    (fix children (cs : list aiNode) : result (list (string * mat4)) :=
       match cs with
       | [] => Ok []
       | c :: cs' =>
           first ← globalTransforms_spec animation animationTime c (P * local);
           others ← children cs';
           Ok (first ++ others)
       end) cs = Ok below /\ foldlM writeVisit below m1 = Ok m').
  { clear H_r_r_r_l H_r_r_l Hsc1 Hcur1. revert m1 Hsc Hanim H_r_r_r_r.
    induction cs as [|c cs IH]; intros m1 Hsc Hanim H.
    - injection H as <-. by exists [].
    - inv_bind H as m2. apply Forall_cons in IHcs as [Hc Hcs].
      destruct (Hc _ _ _ Hsc Hanim H_l) as (first & Hfirst & Hwrite).
      pose proof (readNodeHeirarchy_finals_only _ _ _ _ _ H_l) as Hfo.
      apply finals_only_fields in Hfo as (Hsc2 & Hcur2 & _ & _).
      rewrite <- Hsc2 in Hsc. rewrite <- Hcur2 in Hanim.
      destruct (IH Hcs _ Hsc Hanim H_r) as (others & Hothers & Hwrite').
      exists (first ++ others). rewrite Hfirst. simpl. rewrite Hothers. simpl.
      split; [done|]. rewrite foldlM_app, Hwrite. exact Hwrite'. }
  destruct Hchildren as (below & -> & Hwrite). simpl.
  eexists. split; [reflexivity|].
  unfold writeVisit in *. cbn [foldlM fst snd]. rewrite H_r_r_r_l. exact Hwrite.
Qed.

Lemma writeFinalTransformation_Ok (nodeName : string) (G : mat4) (m m' : Model) :
  writeFinalTransformation nodeName G m = Ok m' ->
  match boneMapping m !! nodeName with
  | Some boneIndex =>
      exists b, boneMatrices m !! N.to_nat boneIndex = Some b /\
        boneMatrices m'
        = <[N.to_nat boneIndex :=
              MkBoneMatrix (BoneOffset b) (globalInverseTransform m * G * BoneOffset b)]>
            (boneMatrices m)
  | None => m' = m
  end.
Proof.
  unfold writeFinalTransformation.
  destruct (boneMapping m !! nodeName) as [boneIndex|]; intros H.
  - inv_bind H as b. apply at_index_Ok in H_l. injection H_r as <-. eauto.
  - by injection H as <-.
Qed.

(** After the writes, each bone holds the value of the last visit that
    named it, and its old value if none did. *)
Lemma foldlM_writeVisit_final (visits : list (string * mat4)) :
  forall m m',
    foldlM writeVisit visits m = Ok m' ->
    forall idx b', boneMatrices m' !! idx = Some b' ->
      exists b, boneMatrices m !! idx = Some b /\
        BoneOffset b' = BoneOffset b /\
        FinalTransformation b'
        = match lastVisitOf (boneMapping m) idx visits with
          | Some v => globalInverseTransform m * v.2 * BoneOffset b
          | None => FinalTransformation b
          end.
Proof.
  induction visits as [|v visits IH]; intros m m' H idx b' Hb'; simpl in H.
  - injection H as <-. exists b'. done.
  - inv_bind H as m1. unfold writeVisit in H_l.
    pose proof (writeFinalTransformation_finals_only _ _ _ _ H_l) as Hfo.
    apply finals_only_fields in Hfo as (_ & _ & Hmap1 & Hinv1).
    destruct (IH _ _ H_r idx b' Hb') as (b1 & Hb1 & Hoff & Hfin).
    rewrite Hmap1, Hinv1 in Hfin.
    apply writeFinalTransformation_Ok in H_l.
    unfold lastVisitOf in *.
    destruct (boneMapping m !! v.1) as [boneIndex|] eqn:Emap.
    + destruct H_l as (b0 & Hb0 & Hms).
      destruct (decide (N.to_nat boneIndex = idx)) as [Heq|Hne].
      * subst idx. rewrite filter_cons_True by (by rewrite Emap).
        rewrite last_cons. rewrite Hms in Hb1.
        rewrite list_lookup_insert_eq in Hb1 by (by eapply lookup_lt_Some).
        injection Hb1 as <-. simpl in *. exists b0. split; [done|]. split; [done|].
        rewrite Hfin. by destruct (last _).
      * rewrite filter_cons_False by (rewrite Emap; simpl; congruence).
        rewrite Hms in Hb1. rewrite list_lookup_insert_ne in Hb1 by done.
        exists b1. done.
    + subst m1. rewrite filter_cons_False by (by rewrite Emap).
      exists b1. done.
Qed.

End Traversal.

Section Composition.
Context {glm : GLM} {assimp : AssimpMath} {platform : Platform}.

Local Open Scope mat_scope.

(** The array handed to the shader is the first [bonesCount] final
    transformations. *)
Lemma collect_transforms (bs : list BoneMatrix) (n k : nat) (ts : list mat4) :
  mapM (fun i => b ← at_index bs i; Ok (FinalTransformation b)) (seq k n) = Ok ts ->
  ts = map FinalTransformation (take n (drop k bs)).
Proof.
  revert k ts. induction n as [|n IH]; intros k ts H; simpl in H.
  - injection H as <-. by rewrite take_0.
  - inv_bind H as t0. inv_bind H_l as b. apply at_index_Ok in H_l_l.
    injection H_l_r as <-. inv_bind H_r as ts'. injection H_r_r as <-.
    rewrite (drop_S _ _ _ H_l_l). simpl. f_equal. by apply IH.
Qed.

(** The first visit of the traversal is the node itself, with the parent's
    transform times its local transform. *)
Lemma globalTransforms_spec_head (animation : aiAnimation) (animationTime : float)
    (node : aiNode) (parentTransform : mat4) (visits : list (string * mat4)) :
  globalTransforms_spec animation animationTime node parentTransform = Ok visits ->
  exists local below,
    nodeTransformation animation animationTime node = Ok local /\
    visits = (mName node, parentTransform * local) :: below.
Proof.
  destruct node as [name t ms cs]. simpl. intros H.
  inv_bind H as local. inv_bind H_r as below. injection H_r_r as <-. eauto.
Qed.

(** C1.  [InitFromScene] stores the inverse of the root node's transform.
    The local transform of a node that has a channel in the clip is
    [translate(T) * rotate(R) * scale(S)] for the sampled position,
    rotation and scaling, multiplied in this order.  A run of the
    recursion from a node with a parent transform visits the nodes the
    traversal of the specification lists, each with the global transform
    [parent * local], the node itself first.  For a visited node that is a
    registered bone the write leaves
    [globalInverseTransform * globalTransform * BoneOffset] in the bone's
    final transformation and the offset as it was; after the run each
    bone holds the value of the last visit that named it.  [boneTransform]
    starts the recursion at the root with the identity as parent. *)
Theorem node_transforms_compose :
  (forall sc m w m' w',
     InitFromScene sc m w = Ok (m', w') ->
     globalInverseTransform m' = inverse (mat4Convert (mTransformation (mRootNode sc)))) /\
  (forall animation animationTime node nodeAnim local,
     findNodeAnim animation (mName node) = Some nodeAnim ->
     nodeTransformation animation animationTime node = Ok local ->
     exists scaling rotationQ translation,
       calcInterpolatedScaling animationTime nodeAnim = Ok scaling /\
       calcInterpolatedRotation animationTime nodeAnim = Ok rotationQ /\
       calcInterpolatedPosition animationTime nodeAnim = Ok translation /\
       local = translate (mat4_diag float_one)
                 (Vec3 (vx translation) (vy translation) (vz translation))
               * toMat4 (quatConvert rotationQ)
               * scale (mat4_diag float_one)
                   (Vec3 (vx scaling) (vy scaling) (vz scaling))) /\
  (forall nodeName globalTransform m m' boneIndex,
     boneMapping m !! nodeName = Some boneIndex ->
     writeFinalTransformation nodeName globalTransform m = Ok m' ->
     exists b,
       boneMatrices m !! N.to_nat boneIndex = Some b /\
       boneMatrices m' !! N.to_nat boneIndex
       = Some (MkBoneMatrix (BoneOffset b)
                 (globalInverseTransform m * globalTransform * BoneOffset b))) /\
  (forall animationTime node parentTransform m m' sc animation,
     scene m = Some sc ->
     mAnimations sc !! N.to_nat (currentAnimation m) = Some animation ->
     readNodeHeirarchy animationTime node parentTransform m = Ok m' ->
     exists local below,
       nodeTransformation animation animationTime node = Ok local /\
       globalTransforms_spec animation animationTime node parentTransform
       = Ok ((mName node, parentTransform * local) :: below) /\
       foldlM writeVisit ((mName node, parentTransform * local) :: below) m = Ok m' /\
       forall idx b', boneMatrices m' !! idx = Some b' ->
         exists b, boneMatrices m !! idx = Some b /\
           BoneOffset b' = BoneOffset b /\
           FinalTransformation b'
           = match lastVisitOf (boneMapping m) idx
                     ((mName node, parentTransform * local) :: below) with
             | Some v => globalInverseTransform m * v.2 * BoneOffset b
             | None => FinalTransformation b
             end) /\
  (forall timeInSeconds m transforms m',
     boneTransform timeInSeconds m = Ok (transforms, m') ->
     exists sc animationTime,
       scene m = Some sc /\
       readNodeHeirarchy animationTime (mRootNode sc) (mat4_diag float_one)
         (set_animDuration (animDuration m') m) = Ok m' /\
       transforms
       = map FinalTransformation (take (N.to_nat (bonesCount m')) (boneMatrices m'))).
Proof.
  split; [intros; by eapply InitFromScene_inverse|].
  split; [intros; by eapply nodeTransformation_animated|].
  split; [|split].
  - intros nodeName G m m' boneIndex Hmap H.
    apply writeFinalTransformation_Ok in H. rewrite Hmap in H.
    destruct H as (b & Hb & ->). exists b. split; [done|].
    apply list_lookup_insert_eq. by eapply lookup_lt_Some.
  - intros animationTime node P m m' sc animation Hsc Hanim H.
    destruct (readNodeHeirarchy_visits _ _ _ _ _ _ _ Hsc Hanim H) as (visits & Hvisits & Hwrite).
    destruct (globalTransforms_spec_head _ _ _ _ _ Hvisits) as (local & below & Hlocal & ->).
    exists local, below. repeat split; try done.
    by apply foldlM_writeVisit_final.
  - intros timeInSeconds m transforms m' H.
    destruct (boneTransform_Ok _ _ _ _ H)
      as (sc & animation & channel0 & lastKey & Hsc & _ & _ & _ & Hread & Hts).
    exists sc. eexists. split; [done|].
    assert (Hd : animDuration m' = vk_mTime lastKey).
    { apply readNodeHeirarchy_finals_only in Hread as [-> _]. done. }
    rewrite Hd. split; [exact Hread|].
    apply collect_transforms in Hts. by rewrite drop_0 in Hts.
Qed.

End Composition.

(** *** Key-frame search and sampling *)

Section Sampling.
Context {glm : GLM} {assimp : AssimpMath} {platform : Platform}.

(** X1.  [findNodeAnim] returns the first channel of the clip whose node
    name is the given one, and nothing exactly when no channel has that
    name; channels that repeat an earlier name are never returned. *)
Theorem findNodeAnim_first_match (animation : aiAnimation) (nodeName : string) :
  (forall nodeAnim,
     findNodeAnim animation nodeName = Some nodeAnim <->
     exists i,
       mChannels animation !! i = Some nodeAnim /\
       mNodeName nodeAnim = nodeName /\
       forall j other, j < i -> mChannels animation !! j = Some other ->
         mNodeName other <> nodeName) /\
  (findNodeAnim animation nodeName = None <->
   forall nodeAnim, nodeAnim ∈ mChannels animation -> mNodeName nodeAnim <> nodeName).
Proof.
  unfold findNodeAnim. induction (mChannels animation) as [|ch chs [IHsome IHnone]]; simpl.
  - split.
    + intros nodeAnim. split; [discriminate|]. intros (i & Hi & _). by rewrite lookup_nil in Hi.
    + split; [|done]. intros _ nodeAnim Hin. by apply elem_of_nil in Hin.
  - case_bool_decide as Hname.
    + split.
      * intros nodeAnim. split.
        -- intros [= <-]. exists 0. split; [done|]. split; [done|]. intros j other Hj. lia.
        -- intros (i & Hi & Hn & Hfirst). destruct i as [|i]; [by simplify_eq/=|].
           exfalso. by apply (Hfirst 0 ch); [lia| |].
      * split; [discriminate|]. intros Hnone. exfalso.
        apply (Hnone ch); [by left | done].
    + split.
      * intros nodeAnim. rewrite IHsome. split.
        -- intros (i & Hi & Hn & Hfirst). exists (S i). split; [done|]. split; [done|].
           intros j other Hj Hother. destruct j as [|j]; simpl in Hother.
           ++ by simplify_eq.
           ++ apply (Hfirst j); [lia | done].
        -- intros (i & Hi & Hn & Hfirst). destruct i as [|i]; simpl in Hi.
           ++ simplify_eq.
           ++ exists i. split; [done|]. split; [done|].
              intros j other Hj Hother. apply (Hfirst (S j)); [lia | done].
      * rewrite IHnone. split.
        -- intros Hnone nodeAnim Hin. apply elem_of_cons in Hin as [->|Hin]; [done|].
           by apply Hnone.
        -- intros Hnone nodeAnim Hin. apply Hnone. by right.
Qed.

(** The loop of the three searches: the index it returns, and when it
    runs off the end. *)
Lemma scanKeys_Ok (animationTime : float) (times : list double) (i0 i : nat) :
  scanKeys animationTime times i0 = Ok i <->
  exists k t,
    i = i0 + k /\ times !! k = Some t /\ before animationTime t = true /\
    forall j t', j < k -> times !! j = Some t' -> before animationTime t' = false.
Proof.
  revert i0. induction times as [|t0 times IH]; intros i0; simpl.
  - split; [discriminate|]. intros (k & t & _ & Hk & _). by rewrite lookup_nil in Hk.
  - fold (before animationTime t0). destruct (before animationTime t0) eqn:Hb.
    + split.
      * intros [= <-]. exists 0, t0. split; [lia|]. split; [done|]. split; [done|].
        intros j t' Hj. lia.
      * intros (k & t & -> & Hk & Hbt & Hfirst). destruct k as [|k]; [f_equal; lia|].
        exfalso. specialize (Hfirst 0 t0 ltac:(lia) eq_refl). congruence.
    + rewrite IH. split.
      * intros (k & t & -> & Hk & Hbt & Hfirst). exists (S k), t.
        split; [lia|]. split; [done|]. split; [done|].
        intros j t' Hj Ht'. destruct j as [|j]; simpl in Ht'; [by simplify_eq|].
        apply (Hfirst j); [lia | done].
      * intros (k & t & -> & Hk & Hbt & Hfirst). destruct k as [|k]; simpl in Hk.
        { injection Hk as <-. congruence. }
        exists k, t. split; [lia|]. split; [done|]. split; [done|].
        intros j t' Hj Ht'. apply (Hfirst (S j)); [lia | done].
Qed.

Lemma scanKeys_Fault (animationTime : float) (times : list double) (i0 : nat) :
  (exists f, scanKeys animationTime times i0 = Fault f) <->
  Forall (fun t => before animationTime t = false) times.
Proof.
  revert i0. induction times as [|t0 times IH]; intros i0; simpl.
  - split; [by constructor | eauto].
  - fold (before animationTime t0). destruct (before animationTime t0) eqn:Hb.
    + split; [by intros [f ?]|]. intros H. apply Forall_cons in H as [H _]. congruence.
    + rewrite IH. split; [by constructor|]. intros H. by apply Forall_cons in H as [_ H].
Qed.

Lemma scanKeys_Fault_kind (animationTime : float) (times : list double) (i0 : nat) (f : fault) :
  scanKeys animationTime times i0 = Fault f -> f = AssertionFailed.
Proof.
  revert i0. induction times as [|t0 times IH]; intros i0; simpl.
  - by intros [= <-].
  - destruct (flt _ _); [discriminate | apply IH].
Qed.


(** The loop run on the keys of a track, whatever the kind of key. *)
Lemma scan_track_Ok {K : Type} (time : K -> double) (animationTime : float)
    (keys : list K) (i : nat) :
  scanKeys animationTime (map time (tail keys)) 0 = Ok i <->
  exists k,
    keys !! (i + 1) = Some k /\ before animationTime (time k) = true /\
    forall j k', 1 <= j <= i -> keys !! j = Some k' ->
      before animationTime (time k') = false.
Proof.
  rewrite scanKeys_Ok. destruct keys as [|k0 later]; simpl.
  - split.
    + intros (k & t & _ & Hk & _). by rewrite lookup_nil in Hk.
    + intros (k & Hk & _). by rewrite lookup_nil in Hk.
  - split.
    + intros (n & t & -> & Hn & Hb & Hfirst). simpl.
      rewrite list_lookup_fmap in Hn.
      destruct (later !! n) as [k|] eqn:Hk; [|discriminate]. injection Hn as <-.
      exists k. replace (n + 1) with (S n) by lia. split; [done|]. split; [done|].
      intros j k' Hj Hk'. destruct j as [|j]; [lia|]. simpl in Hk'.
      apply (Hfirst j); [lia|]. by rewrite list_lookup_fmap, Hk'.
    + intros (k & Hk & Hb & Hfirst). replace (i + 1) with (S i) in Hk by lia.
      simpl in Hk. exists i, (time k). split; [done|].
      split; [by rewrite list_lookup_fmap, Hk|]. split; [done|].
      intros j t' Hj Ht'. rewrite list_lookup_fmap in Ht'.
      destruct (later !! j) as [k'|] eqn:Hk'; [|discriminate]. injection Ht' as <-.
      apply (Hfirst (S j)); [lia | done].
Qed.

Lemma scan_track_Fault {K : Type} (time : K -> double) (animationTime : float)
    (keys : list K) :
  Forall (fun k => before animationTime (time k) = false) (tail keys) <->
  scanKeys animationTime (map time (tail keys)) 0 = Fault AssertionFailed.
Proof.
  assert (Forall (fun k => before animationTime (time k) = false) (tail keys) <->
          Forall (fun t => before animationTime t = false) (map time (tail keys))) as ->
    by (by rewrite Forall_fmap).
  rewrite <- (scanKeys_Fault animationTime _ 0). split.
  - intros [f Hf]. by rewrite Hf, (scanKeys_Fault_kind _ _ _ _ Hf).
  - eauto.
Qed.

(** X2.  A search that returns index [i] has found the first key after
    key 0 whose time stamp, as a [float], is above the animation time: it
    is key [i + 1], and the keys [1 .. i] are not above it.  The same holds
    for the position, the rotation and the scaling track. *)
Theorem key_search_bracket (animationTime : float) (nodeAnim : aiNodeAnim) (i : nat) :
  (findPosition animationTime nodeAnim = Ok i <->
   exists k,
     mPositionKeys nodeAnim !! (i + 1) = Some k /\
     before animationTime (vk_mTime k) = true /\
     forall j k', 1 <= j <= i -> mPositionKeys nodeAnim !! j = Some k' ->
       before animationTime (vk_mTime k') = false) /\
  (findRotation animationTime nodeAnim = Ok i <->
   exists k,
     mRotationKeys nodeAnim !! (i + 1) = Some k /\
     before animationTime (qk_mTime k) = true /\
     forall j k', 1 <= j <= i -> mRotationKeys nodeAnim !! j = Some k' ->
       before animationTime (qk_mTime k') = false) /\
  (findScaling animationTime nodeAnim = Ok i <->
   exists k,
     mScalingKeys nodeAnim !! (i + 1) = Some k /\
     before animationTime (vk_mTime k) = true /\
     forall j k', 1 <= j <= i -> mScalingKeys nodeAnim !! j = Some k' ->
       before animationTime (vk_mTime k') = false).
Proof.
  split; [|split].
  - rewrite <- scan_track_Ok. unfold findPosition.
    destruct (mPositionKeys nodeAnim) as [|k0 later]; simpl; [|done].
    split; discriminate.
  - rewrite <- scan_track_Ok. unfold findRotation.
    destruct (mRotationKeys nodeAnim) as [|k0 later]; simpl; [|done].
    split; discriminate.
  - rewrite <- scan_track_Ok. unfold findScaling.
    destruct (mScalingKeys nodeAnim) as [|k0 later]; simpl; [|done].
    split; discriminate.
Qed.

(** X3.  How the searches fail.  On a track without keys the position
    search reads past the end of the array, while the rotation and scaling
    searches stop at their [assert]; on a track with keys a search fails,
    at [assert(0)], exactly when no key after key 0 has a time stamp
    above the animation time, in particular on every track with one key
    and at every time at or past the last key. *)
Theorem key_search_faults (animationTime : float) (nodeAnim : aiNodeAnim) :
  (mPositionKeys nodeAnim = [] -> findPosition animationTime nodeAnim = Fault OutOfBounds) /\
  (mRotationKeys nodeAnim = [] -> findRotation animationTime nodeAnim = Fault AssertionFailed) /\
  (mScalingKeys nodeAnim = [] -> findScaling animationTime nodeAnim = Fault AssertionFailed) /\
  (mPositionKeys nodeAnim <> [] ->
   (Forall (fun k => before animationTime (vk_mTime k) = false) (tail (mPositionKeys nodeAnim))
    <-> findPosition animationTime nodeAnim = Fault AssertionFailed)) /\
  (mRotationKeys nodeAnim <> [] ->
   (Forall (fun k => before animationTime (qk_mTime k) = false) (tail (mRotationKeys nodeAnim))
    <-> findRotation animationTime nodeAnim = Fault AssertionFailed)) /\
  (mScalingKeys nodeAnim <> [] ->
   (Forall (fun k => before animationTime (vk_mTime k) = false) (tail (mScalingKeys nodeAnim))
    <-> findScaling animationTime nodeAnim = Fault AssertionFailed)).
Proof.
  unfold findPosition, findRotation, findScaling.
  repeat split; try (intros ->; reflexivity).
  - destruct (mPositionKeys nodeAnim) as [|k0 later] eqn:E; [done|].
    by apply (scan_track_Fault vk_mTime animationTime (k0 :: later)).
  - destruct (mPositionKeys nodeAnim) as [|k0 later] eqn:E; [done|].
    by apply (scan_track_Fault vk_mTime animationTime (k0 :: later)).
  - destruct (mRotationKeys nodeAnim) as [|k0 later] eqn:E; [done|].
    by apply (scan_track_Fault qk_mTime animationTime (k0 :: later)).
  - destruct (mRotationKeys nodeAnim) as [|k0 later] eqn:E; [done|].
    by apply (scan_track_Fault qk_mTime animationTime (k0 :: later)).
  - destruct (mScalingKeys nodeAnim) as [|k0 later] eqn:E; [done|].
    by apply (scan_track_Fault vk_mTime animationTime (k0 :: later)).
  - destruct (mScalingKeys nodeAnim) as [|k0 later] eqn:E; [done|].
    by apply (scan_track_Fault vk_mTime animationTime (k0 :: later)).
Qed.


Lemma interpolationFactor_Ok (animationTime : float) (t0 t1 : double) (factor : float) :
  interpolationFactor animationTime t0 t1 = Ok factor <->
  factor = fdiv (fsub animationTime (to_float t0)) (to_float (dsub t1 t0)) /\
  fle float_zero factor = true /\ fle factor float_one = true.
Proof.
  unfold interpolationFactor, assert.
  set (f := fdiv _ _).
  destruct (fle float_zero f) eqn:E0, (fle f float_one) eqn:E1; simpl;
    split; try discriminate; try (intros [-> [? ?]]; congruence).
  - intros H. injection H as <-. done.
Qed.

Lemma length_one_inv {A : Type} (l : list A) :
  (length l =? 1) = true -> exists a, l = [a].
Proof.
  destruct l as [|a [|b l]]; simpl; try discriminate. eauto.
Qed.

(** X4.  What a sampler returns.  On a track with exactly one key it is
    that key's value.  On any other track it returns exactly when the
    search finds an index [i] and the factor
    [(animationTime - t_i) / (float)(t_{i+1} - t_i)] lies in [[0, 1]]; the
    result is then the value of key [i] moved by the factor towards the
    value of key [i + 1] for positions and scalings, and the normalised
    interpolation of the two for rotations. *)
Theorem sampler_result (animationTime : float) (nodeAnim : aiNodeAnim) :
  (forall v,
     calcInterpolatedPosition animationTime nodeAnim = Ok v <->
     (exists k, mPositionKeys nodeAnim = [k] /\ v = vk_mValue k) \/
     (length (mPositionKeys nodeAnim) <> 1 /\
      exists i k0 k1 factor,
        findPosition animationTime nodeAnim = Ok i /\
        mPositionKeys nodeAnim !! i = Some k0 /\
        mPositionKeys nodeAnim !! (i + 1) = Some k1 /\
        factor = fdiv (fsub animationTime (to_float (vk_mTime k0)))
                      (to_float (dsub (vk_mTime k1) (vk_mTime k0))) /\
        fle float_zero factor = true /\ fle factor float_one = true /\
        v = aiVector3D_add (vk_mValue k0)
              (aiVector3D_scale factor (aiVector3D_sub (vk_mValue k1) (vk_mValue k0))))) /\
  (forall q,
     calcInterpolatedRotation animationTime nodeAnim = Ok q <->
     (exists k, mRotationKeys nodeAnim = [k] /\ q = qk_mValue k) \/
     (length (mRotationKeys nodeAnim) <> 1 /\
      exists i k0 k1 factor,
        findRotation animationTime nodeAnim = Ok i /\
        mRotationKeys nodeAnim !! i = Some k0 /\
        mRotationKeys nodeAnim !! (i + 1) = Some k1 /\
        factor = fdiv (fsub animationTime (to_float (qk_mTime k0)))
                      (to_float (dsub (qk_mTime k1) (qk_mTime k0))) /\
        fle float_zero factor = true /\ fle factor float_one = true /\
        q = Normalize (Interpolate (qk_mValue k0) (qk_mValue k1) factor))) /\
  (forall v,
     calcInterpolatedScaling animationTime nodeAnim = Ok v <->
     (exists k, mScalingKeys nodeAnim = [k] /\ v = vk_mValue k) \/
     (length (mScalingKeys nodeAnim) <> 1 /\
      exists i k0 k1 factor,
        findScaling animationTime nodeAnim = Ok i /\
        mScalingKeys nodeAnim !! i = Some k0 /\
        mScalingKeys nodeAnim !! (i + 1) = Some k1 /\
        factor = fdiv (fsub animationTime (to_float (vk_mTime k0)))
                      (to_float (dsub (vk_mTime k1) (vk_mTime k0))) /\
        fle float_zero factor = true /\ fle factor float_one = true /\
        v = aiVector3D_add (vk_mValue k0)
              (aiVector3D_scale factor (aiVector3D_sub (vk_mValue k1) (vk_mValue k0))))).
Proof.
  split; [|split]; intros v.
  - unfold calcInterpolatedPosition.
    destruct (length (mPositionKeys nodeAnim) =? 1) eqn:E.
    + destruct (length_one_inv _ E) as [k Hk]. rewrite Hk. simpl. split.
      * intros H. injection H as <-. left. eauto.
      * intros [(k' & Hk' & ->)|[Hne _]]; [by injection Hk' as <-|done].
    + apply Nat.eqb_neq in E. split.
      * intros H. right. split; [done|].
        inv_bind H as i. inv_bind H_r as u. inv_bind H_r_r as k0. inv_bind H_r_r_r as k1.
        inv_bind H_r_r_r_r as factor. injection H_r_r_r_r_r as <-.
        apply at_index_Ok in H_r_r_l, H_r_r_r_l.
        apply interpolationFactor_Ok in H_r_r_r_r_l as (? & ? & ?).
        exists i, k0, k1, factor. done.
      * intros [(k & Hk & _)|[_ (i & k0 & k1 & factor & Hi & H0 & H1 & Hf & Hlo & Hhi & ->)]].
        { by rewrite Hk in E. }
        rewrite Hi. simpl.
        pose proof (lookup_lt_Some _ _ _ H1) as Hlt.
        apply Nat.ltb_lt in Hlt. rewrite Hlt. simpl.
        apply at_index_Ok in H0, H1. rewrite H0, H1. simpl.
        assert (Hfac : interpolationFactor animationTime (vk_mTime k0) (vk_mTime k1) = Ok factor)
          by (by apply interpolationFactor_Ok).
        by rewrite Hfac.
  - unfold calcInterpolatedRotation.
    destruct (length (mRotationKeys nodeAnim) =? 1) eqn:E.
    + destruct (length_one_inv _ E) as [k Hk]. rewrite Hk. simpl. split.
      * intros H. injection H as <-. left. eauto.
      * intros [(k' & Hk' & ->)|[Hne _]]; [by injection Hk' as <-|done].
    + apply Nat.eqb_neq in E. split.
      * intros H. right. split; [done|].
        inv_bind H as i. inv_bind H_r as u. inv_bind H_r_r as k0. inv_bind H_r_r_r as k1.
        inv_bind H_r_r_r_r as factor. injection H_r_r_r_r_r as <-.
        apply at_index_Ok in H_r_r_l, H_r_r_r_l.
        apply interpolationFactor_Ok in H_r_r_r_r_l as (? & ? & ?).
        exists i, k0, k1, factor. done.
      * intros [(k & Hk & _)|[_ (i & k0 & k1 & factor & Hi & H0 & H1 & Hf & Hlo & Hhi & ->)]].
        { by rewrite Hk in E. }
        rewrite Hi. simpl.
        pose proof (lookup_lt_Some _ _ _ H1) as Hlt.
        apply Nat.ltb_lt in Hlt. rewrite Hlt. simpl.
        apply at_index_Ok in H0, H1. rewrite H0, H1. simpl.
        assert (Hfac : interpolationFactor animationTime (qk_mTime k0) (qk_mTime k1) = Ok factor)
          by (by apply interpolationFactor_Ok).
        by rewrite Hfac.
  - unfold calcInterpolatedScaling.
    destruct (length (mScalingKeys nodeAnim) =? 1) eqn:E.
    + destruct (length_one_inv _ E) as [k Hk]. rewrite Hk. simpl. split.
      * intros H. injection H as <-. left. eauto.
      * intros [(k' & Hk' & ->)|[Hne _]]; [by injection Hk' as <-|done].
    + apply Nat.eqb_neq in E. split.
      * intros H. right. split; [done|].
        inv_bind H as i. inv_bind H_r as u. inv_bind H_r_r as k0. inv_bind H_r_r_r as k1.
        inv_bind H_r_r_r_r as factor. injection H_r_r_r_r_r as <-.
        apply at_index_Ok in H_r_r_l, H_r_r_r_l.
        apply interpolationFactor_Ok in H_r_r_r_r_l as (? & ? & ?).
        exists i, k0, k1, factor. done.
      * intros [(k & Hk & _)|[_ (i & k0 & k1 & factor & Hi & H0 & H1 & Hf & Hlo & Hhi & ->)]].
        { by rewrite Hk in E. }
        rewrite Hi. simpl.
        pose proof (lookup_lt_Some _ _ _ H1) as Hlt.
        apply Nat.ltb_lt in Hlt. rewrite Hlt. simpl.
        apply at_index_Ok in H0, H1. rewrite H0, H1. simpl.
        assert (Hfac : interpolationFactor animationTime (vk_mTime k0) (vk_mTime k1) = Ok factor)
          by (by apply interpolationFactor_Ok).
        by rewrite Hfac.
Qed.


(** X5.  How the samplers fail.  A track without keys stops the position
    sampler with a read past the end of the array and the rotation and
    scaling samplers at an [assert]; a track with two or more keys none
    of whose later time stamps is above the animation time stops each
    sampler at [assert(0)]. *)
Theorem sampler_faults (animationTime : float) (nodeAnim : aiNodeAnim) :
  (mPositionKeys nodeAnim = [] ->
   calcInterpolatedPosition animationTime nodeAnim = Fault OutOfBounds) /\
  (mRotationKeys nodeAnim = [] ->
   calcInterpolatedRotation animationTime nodeAnim = Fault AssertionFailed) /\
  (mScalingKeys nodeAnim = [] ->
   calcInterpolatedScaling animationTime nodeAnim = Fault AssertionFailed) /\
  (2 <= length (mPositionKeys nodeAnim) ->
   Forall (fun k => before animationTime (vk_mTime k) = false) (tail (mPositionKeys nodeAnim)) ->
   calcInterpolatedPosition animationTime nodeAnim = Fault AssertionFailed) /\
  (2 <= length (mRotationKeys nodeAnim) ->
   Forall (fun k => before animationTime (qk_mTime k) = false) (tail (mRotationKeys nodeAnim)) ->
   calcInterpolatedRotation animationTime nodeAnim = Fault AssertionFailed) /\
  (2 <= length (mScalingKeys nodeAnim) ->
   Forall (fun k => before animationTime (vk_mTime k) = false) (tail (mScalingKeys nodeAnim)) ->
   calcInterpolatedScaling animationTime nodeAnim = Fault AssertionFailed).
Proof.
  unfold calcInterpolatedPosition, calcInterpolatedRotation, calcInterpolatedScaling,
    findPosition, findRotation, findScaling.
  repeat split; try (intros ->; reflexivity).
  - intros Hlen Hall. apply scan_track_Fault in Hall.
    destruct (mPositionKeys nodeAnim) as [|k0 [|k1 later]]; simpl in Hlen; try lia.
    cbn [length Nat.eqb]. simpl in Hall |- *. by rewrite Hall.
  - intros Hlen Hall. apply scan_track_Fault in Hall.
    destruct (mRotationKeys nodeAnim) as [|k0 [|k1 later]]; simpl in Hlen; try lia.
    cbn [length Nat.eqb]. simpl in Hall |- *. by rewrite Hall.
  - intros Hlen Hall. apply scan_track_Fault in Hall.
    destruct (mScalingKeys nodeAnim) as [|k0 [|k1 later]]; simpl in Hlen; try lia.
    cbn [length Nat.eqb]. simpl in Hall |- *. by rewrite Hall.
Qed.

End Sampling.


(** *** Evaluation: when it returns, and what it leaves alone *)

Section Evaluation.
Context {glm : GLM} {assimp : AssimpMath} {platform : Platform}.

Local Open Scope mat_scope.

(** The traversal names the nodes of the tree, in the order of the
    recursion. *)
Lemma globalTransforms_spec_names (animation : aiAnimation) (animationTime : float)
    (node : aiNode) :
  forall parentTransform visits,
    globalTransforms_spec animation animationTime node parentTransform = Ok visits ->
    map fst visits = map mName (subtree node).
Proof.
  induction node as [name t ms cs IHcs] using aiNode_induction.
  intros P visits H. simpl in H.
  inv_bind H as local. inv_bind H_r as below. injection H_r_r as <-.
  simpl. f_equal. clear H_l.
  revert below H_r_l. generalize (mat4_mul P local). intros G.
  induction cs as [|c cs IH]; intros below H.
  - by injection H as <-.
  - inv_bind H as first. inv_bind H_r as others. injection H_r_r as <-.
    apply Forall_cons in IHcs as [Hc Hcs].
    rewrite !map_app. f_equal; [by eapply Hc | by apply IH].
Qed.

(** It returns exactly when every node of the tree has a local
    transform. *)
Lemma globalTransforms_spec_locals (animation : aiAnimation) (animationTime : float)
    (node : aiNode) :
  forall parentTransform,
    (exists visits,
       globalTransforms_spec animation animationTime node parentTransform = Ok visits) <->
    (forall n, n ∈ subtree node ->
       exists local, nodeTransformation animation animationTime n = Ok local).
Proof.
  induction node as [name t ms cs IHcs] using aiNode_induction.
  intros P. split.
  - intros [visits H]. simpl in H.
    inv_bind H as local. inv_bind H_r as below. clear H_r_r.
    intros n Hn. simpl in Hn. apply elem_of_cons in Hn as [->|Hn]; [eauto|].
    clear H_l. revert below H_r_l Hn. generalize (mat4_mul P local). intros G.
    induction cs as [|c cs IH]; intros below H Hn.
    + by apply elem_of_nil in Hn.
    + inv_bind H as first. inv_bind H_r as others.
      apply Forall_cons in IHcs as [Hc Hcs].
      apply elem_of_app in Hn as [Hn|Hn].
      * apply (Hc G); [eauto | done].
      * by eapply IH.
  - intros Hall. simpl.
    destruct (Hall (AiNode name t ms cs)) as [local Hlocal]; [simpl; by left|].
    rewrite Hlocal. simpl.
    assert (Hbelow : forall n,
      n ∈ (fix children (cs : list aiNode) : list aiNode :=
             match cs with
             | [] => []
             | c :: cs' => subtree c ++ children cs'
             end) cs ->
      exists local, nodeTransformation animation animationTime n = Ok local).
    { intros n Hn. apply Hall. simpl. by right. }
    clear Hall Hlocal. generalize (mat4_mul P local). intros G.
    assert (exists below,
      (fix children (cs : list aiNode) : result (list (string * mat4)) :=
         match cs with
         | [] => Ok []
         | c :: cs' =>
             first ← globalTransforms_spec animation animationTime c G;
             others ← children cs';
             Ok (first ++ others)
         end) cs = Ok below) as [below ->]; [|simpl; eauto].
    induction cs as [|c cs IH]; [by eauto|].
    apply Forall_cons in IHcs as [Hc Hcs].
    destruct (proj2 (Hc G)) as [first ->].
    { intros n Hn. apply Hbelow. apply elem_of_app. by left. }
    destruct (IH Hcs) as [others ->].
    { intros n Hn. apply Hbelow. apply elem_of_app. by right. }
    simpl. eauto.
Qed.

(** The converse of [readNodeHeirarchy_visits]: the recursion returns
    when the traversal and its writes do. *)
Lemma readNodeHeirarchy_complete (animationTime : float) (sc : aiScene)
    (animation : aiAnimation) (node : aiNode) :
  forall parentTransform m m' visits,
    scene m = Some sc ->
    mAnimations sc !! N.to_nat (currentAnimation m) = Some animation ->
    globalTransforms_spec animation animationTime node parentTransform = Ok visits ->
    foldlM writeVisit visits m = Ok m' ->
    readNodeHeirarchy animationTime node parentTransform m = Ok m'.
Proof.
  induction node as [name t ms cs IHcs] using aiNode_induction.
  intros P m m' visits Hsc Hanim Hvisits Hwrite. simpl in Hvisits.
  inv_bind Hvisits as local. inv_bind Hvisits_r as below. injection Hvisits_r_r as <-.
  simpl in Hwrite. inv_bind Hwrite as m1. unfold writeVisit in Hwrite_l. simpl in Hwrite_l.
  simpl. unfold get_scene. rewrite Hsc. simpl.
  apply at_index_Ok in Hanim as Hanim'. rewrite Hanim'. simpl.
  rewrite Hvisits_l. simpl. rewrite Hwrite_l. simpl.
  pose proof (writeFinalTransformation_finals_only _ _ _ _ Hwrite_l) as Hfo.
  apply finals_only_fields in Hfo as (Hsc1 & Hcur1 & _ & _).
  rewrite <- Hsc1 in Hsc. rewrite <- Hcur1 in Hanim.
  clear Hwrite_l Hvisits_l Hsc1 Hcur1 Hanim'.
  revert below m1 Hsc Hanim Hvisits_r_l Hwrite_r.
  generalize (mat4_mul P local). intros G.
  induction cs as [|c cs IH]; intros below m1 Hsc Hanim Hbelow Hwrite.
  - injection Hbelow as <-. simpl in Hwrite. done.
  - inv_bind Hbelow as first. inv_bind Hbelow_r as others. injection Hbelow_r_r as <-.
    rewrite foldlM_app in Hwrite. inv_bind Hwrite as m2.
    apply Forall_cons in IHcs as [Hc Hcs].
    rewrite (Hc _ _ _ _ Hsc Hanim Hbelow_l Hwrite_l). simpl.
    assert (Hfo : finals_only m1 m2).
    { eapply readNodeHeirarchy_finals_only. by eapply Hc. }
    apply finals_only_fields in Hfo as (Hsc2 & Hcur2 & _ & _).
    rewrite <- Hsc2 in Hsc. rewrite <- Hcur2 in Hanim.
    by eapply IH.
Qed.

(** A write cannot fault while the name table points inside the bone
    matrices, and it keeps their number. *)
Lemma writeFinalTransformation_total (nodeName : string) (G : mat4) (m : Model) :
  (forall name i, boneMapping m !! name = Some i -> N.to_nat i < length (boneMatrices m)) ->
  exists m', writeFinalTransformation nodeName G m = Ok m'.
Proof.
  intros Hin. unfold writeFinalTransformation.
  destruct (boneMapping m !! nodeName) as [i|] eqn:E; [|by eauto].
  destruct (lookup_lt_is_Some_2 (boneMatrices m) (N.to_nat i)) as [b Hb]; [by eapply Hin|].
  apply at_index_Ok in Hb. rewrite Hb. simpl. eauto.
Qed.

Lemma finals_only_length (m m' : Model) :
  finals_only m m' -> length (boneMatrices m') = length (boneMatrices m).
Proof.
  intros [_ H]. apply (f_equal length) in H. by rewrite !length_map in H.
Qed.

Lemma foldlM_writeVisit_finals_only (visits : list (string * mat4)) :
  forall m m', foldlM writeVisit visits m = Ok m' -> finals_only m m'.
Proof.
  induction visits as [|v visits IH]; intros m m' H; simpl in H.
  - injection H as <-. apply finals_only_refl.
  - inv_bind H as m1. eapply finals_only_trans; [|by apply IH].
    by eapply writeFinalTransformation_finals_only.
Qed.

Lemma foldlM_writeVisit_total (visits : list (string * mat4)) :
  forall m,
    (forall name i, boneMapping m !! name = Some i -> N.to_nat i < length (boneMatrices m)) ->
    exists m', foldlM writeVisit visits m = Ok m'.
Proof.
  induction visits as [|v visits IH]; intros m Hin; simpl; [by eauto|].
  destruct (writeFinalTransformation_total v.1 v.2 m Hin) as [m1 H1].
  change (writeFinalTransformation v.1 v.2 m) with (writeVisit m v) in H1.
  rewrite H1. simpl. apply IH. unfold writeVisit in H1.
  pose proof (writeFinalTransformation_finals_only _ _ _ _ H1) as Hfo.
  rewrite (finals_only_length _ _ Hfo).
  apply finals_only_fields in Hfo as (_ & _ & -> & _). exact Hin.
Qed.

(** The loop that collects the result reads inside the array while the
    counter does not exceed its length. *)
Lemma collect_transforms_total (bs : list BoneMatrix) (n k : nat) :
  k + n <= length bs ->
  mapM (fun i => b ← at_index bs i; Ok (FinalTransformation b)) (seq k n)
  = Ok (map FinalTransformation (take n (drop k bs))).
Proof.
  revert k. induction n as [|n IH]; intros k Hle; simpl.
  - done.
  - destruct (lookup_lt_is_Some_2 bs k) as [b Hb]; [lia|].
    apply at_index_Ok in Hb as Hb'. rewrite Hb'. simpl.
    rewrite IH by lia. simpl. by rewrite (drop_S _ _ _ Hb).
Qed.

(** X6.  A call of [boneTransform] that returns has sampled every node of
    the tree that has a channel in the current clip: for each such node
    the three samplers returned at the animation time, so each of its
    three tracks holds at least one key. *)
Theorem evaluation_samples_every_channel
    (timeInSeconds : float) (m m' : Model) (transforms : list mat4) :
  boneTransform timeInSeconds m = Ok (transforms, m') ->
  exists sc animation channel0 lastKey,
    scene m = Some sc /\
    mAnimations sc !! N.to_nat (currentAnimation m) = Some animation /\
    mChannels animation !! 0 = Some channel0 /\
    last (mPositionKeys channel0) = Some lastKey /\
    let animationTime :=
      wrapTime (fmul timeInSeconds (clipTicksPerSecond animation)) (vk_mTime lastKey) in
    forall node nodeAnim,
      node ∈ subtree (mRootNode sc) ->
      findNodeAnim animation (mName node) = Some nodeAnim ->
      (exists scaling rotationQ translation,
         calcInterpolatedScaling animationTime nodeAnim = Ok scaling /\
         calcInterpolatedRotation animationTime nodeAnim = Ok rotationQ /\
         calcInterpolatedPosition animationTime nodeAnim = Ok translation) /\
      mScalingKeys nodeAnim <> [] /\
      mRotationKeys nodeAnim <> [] /\
      mPositionKeys nodeAnim <> [].
Proof.
  intros H.
  destruct (boneTransform_Ok _ _ _ _ H)
    as (sc & animation & channel0 & lastKey & Hsc & Hanim & Hch & Hlast & Hread & _).
  exists sc, animation, channel0, lastKey. repeat (split; [done|]).
  intros animationTime node nodeAnim Hnode Hfind.
  destruct (readNodeHeirarchy_visits _ sc animation _ _ (set_animDuration (vk_mTime lastKey) m) _ Hsc Hanim Hread)
    as (visits & Hvisits & _).
  destruct (proj1 (globalTransforms_spec_locals _ _ _ _) (ex_intro _ _ Hvisits) node Hnode)
    as [local Hlocal].
  destruct (nodeTransformation_animated _ _ _ _ _ Hfind Hlocal)
    as (scaling & rotationQ & translation & Hs & Hr & Hp & _).
  fold animationTime in Hs, Hr, Hp.
  split; [by exists scaling, rotationQ, translation|].
  repeat split; intros Hnil.
  - unfold calcInterpolatedScaling, findScaling in Hs. by rewrite Hnil in Hs.
  - unfold calcInterpolatedRotation, findRotation in Hr. by rewrite Hnil in Hr.
  - unfold calcInterpolatedPosition, findPosition in Hp. by rewrite Hnil in Hp.
Qed.

(** X7.  When [boneTransform] returns.  In a model whose bone count does
    not exceed the number of its bone matrices and whose name table holds
    only indices below that number, with the scene attached, the current
    clip among the scene's clips, a position key in channel 0 of that clip
    and a local transform for every node of the tree at the animation
    time, [boneTransform] returns: every write into the bone matrices and
    every read of the result stays inside the array.  The result holds one
    matrix for each bone, the final transformation the call leaves for it,
    and the registry is inside the bone matrices afterwards as well. *)
Theorem boneTransform_returns (timeInSeconds : float) (m : Model) (sc : aiScene)
    (animation : aiAnimation) (channel0 : aiNodeAnim) (lastKey : aiVectorKey) :
  registry_in_bounds m ->
  scene m = Some sc ->
  mAnimations sc !! N.to_nat (currentAnimation m) = Some animation ->
  mChannels animation !! 0 = Some channel0 ->
  last (mPositionKeys channel0) = Some lastKey ->
  (forall node, node ∈ subtree (mRootNode sc) ->
     exists local,
       nodeTransformation animation
         (wrapTime (fmul timeInSeconds (clipTicksPerSecond animation)) (vk_mTime lastKey))
         node = Ok local) ->
  exists transforms m',
    boneTransform timeInSeconds m = Ok (transforms, m') /\
    length transforms = N.to_nat (bonesCount m) /\
    (forall i, i < N.to_nat (bonesCount m) ->
       transforms !! i = FinalTransformation <$> boneMatrices m' !! i) /\
    registry_in_bounds m'.
Proof.
  intros [Hcount Hin] Hsc Hanim Hch Hlast Hall.
  destruct (proj2 (globalTransforms_spec_locals _ _ _ (mat4_diag float_one)) Hall)
    as [visits Hvisits].
  destruct (foldlM_writeVisit_total visits (set_animDuration (vk_mTime lastKey) m))
    as [m' Hwrite]; [exact Hin|].
  pose proof (foldlM_writeVisit_finals_only _ _ _ Hwrite) as Hfo.
  assert (Hread : readNodeHeirarchy
            (wrapTime (fmul timeInSeconds (clipTicksPerSecond animation)) (vk_mTime lastKey))
            (mRootNode sc) (mat4_diag float_one)
            (set_animDuration (vk_mTime lastKey) m) = Ok m').
  { by eapply readNodeHeirarchy_complete. }
  pose proof (finals_only_length _ _ Hfo) as Hlen. simpl in Hlen.
  assert (Hbc : bonesCount m' = bonesCount m) by (destruct Hfo as [-> _]; done).
  assert (Hbm : boneMapping m' = boneMapping m).
  { apply finals_only_fields in Hfo as (_ & _ & -> & _). done. }
  exists (map FinalTransformation (take (N.to_nat (bonesCount m)) (boneMatrices m'))), m'.
  split; [|split; [|split]].
  - unfold boneTransform, get_scene. rewrite Hsc. simpl.
    apply at_index_Ok in Hanim. rewrite Hanim. simpl.
    apply at_index_Ok in Hch. rewrite Hch. simpl.
    apply last_at_index in Hlast. rewrite Hlast. simpl.
    rewrite Hread. simpl.
    rewrite collect_transforms_total by (rewrite Hbc, Hlen; lia).
    simpl. by rewrite Hbc.
  - rewrite length_map, length_take. lia.
  - intros i Hi. by rewrite list_lookup_fmap, lookup_take_lt.
  - split; [by rewrite Hbc, Hlen|]. intros name i. rewrite Hbm, Hlen. apply Hin.
Qed.

(** Writes that went through on one model go through on any model with
    the same name table and as many bone matrices. *)
Lemma foldlM_writeVisit_again (visits : list (string * mat4)) :
  forall ma mb mc,
    foldlM writeVisit visits ma = Ok mb ->
    boneMapping mc = boneMapping ma ->
    length (boneMatrices mc) = length (boneMatrices ma) ->
    exists md, foldlM writeVisit visits mc = Ok md.
Proof.
  induction visits as [|v visits IH]; intros ma mb mc H Hmap Hlen; simpl in *; [by eauto|].
  inv_bind H as ma1.
  assert (exists mc1, writeVisit mc v = Ok mc1) as [mc1 Hc].
  { unfold writeVisit, writeFinalTransformation in *. rewrite Hmap.
    destruct (boneMapping ma !! v.1) as [i|]; [|by eauto].
    inv_bind H_l as b. apply at_index_Ok in H_l_l.
    destruct (lookup_lt_is_Some_2 (boneMatrices mc) (N.to_nat i)) as [b' Hb'].
    { rewrite Hlen. by eapply lookup_lt_Some. }
    apply at_index_Ok in Hb'. rewrite Hb'. simpl. eauto. }
  rewrite Hc. simpl.
  pose proof (writeFinalTransformation_finals_only _ _ _ _ H_l) as Hfa.
  pose proof (writeFinalTransformation_finals_only _ _ _ _ Hc) as Hfc.
  apply (IH ma1 mb mc1 H_r).
  - apply finals_only_fields in Hfa as (_ & _ & -> & _).
    apply finals_only_fields in Hfc as (_ & _ & -> & _). done.
  - by rewrite (finals_only_length _ _ Hfa), (finals_only_length _ _ Hfc).
Qed.

(** X8.  Evaluation is repeatable: a second call of [boneTransform] at
    the same time on the model the first call left returns the same
    matrices and leaves that model as it is. *)
Theorem boneTransform_repeatable
    (timeInSeconds : float) (m m' : Model) (transforms : list mat4) :
  boneTransform timeInSeconds m = Ok (transforms, m') ->
  boneTransform timeInSeconds m' = Ok (transforms, m').
Proof.
  intros H.
  destruct (boneTransform_Ok _ _ _ _ H)
    as (sc & animation & channel0 & lastKey & Hsc & Hanim & Hch & Hlast & Hread & Hts).
  pose proof (readNodeHeirarchy_finals_only _ _ _ _ _ Hread) as Hfo.
  destruct (readNodeHeirarchy_visits _ sc animation _ _ (set_animDuration (vk_mTime lastKey) m) _ Hsc Hanim Hread)
    as (visits & Hvisits & Hwrite).
  set (m0 := set_animDuration (vk_mTime lastKey) m) in *.
  assert (Hm' : set_animDuration (vk_mTime lastKey) m' = m').
  { destruct Hfo as [-> _]. done. }
  (* the second run of the writes *)
  assert (Hin' : forall i b', boneMatrices m' !! i = Some b' ->
            exists b, boneMatrices m0 !! i = Some b) .
  { intros i b' Hb'. apply lookup_lt_is_Some_2.
    rewrite <- (finals_only_length _ _ Hfo). by eapply lookup_lt_Some. }
  assert (Hagain : foldlM writeVisit visits m' = Ok m').
  { pose proof (foldlM_writeVisit_final visits m0 m' Hwrite) as Hfirst.
    assert (Hex : exists m'', foldlM writeVisit visits m' = Ok m'').
    { apply (foldlM_writeVisit_again visits m0 m' m' Hwrite).
      - by destruct (finals_only_fields _ _ Hfo) as (_ & _ & -> & _).
      - by apply finals_only_length. }
    destruct Hex as [m'' Hsecond]. rewrite Hsecond. f_equal.
    pose proof (foldlM_writeVisit_finals_only _ _ _ Hsecond) as Hfo2.
    pose proof (foldlM_writeVisit_final visits m' m'' Hsecond) as Hfinal2.
    destruct Hfo2 as [Heq Hoff2]. rewrite Heq.
    assert (boneMatrices m'' = boneMatrices m') as ->; [|by destruct m'].
    apply list_eq. intros i.
    destruct (boneMatrices m'' !! i) as [b2|] eqn:E2.
    - destruct (Hfinal2 i b2 E2) as (b1 & Hb1 & Ho2 & Hf2).
      destruct (Hfirst i b1 Hb1) as (b0 & Hb0 & Ho1 & Hf1).
      rewrite Hb1. f_equal.
      destruct (finals_only_fields _ _ Hfo) as (_ & _ & Hmap & Hinv).
      rewrite Hmap, Hinv in Hf2.
      destruct b2 as [o2 f2], b1 as [o1 f1]. simpl in *. subst o2. f_equal.
      rewrite Hf2, Hf1. rewrite Ho1. by destruct (lastVisitOf _ _ _).
    - symmetry. apply lookup_ge_None. apply lookup_ge_None in E2.
      apply (f_equal length) in Hoff2. rewrite !length_map in Hoff2. lia. }
  assert (Hread' : readNodeHeirarchy
            (wrapTime (fmul timeInSeconds (clipTicksPerSecond animation)) (vk_mTime lastKey))
            (mRootNode sc) (mat4_diag float_one) m' = Ok m').
  { destruct (finals_only_fields _ _ Hfo) as (Hsc' & Hcur' & _ & _).
    eapply (readNodeHeirarchy_complete _ sc animation); try done.
    - by rewrite Hsc'.
    - by rewrite Hcur'. }
  destruct (finals_only_fields _ _ Hfo) as (Hsc' & Hcur' & _ & _).
  unfold boneTransform, get_scene. rewrite Hsc'. simpl in *. rewrite Hsc. simpl.
  rewrite Hcur'. simpl.
  apply at_index_Ok in Hanim. rewrite Hanim. simpl.
  apply at_index_Ok in Hch. rewrite Hch. simpl.
  apply last_at_index in Hlast. rewrite Hlast. simpl.
  rewrite Hm', Hread'. simpl. rewrite Hts. done.
Qed.

(** X9.  A bone that no node of the tree is named after is not touched
    by [boneTransform]: its bone matrix, and so its entry in the result,
    is what it was before the call. *)
Theorem unnamed_bone_keeps_final
    (timeInSeconds : float) (m m' : Model) (transforms : list mat4) :
  boneTransform timeInSeconds m = Ok (transforms, m') ->
  exists sc,
    scene m = Some sc /\
    forall idx b,
      boneMatrices m !! idx = Some b ->
      (forall node, node ∈ subtree (mRootNode sc) ->
         N.to_nat <$> boneMapping m !! mName node <> Some idx) ->
      boneMatrices m' !! idx = Some b /\
      (idx < N.to_nat (bonesCount m) -> transforms !! idx = Some (FinalTransformation b)).
Proof.
  intros H.
  destruct (boneTransform_Ok _ _ _ _ H)
    as (sc & animation & channel0 & lastKey & Hsc & Hanim & Hch & Hlast & Hread & Hts).
  exists sc. split; [done|]. intros idx b Hb Hnone.
  pose proof (readNodeHeirarchy_finals_only _ _ _ _ _ Hread) as Hfo.
  destruct (readNodeHeirarchy_visits _ sc animation _ _
              (set_animDuration (vk_mTime lastKey) m) _ Hsc Hanim Hread)
    as (visits & Hvisits & Hwrite).
  apply globalTransforms_spec_names in Hvisits.
  assert (Hlast' : lastVisitOf (boneMapping m) idx visits = None).
  { unfold lastVisitOf. replace (filter _ visits) with (@nil (string * mat4)); [done|].
    symmetry.
    assert (Hall : Forall (fun v : string * mat4 =>
                     N.to_nat <$> boneMapping m !! v.1 <> Some idx) visits).
    { apply list.Forall_forall. intros v Hv.
      assert (Hname : v.1 ∈ map mName (subtree (mRootNode sc))).
      { rewrite <- Hvisits. apply list_elem_of_fmap. eauto. }
      apply list_elem_of_fmap in Hname as (node & -> & Hnode). by apply Hnone. }
    clear -Hall. induction Hall as [|v vs Hv _ IH]; [done|].
    by rewrite filter_cons_False. }
  assert (Hb' : boneMatrices m' !! idx = Some b).
  { destruct (lookup_lt_is_Some_2 (boneMatrices m') idx) as [b' Hb'].
    { rewrite (finals_only_length _ _ Hfo). simpl. by eapply lookup_lt_Some. }
    destruct (foldlM_writeVisit_final visits _ _ Hwrite idx b' Hb') as (b0 & Hb0 & Ho & Hf).
    simpl in Hb0, Hf. rewrite Hb in Hb0. injection Hb0 as <-.
    rewrite Hlast' in Hf. rewrite Hb'. f_equal. destruct b, b'. simpl in *. congruence. }
  split; [done|]. intros Hidx.
  apply collect_transforms in Hts. rewrite drop_0 in Hts. subst transforms.
  rewrite list_lookup_fmap, lookup_take_lt.
  - by rewrite Hb'.
  - destruct Hfo as [-> _]. simpl. done.
Qed.

End Evaluation.

(** *** Loading: what holds of the bone registry afterwards *)

Section LoadInvariant.
Context {glm : GLM} {assimp : AssimpMath} {platform : Platform}.

(** A property of the bones met so far and of the model, which looks at
    the registry only and which every binding maintains. *)
Variable P : list aiBone -> Model -> Prop.
Hypothesis P_state :
  forall bs m1 m2, bonesState m1 = bonesState m2 -> P bs m1 -> P bs m2.
Hypothesis P_step :
  forall bs bone m boneIndex m',
    P bs m -> registerBone bone m = Ok (boneIndex, m') -> P (bs ++ [bone]) m'.

Lemma processBones_invariant (bones : list aiBone) :
  forall bs m m' vs vs',
    P bs m -> processBones bones m vs = Ok (m', vs') -> P (bs ++ bones) m'.
Proof.
  unfold processBones.
  induction bones as [|bone rest IH]; intros bs m m' vs vs' HP H; simpl in H.
  - injection H as <- _. by rewrite app_nil_r.
  - inv_bind H as [m1 vs1]. unfold processBone in H_l.
    inv_bind H_l as [boneIndex m1']. inv_bind H_l_r as vs1'.
    injection H_l_r_r as <- <-.
    replace (bs ++ bone :: rest) with ((bs ++ [bone]) ++ rest) by by rewrite <- app_assoc.
    eapply IH; [|exact H_r]. by eapply P_step.
Qed.

Lemma loadMaterialTextures_bonesState (mat : aiMaterial) (type : aiTextureType)
    (typeName : string) (m m' : Model) (w w' : World) (ts : list Texture) :
  loadMaterialTextures mat type typeName m w = (ts, m', w') ->
  bonesState m' = bonesState m.
Proof.
  unfold loadMaterialTextures.
  assert (Hfold : forall strs st st',
            fold_left (loadMaterialTexture typeName) strs st = st' ->
            bonesState st'.1.2 = bonesState st.1.2).
  { induction strs as [|str strs IH]; intros st st' H; simpl in H.
    - by subst.
    - apply IH in H as ->. destruct st as [[acc m0] w0]. unfold loadMaterialTexture.
      destruct (find_loaded (loadedTextures m0) str); [done|].
      by destruct (TextureFromFile str (directory m0) w0). }
  intros H. by apply Hfold in H.
Qed.

Lemma processMesh_invariant (mesh : aiMesh) (bs : list aiBone)
    (m m' : Model) (w w' : World) (built : Mesh) :
  P bs m -> processMesh mesh m w = Ok (built, m', w') -> P (bs ++ mBones mesh) m'.
Proof.
  unfold processMesh. intros HP H.
  inv_bind H as vs0. inv_bind H_r as [m1 vs].
  apply (processBones_invariant _ bs _ _ _ _ HP) in H_r_l.
  inv_bind H_r_r as sc. inv_bind H_r_r_r as mat.
  destruct (loadMaterialTextures mat aiTextureType_DIFFUSE _ m1 w) as [[t1 m2] w2] eqn:E1.
  destruct (loadMaterialTextures mat aiTextureType_SPECULAR _ m2 w2) as [[t2 m3] w3] eqn:E2.
  destruct (loadMaterialTextures mat aiTextureType_HEIGHT _ m3 w3) as [[t3 m4] w4] eqn:E3.
  destruct (loadMaterialTextures mat aiTextureType_EMISSIVE _ m4 w4) as [[t4 m5] w5] eqn:E4.
  apply loadMaterialTextures_bonesState in E1, E2, E3, E4.
  injection H_r_r_r_r as <- <- <-.
  eapply P_state; [|exact H_r_l]. congruence.
Qed.

Lemma meshBones_cons (sc : aiScene) (idx : nat) (idxs : list nat) :
  meshBones sc (idx :: idxs)
  = from_option mBones [] (scene_mMeshes sc !! idx) ++ meshBones sc idxs.
Proof. done. Qed.

Lemma meshBones_app (sc : aiScene) (l1 l2 : list nat) :
  meshBones sc (l1 ++ l2) = meshBones sc l1 ++ meshBones sc l2.
Proof. unfold meshBones. by rewrite map_app, concat_app. Qed.

Lemma processNodeMeshes_invariant (sc : aiScene) (ms : list nat) :
  forall bs m m' w w',
    scene m = Some sc -> P bs m ->
    foldlM processNodeMesh ms (m, w) = Ok (m', w') ->
    scene m' = Some sc /\ P (bs ++ meshBones sc ms) m'.
Proof.
  induction ms as [|idx ms IH]; intros bs m m' w w' Hsc HP H; simpl in H.
  - injection H as <- <-. by rewrite app_nil_r.
  - inv_bind H as [m1 w1]. unfold processNodeMesh in H_l.
    inv_bind H_l as sc'. unfold get_scene in H_l_l. rewrite Hsc in H_l_l.
    injection H_l_l as <-.
    inv_bind H_l_r as mesh. apply at_index_Ok in H_l_r_l.
    inv_bind H_l_r_r as [[built m2] w2]. injection H_l_r_r_r as <- <-.
    pose proof (processMesh_invariant _ _ _ _ _ _ _ HP H_l_r_r_l) as HP2.
    apply processMesh_registry in H_l_r_r_l as [Hsc2 _].
    rewrite meshBones_cons, H_l_r_l. simpl. rewrite app_assoc.
    eapply IH; [| |exact H_r].
    + simpl. congruence.
    + eapply P_state; [|exact HP2]. done.
Qed.

Lemma processNode_invariant (sc : aiScene) (node : aiNode) :
  forall bs m m' w w',
    scene m = Some sc -> P bs m ->
    processNode node (m, w) = Ok (m', w') ->
    scene m' = Some sc /\ P (bs ++ meshBones sc (nodeMeshIndices node)) m'.
Proof.
  induction node as [name t ms cs IHcs] using aiNode_induction.
  intros bs m m' w w' Hsc HP H. simpl in H.
  inv_bind H as [m1 w1].
  destruct (processNodeMeshes_invariant sc ms bs m m1 w w1 Hsc HP H_l) as [Hsc1 HP1].
  simpl. rewrite meshBones_app, app_assoc.
  clear H_l HP Hsc. revert m1 w1 Hsc1 H_r HP1. generalize (bs ++ meshBones sc ms).
  induction cs as [|c cs IH]; intros bs1 m1 w1 Hsc1 H HP1.
  - injection H as <- <-. by rewrite app_nil_r.
  - inv_bind H as [m2 w2].
    apply Forall_cons in IHcs as [Hc Hcs].
    destruct (Hc _ _ _ _ _ Hsc1 HP1 H_l) as [Hsc2 HP2].
    rewrite meshBones_app, app_assoc. by eapply IH.
Qed.

Lemma InitFromScene_invariant (sc : aiScene) (bs : list aiBone)
    (m m' : Model) (w w' : World) :
  P bs m -> InitFromScene sc m w = Ok (m', w') -> P (bs ++ boundBones sc) m'.
Proof.
  unfold InitFromScene. intros HP H. inv_bind H as m1.
  assert (scene m1 = Some sc /\ bonesState m1 = bonesState m) as [Hsc Hst].
  { destruct (scene_HasAnimations sc); [|by injection H_l as <-].
    inv_bind H_l as anim. destruct (negb _); by injection H_l_r as <-. }
  eapply processNode_invariant; [exact Hsc| |exact H_r].
  eapply P_state; [|exact HP]. done.
Qed.

End LoadInvariant.

Section LoadedRegistry.
Context {glm : GLM} {assimp : AssimpMath} {platform : Platform}.

(** X10.  Loading keeps the registry inside the bone matrices: if the bone
    count does not exceed their number and every index of the name table
    is below it before [InitFromScene], as in a new model, the same holds
    afterwards, also across a wrap of the counter. *)
Theorem load_keeps_registry_in_bounds (sc : aiScene) (m m' : Model) (w w' : World) :
  registry_in_bounds m ->
  InitFromScene sc m w = Ok (m', w') ->
  registry_in_bounds m'.
Proof.
  intros Hin H.
  apply (InitFromScene_invariant (fun _ m => registry_in_bounds m)) with (bs := []) in H;
    [done| | |done].
  - intros _ m1 m2 Hst [Hle Hidx]. unfold bonesState in Hst.
    injection Hst as Hc Hm Hb. unfold registry_in_bounds. by rewrite <- Hc, <- Hm, <- Hb.
  - clear. intros _ bone m boneIndex m' [Hle Hidx] H. unfold registerBone in H.
    destruct (boneMapping m !! bone_mName bone) as [i|] eqn:E.
    + by injection H as _ <-.
    + inv_bind H as b. injection H_r as <- <-. split; simpl.
      * rewrite length_insert, length_app. simpl. unfold uint_wrap.
        pose proof (N.Div0.mod_le (bonesCount m + 1) (2 ^ 32)). lia.
      * intros name i. rewrite length_insert, length_app. simpl.
        destruct (decide (name = bone_mName bone)) as [->|Hne].
        -- rewrite lookup_insert_eq. intros [= <-]. lia.
        -- rewrite lookup_insert_ne by done. intros Hi. apply Hidx in Hi. lia.
Qed.

Lemma firstBoneNamed_app (name : string) (bs bs' : list aiBone) :
  firstBoneNamed name (bs ++ bs')
  = match firstBoneNamed name bs with
    | Some bone => Some bone
    | None => firstBoneNamed name bs'
    end.
Proof.
  unfold firstBoneNamed. induction bs as [|b bs IH]; simpl; [done|].
  by destruct (bool_decide _).
Qed.

Lemma firstBoneNamed_None (name : string) (bs : list aiBone) :
  firstBoneNamed name bs = None <-> name ∉ map bone_mName bs.
Proof.
  unfold firstBoneNamed. induction bs as [|b bs IH]; simpl.
  - split; [intros _ Hin; by apply elem_of_nil in Hin | done].
  - case_bool_decide as Hb.
    + split; [done|]. intros Hn. exfalso. apply Hn. rewrite Hb. by left.
    + rewrite IH. split.
      * intros Hn Hin. apply elem_of_cons in Hin as [->|Hin]; done.
      * intros Hn Hin. apply Hn. by right.
Qed.

Lemma first_offsets_step (bs : list aiBone) (bone : aiBone) (m m' : Model) (boneIndex : N) :
  first_offsets bs m ->
  registerBone bone m = Ok (boneIndex, m') ->
  first_offsets (bs ++ [bone]) m'.
Proof.
  intros HJ H Hroom. rewrite length_app in Hroom. simpl in Hroom.
  destruct HJ as (Hlen & Hcount & Hdom & Hoff); [lia|].
  unfold registerBone in H.
  destruct (boneMapping m !! bone_mName bone) as [i|] eqn:E.
  - injection H as _ <-. rewrite length_app. simpl. split; [lia|]. split; [done|]. split.
    + intros name. rewrite Hdom, map_app, elem_of_app. simpl. split; [by left|].
      intros [Hin|Hin]; [done|]. apply list_elem_of_singleton in Hin as ->.
      apply Hdom. by eexists.
    + intros name j Hj. destruct (Hoff name j Hj) as (b0 & Hb0 & Hm).
      exists b0. rewrite firstBoneNamed_app, Hb0. done.
  - inv_bind H as b. injection H_r as <- <-. simpl.
    apply at_index_Ok in H_l.
    assert (Hidx : N.to_nat (bonesCount m) = length (boneMatrices m)) by lia.
    rewrite Hidx in H_l |- *.
    rewrite lookup_app_r in H_l by lia. rewrite Nat.sub_diag in H_l. injection H_l as <-.
    rewrite length_insert, !length_app. simpl. split; [lia|]. split.
    { unfold uint_wrap. rewrite N.mod_small by lia. lia. }
    split.
    + intros name. rewrite map_app, elem_of_app. simpl.
      destruct (decide (name = bone_mName bone)) as [->|Hne].
      * rewrite lookup_insert_eq. split; [|by eexists].
        intros _. right. by apply list_elem_of_singleton.
      * rewrite lookup_insert_ne by done. rewrite Hdom. split; [by left|].
        intros [Hin|Hin]; [done|]. by apply list_elem_of_singleton in Hin.
    + intros name j. destruct (decide (name = bone_mName bone)) as [->|Hne].
      * rewrite lookup_insert_eq. intros [= <-]. exists bone.
        rewrite firstBoneNamed_app.
        assert (firstBoneNamed (bone_mName bone) bs = None) as ->.
        { apply firstBoneNamed_None. rewrite <- Hdom, E. by intros [? ?]. }
        unfold firstBoneNamed. simpl. rewrite bool_decide_eq_true_2 by done.
        split; [done|]. rewrite Hidx.
        rewrite list_lookup_insert_eq by (rewrite length_app; simpl; lia). done.
      * rewrite lookup_insert_ne by done. intros Hj.
        destruct (Hoff name j Hj) as (b0 & Hb0 & Hm).
        exists b0. rewrite firstBoneNamed_app, Hb0. split; [done|].
        pose proof (lookup_lt_Some _ _ _ Hm) as Hlt.
        rewrite list_lookup_insert_ne by lia.
        by rewrite lookup_app_l by lia.
Qed.

(** X11.  After a scene has been loaded into a model whose registry was
    empty, and as long as the meshes hold fewer than [2^32] bones, the
    bone count is the number of bone matrices, the names bound are those
    of the bones of the scene's meshes, and the matrix of a name holds the
    offset of the first bone of that name, in the order the meshes are
    built, and the zero matrix as final transformation; the offsets of
    later bones of the same name are not used. *)
Theorem bone_offset_is_first_binding (sc : aiScene) (m m' : Model) (w w' : World) :
  bonesCount m = 0%N ->
  boneMapping m = ∅ ->
  boneMatrices m = [] ->
  (N.of_nat (length (boundBones sc)) < 2 ^ 32)%N ->
  InitFromScene sc m w = Ok (m', w') ->
  bonesCount m' = N.of_nat (length (boneMatrices m')) /\
  (forall name, is_Some (boneMapping m' !! name) <-> name ∈ map bone_mName (boundBones sc)) /\
  forall name i, boneMapping m' !! name = Some i ->
    exists bone,
      firstBoneNamed name (boundBones sc) = Some bone /\
      boneMatrices m' !! N.to_nat i
      = Some (MkBoneMatrix (mat4Convert (mOffsetMatrix bone)) (mat4_diag float_zero)).
Proof.
  intros Hcount Hmap Hmat Hroom H.
  apply (InitFromScene_invariant first_offsets) with (bs := []) in H.
  - simpl in H. destruct (H Hroom) as (_ & ? & ? & ?). done.
  - intros bs m1 m2 Hst HJ Hr. unfold bonesState in Hst. injection Hst as Hc Hm Hb.
    rewrite <- Hc, <- Hm, <- Hb. by apply HJ.
  - intros bs bone m0 boneIndex m0'. apply first_offsets_step.
  - intros _. rewrite Hcount, Hmap, Hmat. simpl. split; [done|]. split; [done|]. split.
    + intros name. rewrite lookup_empty. split; [by intros [? ?]|].
      intros Hin. by apply elem_of_nil in Hin.
    + intros name i. by rewrite lookup_empty.
Qed.

End LoadedRegistry.

(** *** Loading: properties that every step of the construction keeps *)

Section LoadFrame.
Context {glm : GLM} {assimp : AssimpMath} {platform : Platform}.

(** A property of the model and the world that binding a bone, loading a
    texture and appending a mesh maintain. *)
Variable Q : Model -> World -> Prop.
Hypothesis Q_bone :
  forall bone m boneIndex m' w,
    Q m w -> registerBone bone m = Ok (boneIndex, m') -> Q m' w.
Hypothesis Q_texture :
  forall typeName acc m w str acc' m' w',
    Q m w -> loadMaterialTexture typeName (acc, m, w) str = (acc', m', w') -> Q m' w'.
Hypothesis Q_meshes :
  forall ms m w, Q m w -> Q (set_meshes ms m) w.

Lemma processBones_keeps (bones : list aiBone) :
  forall m m' vs vs' w,
    Q m w -> processBones bones m vs = Ok (m', vs') -> Q m' w.
Proof.
  unfold processBones.
  induction bones as [|bone rest IH]; intros m m' vs vs' w HQ H; simpl in H.
  - by injection H as <- _.
  - inv_bind H as [m1 vs1]. unfold processBone in H_l.
    inv_bind H_l as [boneIndex m1']. inv_bind H_l_r as vs1'.
    injection H_l_r_r as <- <-.
    eapply IH; [|exact H_r]. by eapply Q_bone.
Qed.

Lemma loadMaterialTextures_keeps (mat : aiMaterial) (type : aiTextureType)
    (typeName : string) (m m' : Model) (w w' : World) (ts : list Texture) :
  Q m w -> loadMaterialTextures mat type typeName m w = (ts, m', w') -> Q m' w'.
Proof.
  unfold loadMaterialTextures. generalize (@nil Texture) as acc.
  revert m w. induction (GetTextures mat type) as [|str strs IH];
    intros m w acc HQ H; cbn [fold_left] in H.
  - by injection H as _ <- <-.
  - destruct (loadMaterialTexture typeName (acc, m, w) str) as [[acc1 m1] w1] eqn:E.
    eapply IH; [|exact H]. by eapply Q_texture.
Qed.

Lemma processMesh_keeps (mesh : aiMesh) (m m' : Model) (w w' : World) (built : Mesh) :
  Q m w -> processMesh mesh m w = Ok (built, m', w') -> Q m' w'.
Proof.
  unfold processMesh. intros HQ H.
  inv_bind H as vs0. inv_bind H_r as [m1 vs].
  apply (processBones_keeps _ _ _ _ _ w HQ) in H_r_l.
  inv_bind H_r_r as sc. inv_bind H_r_r_r as mat.
  destruct (loadMaterialTextures mat aiTextureType_DIFFUSE _ m1 w) as [[t1 m2] w2] eqn:E1.
  destruct (loadMaterialTextures mat aiTextureType_SPECULAR _ m2 w2) as [[t2 m3] w3] eqn:E2.
  destruct (loadMaterialTextures mat aiTextureType_HEIGHT _ m3 w3) as [[t3 m4] w4] eqn:E3.
  destruct (loadMaterialTextures mat aiTextureType_EMISSIVE _ m4 w4) as [[t4 m5] w5] eqn:E4.
  injection H_r_r_r_r as <- <- <-.
  eapply loadMaterialTextures_keeps; [|exact E4].
  eapply loadMaterialTextures_keeps; [|exact E3].
  eapply loadMaterialTextures_keeps; [|exact E2].
  eapply loadMaterialTextures_keeps; [|exact E1]. done.
Qed.

Lemma processNodeMeshes_keeps (ms : list nat) :
  forall m m' w w',
    Q m w -> foldlM processNodeMesh ms (m, w) = Ok (m', w') -> Q m' w'.
Proof.
  induction ms as [|idx ms IH]; intros m m' w w' HQ H; simpl in H.
  - by injection H as <- <-.
  - inv_bind H as [m1 w1]. unfold processNodeMesh in H_l.
    inv_bind H_l as sc. inv_bind H_l_r as mesh.
    inv_bind H_l_r_r as [[built m2] w2]. injection H_l_r_r_r as <- <-.
    eapply IH; [|exact H_r]. apply Q_meshes. by eapply processMesh_keeps.
Qed.

Lemma processNode_keeps (node : aiNode) :
  forall m m' w w',
    Q m w -> processNode node (m, w) = Ok (m', w') -> Q m' w'.
Proof.
  induction node as [name t ms cs IHcs] using aiNode_induction.
  intros m m' w w' HQ H. simpl in H.
  inv_bind H as [m1 w1].
  pose proof (processNodeMeshes_keeps ms _ _ _ _ HQ H_l) as HQ1.
  clear H_l HQ. revert m1 w1 H_r HQ1.
  induction cs as [|c cs IH]; intros m1 w1 H HQ1.
  - by injection H as <- <-.
  - inv_bind H as [m2 w2]. apply Forall_cons in IHcs as [Hc Hcs].
    eapply IH; [done|exact H_r|]. by eapply Hc.
Qed.

End LoadFrame.

Section TextureCache.
Context {glm : GLM} {assimp : AssimpMath} {platform : Platform}.

Lemma find_loaded_app (l1 l2 : list Texture) (str : string) :
  find_loaded (l1 ++ l2) str
  = match find_loaded l1 str with
    | Some t => Some t
    | None => find_loaded l2 str
    end.
Proof.
  unfold find_loaded. induction l1 as [|t l1 IH]; simpl; [done|].
  by destruct (bool_decide _).
Qed.

Lemma find_loaded_None (l : list Texture) (str : string) :
  find_loaded l str = None <-> str ∉ map Path l.
Proof.
  unfold find_loaded. induction l as [|t l IH]; simpl.
  - split; [intros _ Hin; by apply elem_of_nil in Hin | done].
  - case_bool_decide as Ht.
    + split; [done|]. intros Hn. exfalso. apply Hn. rewrite Ht. by left.
    + rewrite IH. split.
      * intros Hn Hin. apply elem_of_cons in Hin as [->|Hin]; done.
      * intros Hn Hin. apply Hn. by right.
Qed.

Lemma TextureFromFile_names (filename directory : string) (w : World) :
  (TextureFromFile filename directory w).1 = glGenTexture (gl_names w) /\
  gl_names (TextureFromFile filename directory w).2
  = glGenTexture (gl_names w) :: gl_names w.
Proof. unfold TextureFromFile. by destruct (stbi_load _). Qed.

(** One iteration of the loop over the paths of a material. *)
Lemma loadMaterialTexture_step (typeName : string) (acc acc' : list Texture)
    (m m' : Model) (w w' : World) (str : string) :
  loadMaterialTexture typeName (acc, m, w) str = (acc', m', w') ->
  exists t,
    acc' = acc ++ [t] /\ Path t = str /\
    find_loaded (loadedTextures m') str = Some t /\
    m' = set_loadedTextures (loadedTextures m') m /\
    ((find_loaded (loadedTextures m) str = Some t /\ m' = m /\ w' = w) \/
     (find_loaded (loadedTextures m) str = None /\
      loadedTextures m' = loadedTextures m ++ [t] /\
      t = MkTexture (glGenTexture (gl_names w)) typeName str /\
      w' = (TextureFromFile str (directory m) w).2)).
Proof.
  unfold loadMaterialTexture.
  destruct (find_loaded (loadedTextures m) str) as [t|] eqn:E.
  - intros H. injection H as <- <- <-. exists t.
    split; [done|]. split; [by eapply find_loaded_Path|]. split; [done|].
    split; [by destruct m|]. by left.
  - pose proof (TextureFromFile_names str (directory m) w) as [Hid Hnames].
    destruct (TextureFromFile str (directory m) w) as [id w1]. simpl in Hid, Hnames.
    intros H. injection H as <- <- <-. subst id.
    eexists. split; [done|]. split; [done|]. simpl.
    split.
    { rewrite find_loaded_app, E. unfold find_loaded. simpl.
      by rewrite bool_decide_eq_true_2. }
    split; [done|]. by right.
Qed.

(** X12.  The texture cache while the textures of one kind of a material
    are loaded.  The cache only grows, by records of the requested kind
    for pairwise different paths that were not cached, and one texture
    name is generated for each of them; a path that was cached keeps its
    record; and every record handed to the mesh is the cache's record for
    its path, so a path cached under another kind comes back with the
    kind and the texture name it was first loaded with. *)
Theorem texture_cache_grows (mat : aiMaterial) (type : aiTextureType)
    (typeName : string) (m m' : Model) (w w' : World) (ts : list Texture) :
  loadMaterialTextures mat type typeName m w = (ts, m', w') ->
  (exists new,
     loadedTextures m' = loadedTextures m ++ new /\
     Forall (fun t => TexType t = typeName /\
                      find_loaded (loadedTextures m) (Path t) = None) new /\
     NoDup (map Path new) /\
     length (gl_names w') = length new + length (gl_names w)) /\
  (forall str t0,
     find_loaded (loadedTextures m) str = Some t0 ->
     find_loaded (loadedTextures m') str = Some t0) /\
  (forall t, t ∈ ts -> find_loaded (loadedTextures m') (Path t) = Some t).
Proof.
  unfold loadMaterialTextures.
  assert (Hfold : forall strs acc mc wc new,
    loadedTextures mc = loadedTextures m ++ new ->
    Forall (fun t => TexType t = typeName /\
                     find_loaded (loadedTextures m) (Path t) = None) new ->
    NoDup (map Path new) ->
    length (gl_names wc) = length new + length (gl_names w) ->
    (forall t, t ∈ acc -> find_loaded (loadedTextures mc) (Path t) = Some t) ->
    fold_left (loadMaterialTexture typeName) strs (acc, mc, wc) = (ts, m', w') ->
    exists new',
      loadedTextures m' = loadedTextures m ++ new' /\
      Forall (fun t => TexType t = typeName /\
                       find_loaded (loadedTextures m) (Path t) = None) new' /\
      NoDup (map Path new') /\
      length (gl_names w') = length new' + length (gl_names w) /\
      (forall t, t ∈ ts -> find_loaded (loadedTextures m') (Path t) = Some t)).
  { induction strs as [|str strs IH]; intros acc mc wc new Hl Hall Hnd Hn Hacc H;
      cbn [fold_left] in H.
    - injection H as <- <- <-. exists new. done.
    - destruct (loadMaterialTexture typeName (acc, mc, wc) str) as [[acc1 m1] w1] eqn:E.
      destruct (loadMaterialTexture_step _ _ _ _ _ _ _ _ E)
        as (t & -> & Hp & Hfind & _ & [(Hc & -> & ->)|(Hc & Hl1 & Ht & ->)]).
      + apply (IH _ _ _ new) in H; try done.
        intros t' Ht'. apply elem_of_app in Ht' as [Ht'|Ht']; [by apply Hacc|].
        apply list_elem_of_singleton in Ht' as ->. by rewrite Hp.
      + rewrite Hl, find_loaded_app in Hc.
        destruct (find_loaded (loadedTextures m) str) eqn:E0; [discriminate|].
        apply (IH _ _ _ (new ++ [t])) in H; try done.
        * by rewrite Hl1, Hl, <- app_assoc.
        * apply Forall_app. split; [done|]. constructor; [|done].
          rewrite Hp. split; [by subst t | done].
        * rewrite map_app. simpl. apply NoDup_app. split; [done|]. split.
          -- intros p Hin Hin'. apply list_elem_of_singleton in Hin'. subst p.
             rewrite Hp in Hin. by apply find_loaded_None in Hc.
          -- apply NoDup_singleton.
        * destruct (TextureFromFile_names str (directory mc) wc) as [_ ->].
          rewrite length_app. simpl. lia.
        * intros t' Ht'. apply elem_of_app in Ht' as [Ht'|Ht'].
          -- rewrite Hl1, find_loaded_app. by rewrite (Hacc _ Ht').
          -- apply list_elem_of_singleton in Ht' as ->. by rewrite Hp. }
  intros H.
  destruct (Hfold (GetTextures mat type) [] m w []) as (new & Hl & Hall & Hnd & Hn & Hts);
    try done.
  { by rewrite app_nil_r. }
  { apply NoDup_nil_2. }
  { intros t Ht. by apply elem_of_nil in Ht. }
  split; [by exists new|]. split; [|done].
  intros str t0 H0. by rewrite Hl, find_loaded_app, H0.
Qed.

(** X13.  Over a whole load the cache holds each path once and one
    texture name is generated per record: if the paths of the cache are
    pairwise different before [InitFromScene], they are afterwards, and
    the number of texture names in use has grown by the number of records
    the cache has gained. *)
Theorem load_reads_each_texture_once (sc : aiScene) (m m' : Model) (w w' : World) :
  NoDup (map Path (loadedTextures m)) ->
  InitFromScene sc m w = Ok (m', w') ->
  NoDup (map Path (loadedTextures m')) /\
  length (loadedTextures m) <= length (loadedTextures m') /\
  length (gl_names w') - length (gl_names w)
  = length (loadedTextures m') - length (loadedTextures m).
Proof.
  intros Hnd H. unfold InitFromScene in H. inv_bind H as m1.
  assert (Hm1 : loadedTextures m1 = loadedTextures m).
  { destruct (scene_HasAnimations sc); [|by injection H_l as <-].
    inv_bind H_l as anim. destruct (negb _); by injection H_l_r as <-. }
  set (Q := fun (mc : Model) (wc : World) =>
         NoDup (map Path (loadedTextures mc)) /\
         length (loadedTextures m) <= length (loadedTextures mc) /\
         length (gl_names wc) + length (loadedTextures m)
         = length (gl_names w) + length (loadedTextures mc)).
  assert (HQ : Q m' w').
  { eapply (processNode_keeps Q); [ | | | |exact H_r]; unfold Q.
    - intros bone m0 boneIndex m0' w0 HQ0 Hreg. unfold registerBone in Hreg.
      destruct (boneMapping m0 !! bone_mName bone); [by injection Hreg as _ <-|].
      inv_bind Hreg as b. by injection Hreg_r as _ <-.
    - intros typeName acc m0 w0 str acc' m0' w0' (Hnd0 & Hle0 & Hn0) Hstep.
      destruct (loadMaterialTexture_step _ _ _ _ _ _ _ _ Hstep)
        as (t & _ & Hp & _ & _ & [(_ & -> & ->)|(Hc & -> & _ & ->)]); [done|].
      destruct (TextureFromFile_names str (directory m0) w0) as [_ ->].
      rewrite map_app, length_app. simpl. split; [|split; lia].
      apply NoDup_app. split; [done|]. split; [|apply NoDup_singleton].
      intros p Hin Hin'. apply list_elem_of_singleton in Hin'. subst p.
      rewrite Hp in Hin. by apply find_loaded_None in Hc.
    - done.
    - rewrite Hm1. split; [done|]. split; lia. }
  destruct HQ as (? & ? & ?). split; [done|]. split; [done|]. lia.
Qed.

End TextureCache.

(** *** Mesh construction: geometry, and when it returns *)

Section MeshBuild.
Context {glm : GLM} {assimp : AssimpMath} {platform : Platform}.

(** The vertex loop, vertex by vertex. *)
Lemma processVertices_lookup (mesh : aiMesh) (ps : list aiVector3D) :
  forall i vs,
    processVertices mesh i ps = Ok vs ->
    length vs = length ps /\
    forall k v, vs !! k = Some v ->
      exists p, ps !! k = Some p /\ processVertex mesh (i + k) p = Ok v.
Proof.
  induction ps as [|p ps IH]; intros i vs H; simpl in H.
  - injection H as <-. split; [done|]. intros k v Hk. by rewrite lookup_nil in Hk.
  - inv_bind H as v0. inv_bind H_r as vs'. injection H_r_r as <-.
    destruct (IH _ _ H_r_l) as [Hlen Hvs]. split; [simpl; by rewrite Hlen|].
    intros [|k] v Hk; simpl in Hk.
    + injection Hk as <-. exists p. by rewrite Nat.add_0_r.
    + destruct (Hvs _ _ Hk) as (p' & Hp' & Hv). exists p'. split; [done|].
      by rewrite Nat.add_succ_r.
Qed.

Lemma processVertices_total (mesh : aiMesh) (ps : list aiVector3D) :
  forall i,
    (forall k p, ps !! k = Some p -> exists v, processVertex mesh (i + k) p = Ok v) ->
    exists vs, processVertices mesh i ps = Ok vs.
Proof.
  induction ps as [|p ps IH]; intros i Hall; simpl; [by eauto|].
  destruct (Hall 0 p eq_refl) as [v Hv]. rewrite Nat.add_0_r in Hv. rewrite Hv. simpl.
  destruct (IH (S i)) as [vs ->]; [|simpl; by eauto].
  intros k p' Hk. destruct (Hall (S k) p' Hk) as [v' Hv'].
  exists v'. by rewrite Nat.add_succ_r in Hv'.
Qed.

(** What one iteration of the vertex loop needs, and what it stores. *)
Lemma processVertex_Ok (mesh : aiMesh) (i : nat) (p : aiVector3D) (v : Vertex) :
  mVertices mesh !! i = Some p ->
  (processVertex mesh i p = Ok v <->
   Position v = vec3Convert p /\
   BoneIDs v = BoneIDs (indeterminate_Vertex i) /\
   BoneWeights v = Vec4 float_zero float_zero float_zero float_zero /\
   match mNormals mesh with
   | Some normals => exists n, normals !! i = Some n /\ Normal v = vec3Convert n
   | None => Normal v = Normal (indeterminate_Vertex i)
   end /\
   match mTextureCoords0 mesh with
   | Some coords => exists c, coords !! i = Some c /\ TexCoords v = vec2Convert c
   | None => TexCoords v = Vec2 float_zero float_zero
   end).
Proof.
  intros Hp. unfold processVertex, HasNormals, vec3Convert, vec2Convert.
  assert (Hne : exists q qs, mVertices mesh = q :: qs).
  { destruct (mVertices mesh) as [|q qs]; [by rewrite lookup_nil in Hp | eauto]. }
  destruct Hne as (q & qs & ->).
  destruct (mNormals mesh) as [normals|], (mTextureCoords0 mesh) as [coords|]; simpl;
    unfold at_index;
    repeat match goal with
           | |- context [?l !! i] =>
               match l with
               | normals => destruct (normals !! i) as [n|] eqn:En
               | coords => destruct (coords !! i) as [c|] eqn:Ec
               end
           end; simpl; split;
    try discriminate;
    try (intros H; injection H as <-; simpl; repeat split; eauto; fail);
    try (intros (_ & _ & _ & [? [? _]] & _); discriminate);
    try (intros (_ & _ & _ & _ & [? [? _]]); discriminate);
    intros (HP & HI & HW & HN & HT); destruct v as [vp vn vt vi vw]; simpl in *;
    repeat match goal with
           | H : exists _, _ /\ _ |- _ => destruct H as (? & [= <-] & ?)
           end; by subst.
Qed.

(** Storing a weight leaves the geometry of the vertex alone. *)
Lemma storeWeight_geometry (boneIndex : N) (weight : float) (v : Vertex) :
  Position (storeWeight boneIndex weight v) = Position v /\
  Normal (storeWeight boneIndex weight v) = Normal v /\
  TexCoords (storeWeight boneIndex weight v) = TexCoords v.
Proof.
  unfold storeWeight. generalize 0 as g.
  induction NUM_BONES_PER_VERTEX as [|fuel IH]; intros g; simpl; [done|].
  destruct (weight_is_zero _); [done | apply IH].
Qed.

Lemma fold_storeWeight_geometry (rs : list (nat * N * float)) (v : Vertex) :
  let v' := fold_left (fun v r => storeWeight r.1.2 r.2 v) rs v in
  Position v' = Position v /\ Normal v' = Normal v /\ TexCoords v' = TexCoords v.
Proof.
  revert v. induction rs as [|r rs IH]; intros v; simpl; [done|].
  destruct (IH (storeWeight r.1.2 r.2 v)) as (-> & -> & ->).
  apply storeWeight_geometry.
Qed.

Lemma processMesh_indices (mesh : aiMesh) (m m' : Model) (w w' : World) (built : Mesh) :
  processMesh mesh m w = Ok (built, m', w') ->
  indices built = concat (map mIndices (mFaces mesh)).
Proof.
  unfold processMesh. intros H.
  inv_bind H as vs0. inv_bind H_r as [m1 vs].
  inv_bind H_r_r as sc. inv_bind H_r_r_r as mat.
  repeat match type of H_r_r_r_r with
         | context [loadMaterialTextures ?a ?b ?c ?d ?e] =>
             destruct (loadMaterialTextures a b c d e) as [[? ?] ?]
         end.
  by injection H_r_r_r_r as <- _ _.
Qed.

(** X14.  The geometry of a built mesh is the geometry of the imported
    one: as many vertices, in the same order, each with the position of
    its source vertex, with the normal and the first texture coordinate
    the source holds for it (the normal is left unassigned without a
    normal array, the texture coordinate is zero without a coordinate
    array), whatever the bones store in the vertex; the index list is the
    concatenation of the faces' indices. *)
Theorem mesh_geometry_is_copied (mesh : aiMesh) (m m' : Model) (w w' : World)
    (built : Mesh) :
  processMesh mesh m w = Ok (built, m', w') ->
  length (vertices built) = length (mVertices mesh) /\
  indices built = concat (map mIndices (mFaces mesh)) /\
  forall i v, vertices built !! i = Some v ->
    exists p,
      mVertices mesh !! i = Some p /\
      Position v = vec3Convert p /\
      match mNormals mesh with
      | Some normals => exists n, normals !! i = Some n /\ Normal v = vec3Convert n
      | None => Normal v = Normal (indeterminate_Vertex i)
      end /\
      match mTextureCoords0 mesh with
      | Some coords => exists c, coords !! i = Some c /\ TexCoords v = vec2Convert c
      | None => TexCoords v = Vec2 float_zero float_zero
      end.
Proof.
  intros H. pose proof (processMesh_indices _ _ _ _ _ _ H) as Hidx.
  destruct (processMesh_vertices _ _ _ _ _ _ H) as (vs0 & m1 & Hvs0 & Hbones).
  destruct (processBones_records _ _ _ _ _ Hbones) as (recs & _ & Hfold).
  destruct (foldlM_storeRecord _ _ _ Hfold) as [Hlen Hvid].
  destruct (processVertices_lookup _ _ _ _ Hvs0) as [Hlen0 Hvs].
  split; [congruence|]. split; [done|]. intros i v Hv.
  destruct (lookup_lt_is_Some_2 vs0 i) as [v0 Hv0].
  { rewrite <- Hlen. by eapply lookup_lt_Some. }
  rewrite (Hvid _ _ Hv0) in Hv. injection Hv as <-.
  destruct (Hvs _ _ Hv0) as (p & Hp & Hpv). simpl in Hpv.
  apply (processVertex_Ok _ _ _ _ Hp) in Hpv as (HP & _ & _ & HN & HT).
  destruct (fold_storeWeight_geometry (filter (fun r => r.1.1 = i) recs) v0)
    as (-> & -> & ->).
  exists p. done.
Qed.

(** The bone loop returns when the registry has room and every record
    names a vertex of the mesh. *)
Lemma processWeights_total (boneIndex : N) (ws : list aiVertexWeight) :
  forall vs,
    Forall (fun vw => mVertexId vw < length vs) ws ->
    exists vs', foldlM (processWeight boneIndex) ws vs = Ok vs' /\ length vs' = length vs.
Proof.
  induction ws as [|vw ws IH]; intros vs Hall; cbn [foldlM]; [by eauto|].
  apply Forall_cons in Hall as [Hvw Hall].
  destruct (lookup_lt_is_Some_2 vs (mVertexId vw) Hvw) as [v Hv].
  assert (processWeight boneIndex vs vw
          = Ok (<[mVertexId vw := storeWeight boneIndex (mWeight vw) v]> vs)) as ->.
  { unfold processWeight. cbv zeta. apply at_index_Ok in Hv. by rewrite Hv. }
  cbn [mbind result_bind].
  destruct (IH (<[mVertexId vw := storeWeight boneIndex (mWeight vw) v]> vs))
    as (vs' & -> & Hlen).
  { by rewrite length_insert. }
  exists vs'. by rewrite Hlen, length_insert.
Qed.

Lemma processWeights_Ok (boneIndex : N) (ws : list aiVertexWeight) :
  forall vs vs',
    foldlM (processWeight boneIndex) ws vs = Ok vs' ->
    length vs' = length vs /\ Forall (fun vw => mVertexId vw < length vs) ws.
Proof.
  induction ws as [|vw ws IH]; intros vs vs' H; simpl in H.
  - by injection H as <-.
  - inv_bind H as vs1. unfold processWeight in H_l. inv_bind H_l as v.
    apply at_index_Ok in H_l_l. injection H_l_r as <-.
    destruct (IH _ _ H_r) as [Hlen Hall]. rewrite length_insert in Hlen, Hall.
    split; [done|]. constructor; [by eapply lookup_lt_Some | done].
Qed.

Lemma processBones_returns (bones : list aiBone) :
  forall m vs,
    N.to_nat (bonesCount m) <= length (boneMatrices m) ->
    ((exists m' vs', processBones bones m vs = Ok (m', vs')) <->
     Forall (fun bone => Forall (fun vw => mVertexId vw < length vs) (mWeights bone)) bones).
Proof.
  unfold processBones.
  induction bones as [|bone rest IH]; intros m vs Hle; simpl.
  - split; [done | by eauto].
  - destruct (registerBone_total bone m Hle) as (boneIndex & m1 & Hreg & Hle1).
    unfold processBone at 1. rewrite Hreg. simpl. split.
    + intros (m' & vs' & H). inv_bind H as [m2 vs2]. inv_bind H_l as vs1.
      injection H_l_r as <- <-.
      apply processWeights_Ok in H_l_l as [Hlen Hall].
      constructor; [done|]. rewrite <- Hlen. apply (IH m1 vs1 Hle1). eauto.
    + intros Hall. apply Forall_cons in Hall as [Hb Hrest].
      destruct (processWeights_total boneIndex _ _ Hb) as (vs1 & -> & Hlen). simpl.
      apply (IH m1 vs1 Hle1). by rewrite Hlen.
Qed.

(** In the model the construction of a mesh returns exactly when the
    arrays of the mesh cover what it reads. *)
Lemma processMesh_returns (mesh : aiMesh) (sc : aiScene) (m : Model) (w : World) :
  scene m = Some sc ->
  N.to_nat (bonesCount m) <= length (boneMatrices m) ->
  ((exists built m' w', processMesh mesh m w = Ok (built, m', w')) <->
   mesh_in_bounds mesh sc).
Proof.
  unfold mesh_in_bounds. intros Hsc Hle. split.
  - intros (built & m' & w' & H).
    destruct (processMesh_vertices _ _ _ _ _ _ H) as (vs0 & m1 & Hvs0 & Hbones).
    destruct (processVertices_lookup _ _ _ _ Hvs0) as [Hlen0 Hvs].
    assert (Hcover : forall i, i < length (mVertices mesh) ->
              exists p v, mVertices mesh !! i = Some p /\ processVertex mesh i p = Ok v).
    { intros i Hi. destruct (lookup_lt_is_Some_2 vs0 i) as [v Hv]; [lia|].
      destruct (Hvs _ _ Hv) as (p & Hp & Hpv). eauto. }
    split; [|split; [|split]].
    + intros normals Hn. apply Nat.nlt_ge. intros Hlt.
      destruct (Hcover (length normals) Hlt) as (p & v & Hp & Hv).
      apply (processVertex_Ok _ _ _ _ Hp) in Hv as (_ & _ & _ & HN & _).
      rewrite Hn in HN. destruct HN as (n & Hn' & _).
      apply lookup_lt_Some in Hn'. lia.
    + intros coords Hc. apply Nat.nlt_ge. intros Hlt.
      destruct (Hcover (length coords) Hlt) as (p & v & Hp & Hv).
      apply (processVertex_Ok _ _ _ _ Hp) in Hv as (_ & _ & _ & _ & HT).
      rewrite Hc in HT. destruct HT as (c & Hc' & _).
      apply lookup_lt_Some in Hc'. lia.
    + rewrite <- Hlen0. apply (processBones_returns _ m vs0 Hle). eauto.
    + unfold processMesh in H. rewrite Hvs0 in H. simpl in H. rewrite Hbones in H.
      simpl in H. apply processBones_registry in Hbones as [Hsc1 _].
      unfold get_scene in H. rewrite Hsc1, Hsc in H. simpl in H.
      inv_bind H as mat. apply at_index_Ok in H_l. by eapply lookup_lt_Some.
  - intros (Hnormals & Hcoords & Hbones & Hmat).
    destruct (processVertices_total mesh (mVertices mesh) 0) as [vs0 Hvs0].
    { intros k p Hp. simpl.
      pose proof (lookup_lt_Some _ _ _ Hp) as Hk.
      assert (Hn : match mNormals mesh with
                   | Some normals => exists n, normals !! k = Some n
                   | None => True
                   end).
      { destruct (mNormals mesh) as [normals|] eqn:E; [|done].
        apply lookup_lt_is_Some_2. specialize (Hnormals _ eq_refl). lia. }
      assert (Hc : match mTextureCoords0 mesh with
                   | Some coords => exists c, coords !! k = Some c
                   | None => True
                   end).
      { destruct (mTextureCoords0 mesh) as [coords|] eqn:E; [|done].
        apply lookup_lt_is_Some_2. specialize (Hcoords _ eq_refl). lia. }
      eexists (MkVertex (vec3Convert p)
                 match mNormals mesh with
                 | Some normals => from_option vec3Convert (vec3Convert p) (normals !! k)
                 | None => Normal (indeterminate_Vertex k)
                 end
                 match mTextureCoords0 mesh with
                 | Some coords => from_option vec2Convert (Vec2 float_zero float_zero) (coords !! k)
                 | None => Vec2 float_zero float_zero
                 end
                 (BoneIDs (indeterminate_Vertex k))
                 (Vec4 float_zero float_zero float_zero float_zero)).
      apply (processVertex_Ok _ _ _ _ Hp). simpl. repeat split.
      - destruct (mNormals mesh); [|done]. destruct Hn as [n Hn]. exists n. by rewrite Hn.
      - destruct (mTextureCoords0 mesh); [|done]. destruct Hc as [c Hc]. exists c.
        by rewrite Hc. }
    destruct (processVertices_lookup _ _ _ _ Hvs0) as [Hlen0 _].
    destruct (proj2 (processBones_returns (mBones mesh) m vs0 Hle)) as (m1 & vs & Hb).
    { by rewrite Hlen0. }
    unfold processMesh. rewrite Hvs0. simpl. rewrite Hb. simpl.
    apply processBones_registry in Hb as [Hsc1 _].
    unfold get_scene. rewrite Hsc1, Hsc. simpl.
    destruct (lookup_lt_is_Some_2 _ _ Hmat) as [mat Hm].
    apply at_index_Ok in Hm. rewrite Hm. simpl.
    repeat match goal with
           | |- context [loadMaterialTextures ?a ?b ?c ?d ?e] =>
               destruct (loadMaterialTextures a b c d e) as [[? ?] ?]
           end.
    eauto.
Qed.

(** An access past the end of an array is the only way the construction
    of a mesh can go wrong once the scene is attached. *)
Lemma at_index_Fault {A : Type} (l : list A) (i : nat) (f : fault) :
  at_index l i = Fault f -> f = OutOfBounds.
Proof. unfold at_index. destruct (l !! i); [discriminate | by intros [= <-]]. Qed.

Lemma processVertices_Fault (mesh : aiMesh) (ps : list aiVector3D) :
  forall i f, processVertices mesh i ps = Fault f -> f = OutOfBounds.
Proof.
  induction ps as [|p ps IH]; intros i f H; simpl in H; [discriminate|].
  destruct (processVertex mesh i p) as [v|f0] eqn:Ev; simpl in H.
  - destruct (processVertices mesh (S i) ps) as [vs|f1] eqn:Evs; simpl in H; [discriminate|].
    injection H as <-. by eapply IH.
  - injection H as <-. unfold processVertex in Ev.
    destruct (HasNormals mesh).
    + destruct (at_index (default [] (mNormals mesh)) i) as [n|f1] eqn:En; simpl in Ev.
      * destruct (mTextureCoords0 mesh) as [coords|]; [|discriminate].
        destruct (at_index coords i) as [c|f2] eqn:Ec; simpl in Ev; [discriminate|].
        injection Ev as <-. by eapply at_index_Fault.
      * injection Ev as <-. by eapply at_index_Fault.
    + simpl in Ev. destruct (mTextureCoords0 mesh) as [coords|]; [|discriminate].
      destruct (at_index coords i) as [c|f2] eqn:Ec; simpl in Ev; [discriminate|].
      injection Ev as <-. by eapply at_index_Fault.
Qed.

Lemma processWeights_Fault (boneIndex : N) (ws : list aiVertexWeight) :
  forall vs f, foldlM (processWeight boneIndex) ws vs = Fault f -> f = OutOfBounds.
Proof.
  induction ws as [|vw ws IH]; intros vs f H; simpl in H; [discriminate|].
  destruct (processWeight boneIndex vs vw) as [vs1|f0] eqn:E; simpl in H.
  - by eapply IH.
  - injection H as <-. unfold processWeight in E.
    destruct (at_index vs (mVertexId vw)) as [v|f1] eqn:Ev; simpl in E; [discriminate|].
    injection E as <-. by eapply at_index_Fault.
Qed.

Lemma processBones_Fault (bones : list aiBone) :
  forall m vs f, processBones bones m vs = Fault f -> f = OutOfBounds.
Proof.
  unfold processBones.
  induction bones as [|bone rest IH]; intros m vs f H; cbn [foldlM] in H; [discriminate|].
  destruct (processBone (m, vs) bone) as [[m1 vs1]|f0] eqn:E; cbn [mbind result_bind] in H.
  - by eapply IH.
  - injection H as <-. unfold processBone in E.
    destruct (registerBone bone m) as [[boneIndex m1]|f1] eqn:Er; simpl in E.
    + destruct (foldlM (processWeight boneIndex) (mWeights bone) vs) as [vs1|f2] eqn:Ew;
        simpl in E; [discriminate|].
      injection E as <-. by eapply processWeights_Fault.
    + injection E as <-. unfold registerBone in Er.
      destruct (boneMapping m !! bone_mName bone); [discriminate|].
      destruct (at_index (boneMatrices m ++ [BoneMatrix_new]) (N.to_nat (bonesCount m)))
        as [b|f2] eqn:Eb; simpl in Er; [discriminate|].
      injection Er as <-. by eapply at_index_Fault.
Qed.

Lemma processMesh_Fault (mesh : aiMesh) (sc : aiScene) (m : Model) (w : World) (f : fault) :
  scene m = Some sc ->
  processMesh mesh m w = Fault f -> f = OutOfBounds.
Proof.
  intros Hsc H. unfold processMesh in H.
  destruct (processVertices mesh 0 (mVertices mesh)) as [vs0|f0] eqn:Ev; simpl in H;
    [|injection H as <-; by eapply processVertices_Fault].
  destruct (processBones (mBones mesh) m vs0) as [[m1 vs]|f1] eqn:Eb; simpl in H;
    [|injection H as <-; by eapply processBones_Fault].
  apply processBones_registry in Eb as [Hsc1 _].
  unfold get_scene in H. rewrite Hsc1, Hsc in H. simpl in H.
  destruct (at_index (mMaterials sc) (mMaterialIndex mesh)) as [mat|f2] eqn:Em; simpl in H;
    [|injection H as <-; by eapply at_index_Fault].
  repeat match type of H with
         | context [loadMaterialTextures ?a ?b ?c ?d ?e] =>
             destruct (loadMaterialTextures a b c d e) as [[? ?] ?]
         end.
  discriminate H.
Qed.

(** X15.  When the construction of a mesh returns.  In a model with a
    scene whose bone count does not exceed the number of its bone
    matrices, [processMesh] stays inside every array it indexes, and
    returns, when the normal array and the texture coordinate array, where
    present, cover the vertices, every skinning record of every bone names
    a vertex of the mesh, and the material index is inside the scene's
    materials; what the files on disk hold plays no role.  When one of
    these fails, the run indexes an array past its end, at [mNormals[i]],
    [mTextureCoords[0][i]], [vertices[vertexID]] or
    [mMaterials[mMaterialIndex]], none of which the source checks. *)
Theorem mesh_build_returns (mesh : aiMesh) (sc : aiScene) (m : Model) (w : World) :
  scene m = Some sc ->
  N.to_nat (bonesCount m) <= length (boneMatrices m) ->
  (mesh_in_bounds mesh sc ->
   exists built m' w', processMesh mesh m w = Ok (built, m', w')) /\
  (~ mesh_in_bounds mesh sc -> processMesh mesh m w = Fault OutOfBounds).
Proof.
  intros Hsc Hle. split.
  - apply (processMesh_returns mesh sc m w Hsc Hle).
  - intros Hout.
    destruct (processMesh mesh m w) as [[[built m'] w']|f] eqn:E.
    + destruct Hout. apply (processMesh_returns mesh sc m w Hsc Hle). rewrite E. eauto.
    + f_equal. by eapply processMesh_Fault.
Qed.

End MeshBuild.

(** *** Loading: the members it sets and the meshes it builds *)

Section Load.
Context {glm : GLM} {assimp : AssimpMath} {platform : Platform}.

(** X16.  The members a load sets.  When [InitFromScene] returns, the
    scene is attached; the directory, the current clip index and
    [animDuration] are as before; and the [ticksPerSecond] member is the
    rate of the clip that was current when the load started, converted to
    [float], or 25 when that rate is zero or the scene has no clip. *)
Theorem load_members (sc : aiScene) (m m' : Model) (w w' : World) :
  InitFromScene sc m w = Ok (m', w') ->
  scene m' = Some sc /\
  directory m' = directory m /\
  currentAnimation m' = currentAnimation m /\
  animDuration m' = animDuration m /\
  ticksPerSecond m'
  = match mAnimations sc !! N.to_nat (currentAnimation m) with
    | Some anim =>
        if deq (mTicksPerSecond anim) (to_double float_zero)
        then float_25
        else to_float (mTicksPerSecond anim)
    | None => float_25
    end.
Proof.
  intros H. destruct (InitFromScene_registry _ _ _ _ _ H) as [Hsc _].
  split; [done|]. unfold InitFromScene in H. inv_bind H as m1.
  set (tps := match mAnimations sc !! N.to_nat (currentAnimation m) with
              | Some anim =>
                  if deq (mTicksPerSecond anim) (to_double float_zero)
                  then float_25
                  else to_float (mTicksPerSecond anim)
              | None => float_25
              end).
  set (Q := fun (mc : Model) (_ : World) =>
         directory mc = directory m /\ currentAnimation mc = currentAnimation m /\
         animDuration mc = animDuration m /\ ticksPerSecond mc = tps).
  assert (HQ1 : Q m1 w).
  { unfold Q, tps, scene_HasAnimations in *. simpl in H_l.
    destruct (mAnimations sc) as [|a0 rest] eqn:E.
    - injection H_l as <-. simpl. done.
    - inv_bind H_l as anim. apply at_index_Ok in H_l_l. rewrite H_l_l.
      destruct (deq (mTicksPerSecond anim) (to_double float_zero));
        simpl in H_l_r; by injection H_l_r as <-. }
  assert (HQ : Q m' w').
  { eapply (processNode_keeps Q); [ | | |exact HQ1|exact H_r]; unfold Q.
    - intros bone m0 boneIndex m0' w0 HQ0 Hreg. unfold registerBone in Hreg.
      destruct (boneMapping m0 !! bone_mName bone); [by injection Hreg as _ <-|].
      inv_bind Hreg as b. by injection Hreg_r as _ <-.
    - intros typeName acc m0 w0 str acc' m0' w0' HQ0 Hstep.
      destruct (loadMaterialTexture_step _ _ _ _ _ _ _ _ Hstep)
        as (t & _ & _ & _ & -> & _). done.
    - done. }
  destruct HQ as (? & ? & ? & ?). done.
Qed.

Lemma processMesh_positions (mesh : aiMesh) (m m' : Model) (w w' : World) (built : Mesh) :
  processMesh mesh m w = Ok (built, m', w') ->
  map Position (vertices built) = map vec3Convert (mVertices mesh).
Proof.
  intros H.
  destruct (processMesh_vertices _ _ _ _ _ _ H) as (vs0 & m1 & Hvs0 & Hbones).
  destruct (processBones_records _ _ _ _ _ Hbones) as (recs & _ & Hfold).
  destruct (foldlM_storeRecord _ _ _ Hfold) as [Hlen Hvid].
  destruct (processVertices_lookup _ _ _ _ Hvs0) as [Hlen0 Hvs].
  apply list_eq. intros i. rewrite !list_lookup_fmap.
  destruct (vs0 !! i) as [v0|] eqn:Hv0.
  - rewrite (Hvid _ _ Hv0). simpl.
    destruct (Hvs _ _ Hv0) as (p & -> & Hpv). simpl in *.
    destruct (fold_storeWeight_geometry (filter (fun r => r.1.1 = i) recs) v0) as (-> & _).
    unfold processVertex in Hpv. inv_bind Hpv as n. inv_bind Hpv_r as c.
    by injection Hpv_r_r as <-.
  - apply lookup_ge_None in Hv0.
    rewrite (proj2 (lookup_ge_None (vertices built) i)) by lia.
    by rewrite (proj2 (lookup_ge_None (mVertices mesh) i)) by lia.
Qed.

(** The meshes a run of the mesh loop and of the recursion appends. *)
Lemma processNodeMeshes_built (sc : aiScene) (ms : list nat) :
  forall m m' w w',
    scene m = Some sc ->
    foldlM processNodeMesh ms (m, w) = Ok (m', w') ->
    scene m' = Some sc /\
    exists built,
      meshes m' = meshes m ++ built /\
      Forall2 (fun idx b =>
                 exists mesh m0 w0 m1 w1,
                   scene_mMeshes sc !! idx = Some mesh /\
                   processMesh mesh m0 w0 = Ok (b, m1, w1)) ms built.
Proof.
  induction ms as [|idx ms IH]; intros m m' w w' Hsc H; simpl in H.
  - injection H as <- <-. split; [done|]. exists []. by rewrite app_nil_r.
  - inv_bind H as [m1 w1]. unfold processNodeMesh in H_l.
    inv_bind H_l as sc'. unfold get_scene in H_l_l. rewrite Hsc in H_l_l.
    injection H_l_l as <-.
    inv_bind H_l_r as mesh. apply at_index_Ok in H_l_r_l.
    inv_bind H_l_r_r as [[b m2] w2]. injection H_l_r_r_r as <- <-.
    pose proof (processMesh_registry _ _ _ _ _ _ H_l_r_r_l) as [Hsc2 _].
    destruct (IH (set_meshes (meshes m2 ++ [b]) m2) m' w2 w') as (Hsc' & built & Hm & Hall);
      [simpl; congruence | done |].
    split; [done|]. exists (b :: built). split.
    + rewrite Hm. simpl. rewrite <- app_assoc. simpl. f_equal.
      clear -H_l_r_r_l. unfold processMesh in H_l_r_r_l.
      inv_bind H_l_r_r_l as vs0. inv_bind H_l_r_r_l_r as [mb vs].
      assert (Hb : meshes mb = meshes m).
      { clear -H_l_r_r_l_r_l. unfold processBones in *.
        revert m vs0 H_l_r_r_l_r_l.
        induction (mBones mesh) as [|bone rest IHb]; intros m vs0 H; simpl in H.
        - by injection H as <- _.
        - inv_bind H as [mx vx]. unfold processBone in H_l.
          inv_bind H_l as [i my]. inv_bind H_l_r as vy. injection H_l_r_r as <- <-.
          rewrite (IHb _ _ H_r). unfold registerBone in H_l_l.
          destruct (boneMapping m !! bone_mName bone); [by injection H_l_l as _ <-|].
          inv_bind H_l_l as bm. by injection H_l_l_r as _ <-. }
      inv_bind H_l_r_r_l_r_r as sc0. inv_bind H_l_r_r_l_r_r_r as mat.
      assert (Ht : forall type typeName ma wa ts mz wz,
                loadMaterialTextures mat type typeName ma wa = (ts, mz, wz) ->
                meshes mz = meshes ma).
      { clear. intros type typeName ma wa ts mz wz. unfold loadMaterialTextures.
        generalize (@nil Texture) as acc. revert ma wa.
        induction (GetTextures mat type) as [|str strs IHs]; intros ma wa acc H;
          cbn [fold_left] in H.
        - by injection H as _ <- _.
        - destruct (loadMaterialTexture typeName (acc, ma, wa) str) as [[acc1 m1] w1] eqn:E.
          rewrite (IHs _ _ _ H).
          apply loadMaterialTexture_step in E as (t & _ & _ & _ & -> & _). done. }
      destruct (loadMaterialTextures mat aiTextureType_DIFFUSE _ mb w) as [[t1 mc] wc] eqn:E1.
      destruct (loadMaterialTextures mat aiTextureType_SPECULAR _ mc wc) as [[t2 md] wd] eqn:E2.
      destruct (loadMaterialTextures mat aiTextureType_HEIGHT _ md wd) as [[t3 me] we] eqn:E3.
      destruct (loadMaterialTextures mat aiTextureType_EMISSIVE _ me we) as [[t4 mf] wf] eqn:E4.
      apply Ht in E1, E2, E3, E4.
      injection H_l_r_r_l_r_r_r_r as _ <- _. congruence.
    + constructor; [|done]. by exists mesh, m, w, m2, w2.
Qed.

Lemma processNode_built (sc : aiScene) (node : aiNode) :
  forall m m' w w',
    scene m = Some sc ->
    processNode node (m, w) = Ok (m', w') ->
    scene m' = Some sc /\
    exists built,
      meshes m' = meshes m ++ built /\
      Forall2 (fun idx b =>
                 exists mesh m0 w0 m1 w1,
                   scene_mMeshes sc !! idx = Some mesh /\
                   processMesh mesh m0 w0 = Ok (b, m1, w1))
              (nodeMeshIndices node) built.
Proof.
  induction node as [name t ms cs IHcs] using aiNode_induction.
  intros m m' w w' Hsc H. simpl in H.
  inv_bind H as [m1 w1].
  destruct (processNodeMeshes_built sc ms _ _ _ _ Hsc H_l) as (Hsc1 & built1 & Hm1 & Hall1).
  assert (Hchildren : scene m' = Some sc /\
    exists built,
      meshes m' = meshes m1 ++ built /\
      Forall2 (fun idx b =>
                 exists mesh m0 w0 m1 w1,
                   scene_mMeshes sc !! idx = Some mesh /\
                   processMesh mesh m0 w0 = Ok (b, m1, w1))
              ((fix children (cs : list aiNode) : list nat :=
                  match cs with
                  | [] => []
                  | c :: cs' => nodeMeshIndices c ++ children cs'
                  end) cs) built).
  { clear H_l Hm1 Hall1 Hsc. revert m1 w1 Hsc1 H_r.
    induction cs as [|c cs IH]; intros m1 w1 Hsc1 H.
    - injection H as <- <-. split; [done|]. exists []. by rewrite app_nil_r.
    - inv_bind H as [m2 w2]. apply Forall_cons in IHcs as [Hc Hcs].
      destruct (Hc _ _ _ _ Hsc1 H_l) as (Hsc2 & b2 & Hm2 & Hall2).
      destruct (IH Hcs _ _ Hsc2 H_r) as (Hsc' & b3 & Hm3 & Hall3).
      split; [done|]. exists (b2 ++ b3). split.
      + by rewrite Hm3, Hm2, <- app_assoc.
      + by apply Forall2_app. }
  destruct Hchildren as (Hsc' & built2 & Hm2 & Hall2).
  split; [done|]. exists (built1 ++ built2). split.
  - by rewrite Hm2, Hm1, <- app_assoc.
  - simpl. by apply Forall2_app.
Qed.

(** X17.  The meshes a load builds.  [InitFromScene] appends one mesh
    for every mesh index met in the traversal of the node tree, in that
    order, a node's own meshes before those of its children; a scene mesh
    that several nodes refer to is built once for each of them.  Each
    built mesh has the positions and the face indices of the scene mesh
    it comes from. *)
Theorem load_builds_meshes_in_node_order (sc : aiScene) (m m' : Model) (w w' : World) :
  InitFromScene sc m w = Ok (m', w') ->
  exists built,
    meshes m' = meshes m ++ built /\
    length built = length (nodeMeshIndices (mRootNode sc)) /\
    forall i idx,
      nodeMeshIndices (mRootNode sc) !! i = Some idx ->
      exists mesh b,
        scene_mMeshes sc !! idx = Some mesh /\
        built !! i = Some b /\
        map Position (vertices b) = map vec3Convert (mVertices mesh) /\
        indices b = concat (map mIndices (mFaces mesh)).
Proof.
  intros H. unfold InitFromScene in H. inv_bind H as m1.
  assert (scene m1 = Some sc /\ meshes m1 = meshes m) as [Hsc Hm1].
  { destruct (scene_HasAnimations sc); [|by injection H_l as <-].
    inv_bind H_l as anim. destruct (negb _); by injection H_l_r as <-. }
  destruct (processNode_built sc _ _ _ _ _ Hsc H_r) as (_ & built & Hm & Hall).
  exists built. split; [by rewrite Hm, Hm1|].
  split; [symmetry; by eapply Forall2_length|].
  intros i idx Hidx.
  destruct (Forall2_lookup_l _ _ _ _ _ Hall Hidx)
    as (b & Hb & mesh & m0 & w0 & m2 & w2 & Hmesh & Hbuilt).
  exists mesh, b. split; [done|]. split; [done|].
  split; [by eapply processMesh_positions | by eapply processMesh_indices].
Qed.

End Load.

(** *** Drawing: the sampler each texture is bound to *)

Section Drawing.
Context {glm : GLM} {assimp : AssimpMath} {platform : Platform}.







End Drawing.

(** *** The application: loading a file and choosing a clip *)

Section ApplicationProperties.
Context {glm : GLM} {assimp : AssimpMath} {platform : Platform}.

Lemma find_last_of_split (c : ascii) (s : string) :
  match find_last_of c s with
  | Some i =>
      exists file,
        s = String.substring 0 i s +:+ String c file /\
        find_last_of c file = None /\
        String.length (String.substring 0 i s) = i
  | None => True
  end.
Proof.
  induction s as [|a s IH]; simpl; [done|].
  destruct (find_last_of c s) as [i|] eqn:E.
  - destruct IH as (file & Hs & Hfile & Hlen). exists file.
    split; [|split; [done|]].
    + change (String a s = String a (String.substring 0 i s +:+ String c file)).
      by rewrite <- Hs.
    + change (S (String.length (String.substring 0 i s)) = S i). by rewrite Hlen.
  - case_bool_decide as Ha; [|done]. subst a. exists s. done.
Qed.

Lemma InitFromScene_directory (sc : aiScene) (m m' : Model) (w w' : World) :
  InitFromScene sc m w = Ok (m', w') -> directory m' = directory m.
Proof.
  intros H. unfold InitFromScene in H. inv_bind H as m1.
  assert (Hm1 : directory m1 = directory m).
  { destruct (scene_HasAnimations sc); [|by injection H_l as <-].
    inv_bind H_l as anim. destruct (negb _); by injection H_l_r as <-. }
  eapply (processNode_keeps (fun mc _ => directory mc = directory m));
    [ | | |exact Hm1|exact H_r].
  - intros bone m0 boneIndex m0' w0 HQ0 Hreg. unfold registerBone in Hreg.
    destruct (boneMapping m0 !! bone_mName bone); [by injection Hreg as _ <-|].
    inv_bind Hreg as b. by injection Hreg_r as _ <-.
  - intros typeName acc m0 w0 str acc' m0' w0' HQ0 Hstep.
    destruct (loadMaterialTexture_step _ _ _ _ _ _ _ _ Hstep)
      as (t & _ & _ & _ & -> & _). done.
  - done.
Qed.

(** X19.  The directory of a loaded model is the path of the file up to
    its last slash, without that slash, and what follows the slash holds
    no slash; for a path without a slash the directory is the whole
    path, file name included. *)
Theorem directory_is_path_up_to_last_slash
    (path : string) (sc : aiScene) (error : string) (w w' : World) (m : Model) :
  LoadModelFromFilename path (Scene sc) error w = Ok (m, w') ->
  scene m = Some sc /\
  match find_last_of "/" path with
  | Some i =>
      exists file,
        path = directory m +:+ "/" +:+ file /\
        find_last_of "/" file = None /\
        String.length (directory m) = i
  | None => directory m = path
  end.
Proof.
  unfold LoadModelFromFilename, SetDirectory. intros H.
  pose proof (InitFromScene_directory _ _ _ _ _ H) as Hdir. simpl in Hdir.
  apply InitFromScene_registry in H as [Hsc _]. split; [done|].
  rewrite Hdir. pose proof (find_last_of_split "/" path) as Hsplit.
  destruct (find_last_of "/" path) as [i|]; simpl; [|done].
  destruct Hsplit as (file & Hs & Hfile & Hlen). exists file. done.
Qed.

(** X20.  A failed import is reported and nothing else: when the importer
    returns no scene, an incomplete scene or a scene without a root node,
    [LoadModelFromFilename] returns the model as constructed, with no
    scene, and writes one line to the console; the first query of the
    render loop on that model stops at the null pointer. *)
Theorem failed_import_leaves_model_unloaded
    (path : string) (read : imported) (error : string) (w : World) :
  (forall sc, read <> Scene sc) ->
  LoadModelFromFilename path read error w
  = Ok (Model_new, MkWorld (gl_names w) (gl_images w)
                     (console w ++ ["ERROR::ASSIMP: " +:+ error])) /\
  scene Model_new = None /\
  HasAnimations Model_new = Fault NullPointer /\
  (forall currentFrame, SetBoneTransformations currentFrame Model_new = Fault NullPointer).
Proof.
  intros Hread. unfold LoadModelFromFilename.
  destruct read as [| | |sc]; try done. by destruct (Hread sc).
Qed.

(** X21.  Key 1 steps through the clips.  With a scene of [n] clips,
    [0 < n < 2^32], and a counter below [n]: a frame in which key 1 is
    seen pressed for the first time moves the counter to the next clip,
    back to 0 after the last one, makes it the model's current clip and
    changes nothing else in the model; further frames with the key held
    change nothing; a frame with the key released re-arms it. *)
Theorem key_1_selects_next_clip (a : App) (sc : aiScene) :
  scene (app_model a) = Some sc ->
  (0 < N.of_nat (length (mAnimations sc)) < 2 ^ 32)%N ->
  (app_currentAnimation a < N.of_nat (length (mAnimations sc)))%N ->
  let n := N.of_nat (length (mAnimations sc)) in
  let next := ((app_currentAnimation a + 1) mod n)%N in
  (animationChanged a = false ->
   ProcessInput false true a
   = Ok (MkApp (set_currentAnimation next (app_model a)) next true (windowShouldClose a))) /\
  (animationChanged a = true -> ProcessInput false true a = Ok a) /\
  ProcessInput false false a
  = Ok (MkApp (app_model a) (app_currentAnimation a) false (windowShouldClose a)).
Proof.
  intros Hsc Hn Hc n next. unfold ProcessInput. simpl.
  split; [|split].
  - intros ->. simpl. unfold SetAnimation, GetNumAnimations, get_scene.
    rewrite Hsc. simpl. fold n.
    assert (Hpred : uint_wrap (n + 2 ^ 32 - 1) = (n - 1)%N).
    { unfold uint_wrap. replace (n + 2 ^ 32 - 1)%N with ((n - 1) + 1 * 2 ^ 32)%N by lia.
      rewrite N.Div0.mod_add. apply N.mod_small. lia. }
    rewrite Hpred.
    destruct (app_currentAnimation a <? n - 1)%N eqn:E.
    + apply N.ltb_lt in E.
      assert (Hnext : uint_wrap (app_currentAnimation a + 1) = next).
      { unfold uint_wrap, next. rewrite !N.mod_small by lia. done. }
      rewrite Hnext.
      assert (next < n)%N by (unfold next; apply N.mod_lt; lia).
      rewrite (proj2 (N.leb_le 0 next)) by lia.
      rewrite (proj2 (N.ltb_lt next n)) by done. done.
    + apply N.ltb_ge in E.
      assert (Hnext : next = 0%N).
      { unfold next. replace (app_currentAnimation a + 1)%N with n by lia.
        apply N.Div0.mod_same. }
      rewrite Hnext. simpl.
      rewrite (proj2 (N.ltb_lt 0 n)) by lia. done.
  - intros ->. simpl. by destruct a.
  - done.
Qed.

(** X22.  Without clips key 1 only moves the application's counter: on a
    scene with no clip each first press adds one to the counter, up to
    [2^32 - 1], while the model's current clip stays what it was, so the
    two no longer agree. *)
Theorem key_1_without_clips (a : App) (sc : aiScene) :
  scene (app_model a) = Some sc ->
  mAnimations sc = [] ->
  animationChanged a = false ->
  (app_currentAnimation a < 2 ^ 32 - 1)%N ->
  ProcessInput false true a
  = Ok (MkApp (app_model a) (app_currentAnimation a + 1) true (windowShouldClose a)).
Proof.
  intros Hsc Hnone Hflag Hc.
  assert (Hnum : GetNumAnimations (app_model a) = Ok 0%N).
  { unfold GetNumAnimations, get_scene. rewrite Hsc. simpl. by rewrite Hnone. }
  assert (Hset : forall x, SetAnimation x (app_model a) = Ok (app_model a)).
  { intros x. unfold SetAnimation. rewrite Hnum. simpl.
    by rewrite (proj2 (N.ltb_ge x 0)), andb_false_r by lia. }
  unfold ProcessInput. cbv zeta. rewrite Hflag. cbn [negb andb].
  rewrite Hnum. cbn [mbind result_bind]. rewrite Hset. cbn [mbind result_bind].
  change (uint_wrap (0 + 2 ^ 32 - 1)) with (2 ^ 32 - 1)%N.
  rewrite (proj2 (N.ltb_lt _ _) Hc).
  unfold uint_wrap. by rewrite N.mod_small by lia.
Qed.

End ApplicationProperties.

(** ** The properties on the fixture *)

Module Examples.
Import Fixture.
#[local] Existing Instance symbolic_glm.
#[local] Existing Instance linear_assimp.
#[local] Existing Instance test_platform.

(** The arm has two clips: index 2 is ignored, index 1 is selected. *)
Lemma SetAnimation_guard_witness :
  SetAnimation 2 arm_model = Ok arm_model /\
  SetAnimation 1 arm_model = Ok (set_currentAnimation 1 arm_model).
Proof.
  destruct (SetAnimation_guard arm_model arm 2 eq_refl) as [Hout _].
  destruct (SetAnimation_guard arm_model arm 1 eq_refl) as [_ Hin].
  split.
  - apply Hout. vm_compute. discriminate.
  - apply Hin. reflexivity.
Defined.

(** Five records arrive for the one vertex of [crowded_mesh]: the first
    goes to slot 0 of the empty vertex, the first four are kept, and the
    full vertex they leave drops the next record. *)
Lemma influence_slots_first_empty_witness :
  exists built m' w' v,
    processMesh crowded_mesh arm_model blank = Ok (built, m', w') /\
    vertices built !! 0 = Some v /\
    slots v = [(0%Z, float_lit 1 (-1)); (1%Z, float_lit 1 (-2));
               (2%Z, float_lit 1 (-3)); (3%Z, float_lit 1 (-4))] /\
    storeWeight 0 (float_lit 1 (-1)) zero_Vertex
    = fill_slot 0 0 (float_lit 1 (-1)) zero_Vertex /\
    storeWeight 4 (float_lit 1 (-5)) v = v.
Proof.
  destruct influence_slots_first_empty as (Hfirst & Hfull & Hmesh).
  edestruct (Hmesh crowded_mesh arm_model blank) as (recs & Hrecs & Hv).
  { vm_compute. reflexivity. }
  vm_compute in Hrecs. injection Hrecs as <-.
  edestruct (Hv 0) as [_ Hslots]; [reflexivity|].
  eexists _, _, _, _. split; [vm_compute; reflexivity|]. split; [reflexivity|].
  split; [|split].
  - rewrite Hslots; [reflexivity|]. repeat constructor.
  - apply Hfirst; [vm_compute; lia | reflexivity | intros g' Hg'; lia].
  - apply Hfull. intros g Hg.
    destruct g as [|[|[|[|g]]]]; [reflexivity..|vm_compute in Hg; lia].
Defined.

(** The first mesh of the arm, built where the memory of a new [Vertex]
    reads as sevens: one record arrives for vertex 0, for bone 0 with
    weight 1, and the three slots behind it hold bone index 7, not 0. *)
Lemma unused_slots_hold_unassigned_index_witness :
  exists built m' w' v,
    processMesh (platform := stale_platform) arm_mesh arm_model blank = Ok (built, m', w') /\
    vertices built !! 0 = Some v /\
    slot v 0 = (0%Z, lit 1) /\
    slot v 1 = (7%Z, float_zero) /\
    slot v 2 = (7%Z, float_zero) /\
    slot v 3 = (7%Z, float_zero).
Proof.
  destruct (processMesh (platform := stale_platform) arm_mesh arm_model blank)
    as [[[built m'] w']|f] eqn:E; [|vm_compute in E; discriminate].
  destruct (unused_slots_hold_unassigned_index (platform := stale_platform) _ _ _ _ _ _ E)
    as (recs & Hrecs & Hv).
  vm_compute in Hrecs. injection Hrecs as <-.
  assert (Hv0 : exists v, vertices built !! 0 = Some v /\ slot v 0 = (0%Z, lit 1)).
  { vm_compute in E. injection E as <- <- <-. eexists. split; reflexivity. }
  destruct Hv0 as (v & Hv0 & Hslot0).
  exists built, m', w', v. split; [reflexivity|]. split; [exact Hv0|].
  split; [exact Hslot0|].
  split; [|split].
  - apply (Hv 0 v 1 Hv0). vm_compute. lia.
  - apply (Hv 0 v 2 Hv0). vm_compute. lia.
  - apply (Hv 0 v 3 Hv0). vm_compute. lia.
Defined.

(** On [haunted_mesh] the record of weight zero for bone 1 is overwritten
    by the record for bone 2. *)
Lemma nonzero_weights_form_prefix_witness :
  exists built m' w' v vs0,
    processMesh haunted_mesh arm_model blank = Ok (built, m', w') /\
    Forall contiguous (vertices built) /\
    vertices built !! 0 = Some v /\
    storeWeight 2 (lit 1) (storeWeight 1 float_zero zero_Vertex) = v /\
    processVertices haunted_mesh 0 (mVertices haunted_mesh) = Ok vs0 /\
    Forall contiguous vs0 /\
    Forall contiguous (<[0 := storeWeight 1 float_zero zero_Vertex]> vs0).
Proof.
  destruct nonzero_weights_form_prefix as (Hinit & Hstep & Hmesh & Hzero).
  edestruct (Hmesh haunted_mesh arm_model blank) as [Hc _].
  { vm_compute. reflexivity. }
  assert (Hvs0 : processVertices haunted_mesh 0 (mVertices haunted_mesh) = Ok [zero_Vertex])
    by reflexivity.
  pose proof (Hinit _ _ _ _ Hvs0) as Hc0.
  eexists _, _, _, _, _. split; [vm_compute; reflexivity|]. split; [exact Hc|].
  split; [reflexivity|]. split; [|split; [exact Hvs0|split; [exact Hc0|]]].
  - destruct (Hzero 1%N float_zero 2%N (lit 1) zero_Vertex eq_refl) as [_ ->].
    reflexivity.
  - apply (Hstep 1%N [zero_Vertex] (AiVertexWeight 0 float_zero)); [exact Hc0 | reflexivity].
Defined.

(** The arm binds "upper", "lower", "lower" again and "hand"; on a new
    model the bone "upper" gets index 0. *)
Lemma bone_binding_idempotent_witness :
  exists m' w' m1,
    arm_loaded = Ok (m', w') /\
    bonesCount m' = 3%N /\
    boneMapping m' !! "upper" = Some 0%N /\
    boneMapping m' !! "lower" = Some 1%N /\
    boneMapping m' !! "hand" = Some 2%N /\
    registerBone upper_bone Model_new = Ok (0%N, m1) /\
    registerBone upper_bone m1 = Ok (0%N, m1).
Proof.
  destruct bone_binding_idempotent as (Hbind & Htotal & Hload).
  destruct arm_loaded as [[m' w']|f] eqn:E; [|vm_compute in E; discriminate].
  destruct (Htotal upper_bone Model_new) as (i0 & m1 & Hreg & _); [vm_compute; lia|].
  destruct (Hbind _ _ _ _ Hreg) as (_ & Hagain & _ & Hnew).
  rewrite (Hnew eq_refl) in Hreg, Hagain.
  exists m', w', m1. split; [done|].
  destruct (Hload arm (SetDirectory "assets" Model_new) blank m' w' eq_refl eq_refl E)
    as (Hcount & _ & Hmap).
  { vm_compute. reflexivity. }
  split; [rewrite Hcount; vm_compute; reflexivity|].
  split; [apply Hmap; reflexivity|].
  split; [apply Hmap; reflexivity|].
  split; [apply Hmap; reflexivity|].
  split; [exact Hreg | exact Hagain].
Defined.



(** One frame of the arm at one second: the duration member goes from 0
    to 30, the time stamp of the last position key of channel 0 of the
    clip [wave]; the clip index and the bone count stay. *)
Lemma boneTransform_frame_witness :
  exists transforms m' channel0 lastKey,
    boneTransform (lit 1) arm_ready = Ok (transforms, m') /\
    animDuration arm_ready = ticks 0 /\
    mChannels wave !! 0 = Some channel0 /\
    last (mPositionKeys channel0) = Some lastKey /\
    vk_mTime lastKey = ticks 30 /\
    animDuration m' = vk_mTime lastKey /\
    currentAnimation m' = 0%N /\
    bonesCount m' = 3%N /\
    map BoneOffset (boneMatrices m') = map BoneOffset (boneMatrices arm_ready).
Proof.
  destruct (boneTransform (lit 1) arm_ready) as [[transforms m']|f] eqn:E;
    [|vm_compute in E; discriminate].
  destruct (boneTransform_frame _ _ _ _ E)
    as ((sc & animation & channel0 & lastKey & Hsc & Hanim & Hch & Hlast & Hd & _)
        & _ & _ & _ & _ & _ & _ & Hclip & Hcount & _ & Hoffsets).
  vm_compute in Hsc. injection Hsc as <-.
  vm_compute in Hanim. injection Hanim as <-.
  exists transforms, m', channel0, lastKey. split; [reflexivity|]. split; [reflexivity|].
  split; [exact Hch|]. split; [exact Hlast|].
  split; [vm_compute in Hch; injection Hch as <-; vm_compute in Hlast;
          injection Hlast as <-; reflexivity|].
  split; [exact Hd|].
  split; [rewrite Hclip; reflexivity|].
  split; [rewrite Hcount; reflexivity | exact Hoffsets].
Defined.

(** The claim of C5 as stated: evaluation changes nothing but the final
    transformations.  The first frame of the arm changes [animDuration]. *)
Lemma boneTransform_changes_animDuration :
  ~ (forall timeInSeconds m transforms m',
       boneTransform timeInSeconds m = Ok (transforms, m') -> finals_only m m').
Proof.
  intros Hclaim.
  destruct (boneTransform (lit 1) arm_ready) as [[transforms m']|f] eqn:E;
    [|vm_compute in E; discriminate].
  destruct (Hclaim _ _ _ _ E) as [Hm _].
  assert (Hd : animDuration m' = animDuration arm_ready) by (rewrite Hm; reflexivity).
  vm_compute in E. injection E as <- <-.
  vm_compute in Hd. discriminate Hd.
Qed.

(** Clip 0 of the arm: channel 0 ends at tick 30 and channel 1 at tick 40;
    the duration is 30. *)
Lemma effective_duration_is_channel0_witness :
  exists transforms m' channel1 key1,
    boneTransform (lit 1) arm_ready = Ok (transforms, m') /\
    animDuration m' = ticks 30 /\
    mChannels wave !! 1 = Some channel1 /\
    last (mPositionKeys channel1) = Some key1 /\
    vk_mTime key1 = ticks 40.
Proof.
  destruct (boneTransform (lit 1) arm_ready) as [[transforms m']|f] eqn:E;
    [|vm_compute in E; discriminate].
  destruct (effective_duration_is_channel0 _ _ _ _ E)
    as (sc & animation & channel0 & lastKey & Hsc & Hanim & Hch & Hlast & Hd & _).
  vm_compute in Hsc. injection Hsc as <-.
  vm_compute in Hanim. injection Hanim as <-.
  vm_compute in Hch. injection Hch as <-.
  vm_compute in Hlast. injection Hlast as <-.
  eexists transforms, m', _, _. split; [reflexivity|]. split; [exact Hd|].
  split; [reflexivity|]. split; reflexivity.
Defined.



(** Duration 30, with the quotient taken in [float] as well: the product
    rounds to 30.0000019, above the duration, and the animation time is
    [2^-19]. *)
Example zero_rate_wrap_float_quotient :
  fdiv (lit 30) float_25 = to_float (ddiv (ticks 30) (double_lit 25 0)) /\
  wrapTime (fmul (fdiv (lit 30) float_25) float_25) (ticks 30) = float_lit 1 (-19).
Proof. split; reflexivity. Qed.

(** One frame of the arm at one second, that is at tick 25: the bone
    "upper" (index 0) is a child of the root, its position is interpolated
    between ticks 0 and 30, and its final transformation is
    [inverse(root) * ((identity * root) * (T * R * S)) * offset]. *)
Lemma node_transforms_compose_witness :
  let upper_local :=
    T_mul
      (T_mul
         (T_translate (T_diag float_one)
            (Vec3 (lit 0) (lit 0) (fmul (fdiv (lit 25) (lit 30)) (lit 2))))
         (T_toMat4 (Quat (lit 1) (lit 0) (lit 0) (lit 0))))
      (T_scale (T_diag float_one) (Vec3 (lit 1) (lit 1) (lit 1))) in
  let root_global := T_mul (T_diag float_one) (T_transpose (T_make raise16)) in
  exists transforms m' b m1,
    boneTransform (lit 1) arm_ready = Ok (transforms, m') /\
    globalInverseTransform arm_ready = T_inverse (T_transpose (T_make raise16)) /\
    nodeTransformation wave (lit 25) upper_node = Ok upper_local /\
    boneMatrices m' !! 0 = Some b /\
    BoneOffset b = T_transpose (T_make identity16) /\
    FinalTransformation b
    = T_mul (T_mul (T_inverse (T_transpose (T_make raise16)))
                   (T_mul root_global upper_local))
            (T_transpose (T_make identity16)) /\
    transforms !! 0 = Some (FinalTransformation b) /\
    writeFinalTransformation "upper" root_global arm_ready = Ok m1 /\
    boneMatrices m1 !! 0
    = Some (MkBoneMatrix (T_transpose (T_make identity16))
              (T_mul (T_mul (globalInverseTransform arm_ready) root_global)
                     (T_transpose (T_make identity16)))).
Proof.
  intros upper_local root_global.
  destruct node_transforms_compose as (Hinit & Hlocal & Hwrite & Hrun & Hframe).
  destruct (boneTransform (lit 1) arm_ready) as [[transforms m']|f] eqn:E;
    [|vm_compute in E; discriminate].
  destruct (Hframe _ _ _ _ E) as (sc & animationTime & Hsc & Hread & Hts).
  vm_compute in Hsc. injection Hsc as <-.
  destruct (Hrun animationTime (mRootNode arm) (T_diag float_one)
              (set_animDuration (animDuration m') arm_ready) m' arm wave)
    as (local & below & _ & _ & _ & Hfinal);
    [vm_compute; reflexivity | vm_compute; reflexivity | exact Hread |].
  assert (Hinv : globalInverseTransform arm_ready
                 = T_inverse (T_transpose (T_make raise16))).
  { refine (Hinit arm (SetDirectory "assets" Model_new) blank arm_ready _ _).
    vm_compute. reflexivity. }
  assert (Hup : nodeTransformation wave (lit 25) upper_node = Ok upper_local)
    by (vm_compute; reflexivity).
  destruct (findNodeAnim wave (mName upper_node)) as [channel|] eqn:Ech;
    [|vm_compute in Ech; discriminate].
  destruct (Hlocal wave (lit 25) upper_node channel upper_local Ech Hup)
    as (scaling & rotationQ & translation & _ & _ & _ & _).
  destruct (writeFinalTransformation (glm := symbolic_glm) "upper" root_global arm_ready)
    as [m1|f] eqn:Ew;
    [|vm_compute in Ew; discriminate].
  destruct (Hwrite "upper" root_global arm_ready m1 0%N) as (b0 & Hb0 & Hb1);
    [vm_compute; reflexivity | exact Ew |].
  vm_compute in Hb0. injection Hb0 as <-.
  vm_compute in E. injection E as <- <-.
  eexists _, _, _, m1. split; [reflexivity|]. split; [exact Hinv|].
  split; [exact Hup|]. split; [reflexivity|]. split; [reflexivity|].
  split; [reflexivity|]. split; [reflexivity|]. split; [reflexivity | exact Hb1].
Defined.

(** Values of the floating-point layer: [fmod(5.5, 2) = 1.5],
    [fmod(-5.5, 2) = -1.5], [fmod(1, 3) = 1], [fmod(6, 3) = 0],
    [fmod(1, 0)] is NaN, and [(float)0.1] is not [0.1]. *)
Example dfmod_values :
  dfmod (double_lit 11 (-1)) (double_lit 2 0) = double_lit 3 (-1) /\
  dfmod (double_lit (-11) (-1)) (double_lit 2 0) = double_lit (-3) (-1) /\
  dfmod (double_lit 1 0) (double_lit 3 0) = double_lit 1 0 /\
  dfmod (double_lit 6 0) (double_lit 3 0) = double_zero /\
  dfmod (double_lit 1 0) double_zero = F64 S754_nan /\
  to_double (to_float (ddiv (double_lit 1 0) (double_lit 10 0)))
    <> ddiv (double_lit 1 0) (double_lit 10 0).
Proof. repeat split; try reflexivity. vm_compute. discriminate. Qed.

(** *** The further properties on the fixture *)

(** In clip 0 of the arm the node "lower" has channel 1, and no channel
    is named "hand". *)
Lemma findNodeAnim_first_match_witness :
  exists nodeAnim,
    mChannels wave !! 1 = Some nodeAnim /\
    findNodeAnim wave "lower" = Some nodeAnim /\
    findNodeAnim wave "hand" = None.
Proof.
  destruct (findNodeAnim_first_match wave "lower") as [Hsome _].
  destruct (findNodeAnim_first_match wave "hand") as [_ Hnone].
  eexists. split; [reflexivity|]. split.
  - apply Hsome. exists 1. split; [reflexivity|]. split; [reflexivity|].
    intros j other Hj Hother. destruct j as [|j]; [|lia].
    injection Hother as <-. discriminate.
  - apply Hnone. intros nodeAnim Hin. unfold wave in Hin. simpl in Hin.
    apply elem_of_cons in Hin as [->|Hin]; [discriminate|].
    apply elem_of_cons in Hin as [->|Hin]; [discriminate|].
    by apply elem_of_nil in Hin.
Defined.

(** At tick 5 the search in the position track of "lower", with keys at
    ticks 0 and 40, returns 0, and key 1 is above the time. *)
Lemma key_search_bracket_witness :
  exists nodeAnim,
    mChannels wave !! 1 = Some nodeAnim /\
    findPosition (lit 5) nodeAnim = Ok 0 /\
    exists k, mPositionKeys nodeAnim !! 1 = Some k /\ before (lit 5) (vk_mTime k) = true.
Proof.
  eexists. split; [reflexivity|].
  match goal with
  | |- findPosition _ ?na = _ /\ _ =>
      destruct (key_search_bracket (lit 5) na 0) as [[H _] _]
  end.
  assert (Hfind : findPosition (lit 5)
            (AiNodeAnim "lower"
               [AiVectorKey (ticks 0) (v3 0 1 0); AiVectorKey (ticks 40) (v3 0 1 4)]
               [AiQuatKey (ticks 0) unit_q; AiQuatKey (ticks 40) turn_q]
               [AiVectorKey (ticks 0) (v3 1 1 1); AiVectorKey (ticks 40) (v3 2 2 2)])
          = Ok 0) by (vm_compute; reflexivity).
  split; [exact Hfind|].
  destruct (H Hfind) as (k & Hk & Hb & _). exists k. split; assumption.
Defined.

(** A channel without keys, and the position track of "upper" at its last
    time stamp, tick 30. *)
Lemma key_search_faults_witness :
  findPosition (lit 5) (AiNodeAnim "bare" [] [] []) = Fault OutOfBounds /\
  findRotation (lit 5) (AiNodeAnim "bare" [] [] []) = Fault AssertionFailed /\
  exists nodeAnim,
    mChannels wave !! 0 = Some nodeAnim /\
    findPosition (lit 30) nodeAnim = Fault AssertionFailed.
Proof.
  destruct (key_search_faults (lit 5) (AiNodeAnim "bare" [] [] [])) as (Hp & Hr & _).
  split; [apply Hp; reflexivity|]. split; [apply Hr; reflexivity|].
  eexists. split; [reflexivity|].
  match goal with
  | |- findPosition _ ?na = _ =>
      destruct (key_search_faults (lit 30) na) as (_ & _ & _ & Hlater & _)
  end.
  apply Hlater; [discriminate|].
  constructor; [vm_compute; reflexivity | constructor].
Defined.

(** Channel "upper": the single scaling key is returned at any time, and
    the position at tick 15 is half way between the keys at ticks 0 and
    30. *)
Lemma sampler_result_witness :
  exists nodeAnim,
    mChannels wave !! 0 = Some nodeAnim /\
    calcInterpolatedScaling (lit 7) nodeAnim = Ok (v3 1 1 1) /\
    calcInterpolatedPosition (lit 15) nodeAnim = Ok (v3 0 0 1) /\
    exists i, findPosition (lit 15) nodeAnim = Ok i.
Proof.
  eexists. split; [reflexivity|].
  match goal with
  | |- calcInterpolatedScaling _ ?na = _ /\ _ =>
      destruct (sampler_result (lit 7) na) as (_ & _ & Hs);
      destruct (sampler_result (lit 15) na) as (Hp & _ & _)
  end.
  split.
  { apply Hs. left. eexists. split; reflexivity. }
  assert (Hpos : calcInterpolatedPosition (lit 15)
            (AiNodeAnim "upper"
               [AiVectorKey (ticks 0) (v3 0 0 0); AiVectorKey (ticks 30) (v3 0 0 2)]
               [AiQuatKey (ticks 0) unit_q]
               [AiVectorKey (ticks 0) (v3 1 1 1)])
          = Ok (v3 0 0 1)) by (vm_compute; reflexivity).
  split; [exact Hpos|].
  apply Hp in Hpos as [(k & Hk & _)|(_ & i & k0 & k1 & factor & Hi & _)];
    [discriminate Hk|].
  exists i. exact Hi.
Defined.

(** A channel without keys, and the position track of "upper" sampled at
    its last time stamp. *)
Lemma sampler_faults_witness :
  calcInterpolatedPosition (lit 5) (AiNodeAnim "bare" [] [] []) = Fault OutOfBounds /\
  exists nodeAnim,
    mChannels wave !! 0 = Some nodeAnim /\
    calcInterpolatedPosition (lit 30) nodeAnim = Fault AssertionFailed.
Proof.
  destruct (sampler_faults (lit 5) (AiNodeAnim "bare" [] [] [])) as (Hp & _).
  split; [apply Hp; reflexivity|].
  eexists. split; [reflexivity|].
  match goal with
  | |- calcInterpolatedPosition _ ?na = _ =>
      destruct (sampler_faults (lit 30) na) as (_ & _ & _ & Hlater & _)
  end.
  apply Hlater; [simpl; lia|].
  constructor; [vm_compute; reflexivity | constructor].
Defined.

(** The arm at one second: the node "lower" has a channel in clip 0, and
    its position track is not empty. *)
Lemma evaluation_samples_every_channel_witness :
  exists transforms m' nodeAnim,
    boneTransform (lit 1) arm_ready = Ok (transforms, m') /\
    findNodeAnim wave "lower" = Some nodeAnim /\
    mPositionKeys nodeAnim <> [].
Proof.
  destruct (boneTransform (lit 1) arm_ready) as [[transforms m']|f] eqn:E;
    [|vm_compute in E; discriminate].
  destruct (evaluation_samples_every_channel _ _ _ _ E)
    as (sc & animation & channel0 & lastKey & Hsc & Hanim & Hch & Hlast & Hall).
  assert (Hsc' : scene arm_ready = Some arm) by reflexivity.
  rewrite Hsc' in Hsc. injection Hsc as <-.
  assert (Hanim' : mAnimations arm !! N.to_nat (currentAnimation arm_ready) = Some wave)
    by reflexivity.
  rewrite Hanim' in Hanim. injection Hanim as <-.
  edestruct (Hall lower_node) as (_ & _ & _ & Hpos).
  - vm_compute. repeat constructor.
  - reflexivity.
  - eexists transforms, m', _. split; [reflexivity|]. split; [reflexivity|]. exact Hpos.
Defined.

(** The loaded arm has three bones, all named after nodes of the tree;
    its frame at one second returns three matrices, and writes the one of
    the bone "lower" at index 1. *)
Lemma boneTransform_returns_witness :
  registry_in_bounds arm_ready /\
  bonesCount arm_ready = 3%N /\
  boneMapping arm_ready !! "lower" = Some 1%N /\
  exists transforms m' b,
    boneTransform (lit 1) arm_ready = Ok (transforms, m') /\
    length transforms = 3 /\
    boneMatrices m' !! 1 = Some b /\
    transforms !! 1 = Some (FinalTransformation b) /\
    registry_in_bounds m'.
Proof.
  assert (Hin : registry_in_bounds arm_ready).
  { split; [apply Nat.leb_le; vm_compute; reflexivity|].
    intros name i Hi. apply Nat.ltb_lt.
    assert (Hcases : i = 0%N \/ i = 1%N \/ i = 2%N).
    { change (boneMapping arm_ready)
        with (<["hand" := 2%N]> (<["lower" := 1%N]> (<["upper" := 0%N]> (∅ : gmap string N))))
        in Hi.
      repeat (apply lookup_insert_Some in Hi as [[_ <-]|[_ Hi]]; [tauto|]).
      discriminate Hi. }
    destruct Hcases as [->|[->| ->]]; vm_compute; reflexivity. }
  split; [exact Hin|]. split; [reflexivity|]. split; [reflexivity|].
  destruct (boneTransform_returns (lit 1) arm_ready arm wave
              (AiNodeAnim "upper"
                 [AiVectorKey (ticks 0) (v3 0 0 0); AiVectorKey (ticks 30) (v3 0 0 2)]
                 [AiQuatKey (ticks 0) unit_q]
                 [AiVectorKey (ticks 0) (v3 1 1 1)])
              (AiVectorKey (ticks 30) (v3 0 0 2)) Hin)
    as (transforms & m' & Hrun & Hlen & Hts & Hin').
  - reflexivity.
  - reflexivity.
  - reflexivity.
  - reflexivity.
  - intros node Hnode. simpl in Hnode.
    apply elem_of_cons in Hnode as [->|Hnode]; [eexists; vm_compute; reflexivity|].
    apply elem_of_cons in Hnode as [->|Hnode]; [eexists; vm_compute; reflexivity|].
    apply elem_of_cons in Hnode as [->|Hnode]; [eexists; vm_compute; reflexivity|].
    apply elem_of_nil in Hnode. destruct Hnode.
  - assert (H1 : 1 < N.to_nat (bonesCount arm_ready)).
    { apply Nat.ltb_lt. vm_compute. reflexivity. }
    specialize (Hts 1 H1).
    destruct (boneMatrices m' !! 1) as [b|] eqn:Hb.
    + exists transforms, m', b. split; [exact Hrun|].
      split; [rewrite Hlen; vm_compute; reflexivity|].
      split; [exact Hb|]. split; [exact Hts | exact Hin'].
    + exfalso. cbn [fmap option_fmap option_map] in Hts.
      apply lookup_ge_None in Hts. rewrite Hlen in Hts.
      apply Nat.leb_le in Hts. vm_compute in Hts. discriminate Hts.
Defined.

(** Two frames of the arm at one second. *)
Lemma boneTransform_repeatable_witness :
  exists transforms m',
    boneTransform (lit 1) arm_ready = Ok (transforms, m') /\
    boneTransform (lit 1) m' = Ok (transforms, m').
Proof.
  destruct (boneTransform (lit 1) arm_ready) as [[transforms m']|f] eqn:E;
    [|vm_compute in E; discriminate].
  exists transforms, m'. split; [reflexivity|].
  exact (boneTransform_repeatable _ _ _ _ E).
Defined.

(** The arm has a bone "hand", index 2, and no node of that name: its
    final transformation is still the zero matrix after a frame. *)
Lemma unnamed_bone_keeps_final_witness :
  exists transforms m' b,
    boneTransform (lit 1) arm_ready = Ok (transforms, m') /\
    boneMatrices arm_ready !! 2 = Some b /\
    FinalTransformation b = mat4_diag float_zero /\
    boneMatrices m' !! 2 = Some b /\
    transforms !! 2 = Some (FinalTransformation b).
Proof.
  destruct (boneTransform (lit 1) arm_ready) as [[transforms m']|f] eqn:E;
    [|vm_compute in E; discriminate].
  destruct (unnamed_bone_keeps_final _ _ _ _ E) as (sc & Hsc & Hkeep).
  assert (Hsc' : scene arm_ready = Some arm) by reflexivity.
  rewrite Hsc' in Hsc. injection Hsc as <-.
  edestruct (Hkeep 2) as [Hb Hts].
  - reflexivity.
  - intros node Hnode. simpl in Hnode.
    apply elem_of_cons in Hnode as [->|Hnode]; [vm_compute; discriminate|].
    apply elem_of_cons in Hnode as [->|Hnode]; [vm_compute; discriminate|].
    apply elem_of_cons in Hnode as [->|Hnode]; [vm_compute; discriminate|].
    apply elem_of_nil in Hnode. destruct Hnode.
  - eexists transforms, m', _. split; [reflexivity|]. split; [reflexivity|].
    split; [reflexivity|]. split; [exact Hb|]. apply Hts.
    apply Nat.ltb_lt. vm_compute. reflexivity.
Defined.

(** A new model is in bounds, and so is the loaded arm. *)
Lemma load_keeps_registry_in_bounds_witness :
  registry_in_bounds (SetDirectory "assets" Model_new) /\
  exists m' w', arm_loaded = Ok (m', w') /\ registry_in_bounds m'.
Proof.
  assert (Hin : registry_in_bounds (SetDirectory "assets" Model_new)).
  { split; [simpl; lia|]. intros name i Hi. discriminate Hi. }
  split; [exact Hin|].
  destruct arm_loaded as [[m' w']|f] eqn:E; [|vm_compute in E; discriminate].
  exists m', w'. split; [reflexivity|].
  exact (load_keeps_registry_in_bounds _ _ _ _ _ Hin E).
Defined.

(** Both meshes of the arm have a bone "lower", with different offsets:
    the registry holds the offset of the first one. *)
Lemma bone_offset_is_first_binding_witness :
  exists m' w',
    arm_loaded = Ok (m', w') /\
    boneMapping m' !! "lower" = Some 1%N /\
    firstBoneNamed "lower" (boundBones arm) = Some lower_bone /\
    boneMatrices m' !! 1
    = Some (MkBoneMatrix (mat4Convert raise16) (mat4_diag float_zero)).
Proof.
  destruct arm_loaded as [[m' w']|f] eqn:E; [|vm_compute in E; discriminate].
  assert (Hm : m' = arm_ready) by (unfold arm_ready; rewrite E; reflexivity).
  destruct (bone_offset_is_first_binding arm (SetDirectory "assets" Model_new) m' blank w'
              eq_refl eq_refl eq_refl) as (_ & _ & Hoff).
  { vm_compute. reflexivity. }
  { exact E. }
  assert (Hlower : boneMapping m' !! "lower" = Some 1%N) by (rewrite Hm; reflexivity).
  destruct (Hoff _ _ Hlower) as (bone & Hbone & Hmat).
  assert (Hfirst : firstBoneNamed "lower" (boundBones arm) = Some lower_bone) by reflexivity.
  rewrite Hfirst in Hbone. injection Hbone as <-.
  exists m', w'. split; [reflexivity|]. split; [exact Hlower|].
  split; [exact Hfirst | exact Hmat].
Defined.

(** The diffuse texture of the arm's material: one record, one texture
    name, and the record is the cache's. *)
Lemma texture_cache_grows_witness :
  exists ts m' w',
    loadMaterialTextures skin aiTextureType_DIFFUSE "texture_diffuse"
      (SetDirectory "assets" arm_model) blank = (ts, m', w') /\
    length (gl_names w') = 1 /\
    forall t, t ∈ ts -> find_loaded (loadedTextures m') (Path t) = Some t.
Proof.
  destruct (loadMaterialTextures skin aiTextureType_DIFFUSE "texture_diffuse"
              (SetDirectory "assets" arm_model) blank) as [[ts m'] w'] eqn:E.
  destruct (texture_cache_grows _ _ _ _ _ _ _ _ E) as (_ & _ & Hts).
  exists ts, m', w'. split; [reflexivity|]. split; [|exact Hts].
  vm_compute in E. injection E as _ _ <-. reflexivity.
Defined.

(** The two meshes of the arm ask for the same two files: the cache holds
    two records and two texture names were generated. *)
Lemma load_reads_each_texture_once_witness :
  exists m' w',
    arm_loaded = Ok (m', w') /\
    NoDup (map Path (loadedTextures m')) /\
    length (loadedTextures m') = 2 /\
    length (gl_names w') = 2.
Proof.
  destruct arm_loaded as [[m' w']|f] eqn:E; [|vm_compute in E; discriminate].
  destruct (load_reads_each_texture_once arm (SetDirectory "assets" Model_new) m' blank w')
    as (Hnd & _ & Hnames).
  { apply NoDup_nil_2. }
  { exact E. }
  assert (Hm : m' = arm_ready) by (unfold arm_ready; rewrite E; reflexivity).
  assert (Hlen : length (loadedTextures m') = 2) by (rewrite Hm; reflexivity).
  exists m', w'. split; [reflexivity|]. split; [exact Hnd|]. split; [exact Hlen|].
  rewrite Hlen in Hnames. simpl in Hnames. lia.
Defined.

(** The first mesh of the arm: three vertices and one triangle. *)
Lemma mesh_geometry_is_copied_witness :
  exists built m' w',
    processMesh arm_mesh (SetDirectory "assets" arm_model) blank = Ok (built, m', w') /\
    length (vertices built) = 3 /\
    indices built = [0; 1; 2]%N.
Proof.
  destruct (processMesh arm_mesh (SetDirectory "assets" arm_model) blank)
    as [[[built m'] w']|f] eqn:E; [|vm_compute in E; discriminate].
  destruct (mesh_geometry_is_copied _ _ _ _ _ _ E) as (Hlen & Hidx & _).
  exists built, m', w'. split; [reflexivity|]. split; [exact Hlen | exact Hidx].
Defined.

(** The first mesh of the arm is built; [stray_mesh], whose record names
    vertex 1 of one vertex, is not: the store goes past the vertex array. *)
Lemma mesh_build_returns_witness :
  mesh_in_bounds arm_mesh arm /\
  (exists built m' w',
     processMesh arm_mesh (SetDirectory "assets" arm_model) blank = Ok (built, m', w')) /\
  ~ mesh_in_bounds stray_mesh arm /\
  processMesh stray_mesh (SetDirectory "assets" arm_model) blank = Fault OutOfBounds.
Proof.
  assert (Hin : mesh_in_bounds arm_mesh arm).
  { split; [discriminate|]. split; [discriminate|]. split.
    - repeat (constructor; try (simpl; lia)).
    - simpl. lia. }
  assert (Hout : ~ mesh_in_bounds stray_mesh arm).
  { intros (_ & _ & Hbones & _).
    apply Forall_cons in Hbones as [Hhip _].
    apply Forall_cons in Hhip as [Hrec _]. simpl in Hrec. lia. }
  destruct (mesh_build_returns arm_mesh arm (SetDirectory "assets" arm_model) blank)
    as [Hfrom _]; [reflexivity | simpl; lia |].
  destruct (mesh_build_returns stray_mesh arm (SetDirectory "assets" arm_model) blank)
    as [_ Hpast]; [reflexivity | simpl; lia |].
  split; [exact Hin|]. split; [exact (Hfrom Hin)|]. split; [exact Hout | exact (Hpast Hout)].
Defined.

(** The arm is loaded with clip 0 current; the clip has no rate. *)
Lemma load_members_witness :
  exists m' w',
    arm_loaded = Ok (m', w') /\
    scene m' = Some arm /\
    directory m' = "assets" /\
    ticksPerSecond m' = float_25.
Proof.
  destruct arm_loaded as [[m' w']|f] eqn:E; [|vm_compute in E; discriminate].
  destruct (load_members _ _ _ _ _ E) as (Hsc & Hdir & _ & _ & Htps).
  exists m', w'. split; [reflexivity|]. split; [exact Hsc|]. split; [exact Hdir|].
  exact Htps.
Defined.

(** The arm's root has mesh 0 and the node "lower" has mesh 1. *)
Lemma load_builds_meshes_in_node_order_witness :
  exists m' w' b,
    arm_loaded = Ok (m', w') /\
    length (meshes m') = 2 /\
    meshes m' !! 1 = Some b /\
    map Position (vertices b) = map vec3Convert (mVertices hand_mesh).
Proof.
  destruct arm_loaded as [[m' w']|f] eqn:E; [|vm_compute in E; discriminate].
  destruct (load_builds_meshes_in_node_order _ _ _ _ _ E) as (built & Hm & Hlen & Hall).
  destruct (Hall 1 1 eq_refl) as (mesh & b & Hmesh & Hb & Hpos & _).
  injection Hmesh as <-. simpl in Hm. subst built.
  exists m', w', b. split; [reflexivity|]. split; [exact Hlen|]. split; [exact Hb | exact Hpos].
Defined.


(** The file of main.cpp. *)
Lemma directory_is_path_up_to_last_slash_witness :
  exists m w' file,
    LoadModelFromFilename "../assets/zombie.fbx" (Scene arm) "" blank = Ok (m, w') /\
    "../assets/zombie.fbx" = directory m +:+ "/" +:+ file /\
    String.length (directory m) = 9.
Proof.
  destruct (LoadModelFromFilename "../assets/zombie.fbx" (Scene arm) "" blank)
    as [[m w']|f] eqn:E; [|vm_compute in E; discriminate].
  destruct (directory_is_path_up_to_last_slash _ _ _ _ _ _ E) as [_ Hsplit].
  assert (Hf : find_last_of "/" "../assets/zombie.fbx" = Some 9) by reflexivity.
  rewrite Hf in Hsplit. destruct Hsplit as (file & Hpath & _ & Hlen).
  exists m, w', file. split; [reflexivity|]. split; [exact Hpath | exact Hlen].
Defined.

(** The importer finds no file. *)
Lemma failed_import_leaves_model_unloaded_witness :
  LoadModelFromFilename "missing.fbx" NoScene "Unable to open file" blank
  = Ok (Model_new, MkWorld [] [] ["ERROR::ASSIMP: Unable to open file"]) /\
  HasAnimations Model_new = Fault NullPointer.
Proof.
  destruct (failed_import_leaves_model_unloaded "missing.fbx" NoScene "Unable to open file"
              blank) as (Hload & _ & Hquery & _).
  { discriminate. }
  split; [exact Hload | exact Hquery].
Defined.

(** The arm has two clips: the first press goes from clip 0 to clip 1. *)
Lemma key_1_selects_next_clip_witness :
  ProcessInput false true (MkApp arm_ready 0 false false)
  = Ok (MkApp (set_currentAnimation 1 arm_ready) 1 true false).
Proof.
  destruct (key_1_selects_next_clip (MkApp arm_ready 0 false false) arm) as (Hpress & _).
  - reflexivity.
  - simpl. lia.
  - simpl. lia.
  - exact (Hpress eq_refl).
Defined.

(** The arm's tree and meshes without any clip. *)
Lemma key_1_without_clips_witness :
  ProcessInput false true
    (MkApp (set_scene (AiScene arm_root [arm_mesh; hand_mesh] [skin] []) Model_new)
       0 false false)
  = Ok (MkApp (set_scene (AiScene arm_root [arm_mesh; hand_mesh] [skin] []) Model_new)
          1 true false).
Proof.
  apply (key_1_without_clips
           (MkApp (set_scene (AiScene arm_root [arm_mesh; hand_mesh] [skin] []) Model_new)
              0 false false)
           (AiScene arm_root [arm_mesh; hand_mesh] [skin] [])).
  - reflexivity.
  - reflexivity.
  - reflexivity.
  - simpl. lia.
Defined.

End Examples.
